(** * Resilient remote-data access layer: cache, retry executor, strategies

    A shallow embedding of the JavaScript sources

    - [CacheManager]          (the TTL cache),
    - [PerformanceOptimizer]  (retry executor, single-flight registry,
                               caching strategies, batch loading),
    - [SupabaseClient]        (its own retry executor and cache keys),
    - [ServicesManager]       (the services facade with built-in fallback),
    - [SupabaseQueries]       (the query cache and the table methods of the
                               Supabase client),
    - [MonitoringSystem], [ErrorHandler], [QuotesManager], [GalleryManager]
                              (the bounded logs, the quote submission and the
                               photo viewer),

    together with the properties of the design document that concern them.

    Conventions.  JavaScript numbers that the code uses as counters,
    timestamps and durations are integers and are modelled by [Z];
    [Date.now()] readings are passed in explicitly as arguments (one argument
    per program point that reads the clock).  A JavaScript [Map] with string
    keys is a [gmap string _]: the code only looks keys up, inserts, deletes
    and filters, none of which depends on the iteration order. *)

From Stdlib Require Import ZArith String Ascii List Lia DecimalString Permutation.
From stdpp Require Import gmap strings list fin_maps.

Set Warnings "-register-all".
Local Open Scope Z_scope.

(** ** JavaScript values *)

(** The fragment of JavaScript values the code distinguishes: the strategies
    test results with [if (result)], the retry executor of [SupabaseClient]
    reads [result.error], and [JSON.stringify] serialises parameter objects.
    An object is the list of its own enumerable properties in the order in
    which JavaScript enumerates them. *)
Inductive jsval : Type :=
| JUndefined
| JNull
| JBool (b : bool)
| JNum (n : Z)
| JStr (s : string)
| JArr (items : list jsval)
| JObj (fields : list (string * jsval)).

(** ToBoolean: [undefined], [null], [false], [0] and the empty string are
    falsy, everything else (every object and array) is truthy. *)
Definition truthy (v : jsval) : bool :=
  match v with
  | JUndefined | JNull => false
  | JBool b => b
  | JNum n => negb (n =? 0)
  | JStr s => negb (String.eqb s "")
  | JArr _ | JObj _ => true
  end.

(** Lookup of an own property; a missing property reads as [undefined]. *)
Fixpoint assoc (name : string) (fields : list (string * jsval)) : jsval :=
  match fields with
  | [] => JUndefined
  | (k, v) :: rest => if String.eqb k name then v else assoc name rest
  end.

(** Property read [o.name]; [None] stands for the [TypeError] raised when
    the receiver is [null] or [undefined]. *)
Definition get_prop (o : jsval) (name : string) : option jsval :=
  match o with
  | JUndefined | JNull => None
  | JObj fields => Some (assoc name fields)
  | _ => Some JUndefined
  end.

(** ** CacheManager *)

Module CacheManager.

(** The object literal [{ data, timestamp, ttl }] stored by [set]. *)
Record entry : Type := Entry { data : jsval; timestamp : Z; ttl : Z }.

Record t : Type := Make {
  cache : gmap string entry;
  defaultTTL : Z;
  maxSize : nat
}.

(** [constructor()] *)
Definition new : t :=
  {| cache := ∅; defaultTTL := 5 * 60 * 1000; maxSize := 100 |}.

Definition with_cache (cm : t) (m : gmap string entry) : t :=
  {| cache := m; defaultTTL := defaultTTL cm; maxSize := maxSize cm |}.

(** [(now - value.timestamp) > value.ttl] *)
Definition isExpired (now : Z) (e : entry) : bool :=
  now - timestamp e >? ttl e.

(** [cleanup()]: deletes every entry that is expired at [now]. *)
Definition cleanup (now : Z) (cm : t) : t :=
  with_cache cm (filter (λ kv, isExpired now kv.2 = false) (cache cm)).

(** [set(key, data, ttl = this.defaultTTL)]; [None] is an omitted (or
    [undefined]) third argument.  The two clock readings of [cleanup] and
    of the stored timestamp happen in the same synchronous call and are
    the same [now]. *)
Definition set (key : string) (v : jsval) (ttl_arg : option Z) (now : Z)
    (cm : t) : t :=
  let cm1 :=
    if decide (maxSize cm ≤ size (cache cm))%nat then cleanup now cm else cm in
  with_cache cm1
    (<[ key := {| data := v; timestamp := now;
                  ttl := default (defaultTTL cm) ttl_arg |} ]> (cache cm1)).

(** [get(key)]: the value read ([null] on a miss or on expiry) and the
    cache afterwards (an expired entry is deleted by the read). *)
Definition get (key : string) (now : Z) (cm : t) : jsval * t :=
  match cache cm !! key with
  | None => (JNull, cm)
  | Some cached =>
      if isExpired now cached
      then (JNull, with_cache cm (delete key (cache cm)))
      else (data cached, cm)
  end.

(** [key.includes(pattern)] *)
Definition includes (key pattern : string) : bool :=
  match String.index 0 pattern key with
  | Some _ => true
  | None => false
  end.

(** [invalidate(pattern)] *)
Definition invalidate (pattern : string) (cm : t) : t :=
  with_cache cm (filter (λ kv, includes kv.1 pattern = false) (cache cm)).

(** [clear()] *)
Definition clear (cm : t) : t := with_cache cm ∅.

(** [getStats()]: total, valid and expired counts; nothing is mutated. *)
Record stats : Type := Stats { total : nat; valid : nat; expired : nat; statsMaxSize : nat }.

Definition getStats (now : Z) (cm : t) : stats :=
  {| total := size (cache cm);
     valid := size (filter (λ kv, isExpired now kv.2 = false) (cache cm));
     expired := size (filter (λ kv, isExpired now kv.2 = true) (cache cm));
     statsMaxSize := maxSize cm |}.

(** The public mutators, as a command language, to speak about the states
    the cache can reach. *)
Inductive command : Type :=
| CSet (key : string) (v : jsval) (ttl_arg : option Z)
| CGet (key : string)
| CInvalidate (pattern : string)
| CClear.

(** A command together with the clock reading at which it runs. *)
Definition exec (c : command * Z) (cm : t) : t :=
  match c with
  | (CSet key v ttl_arg, now) => set key v ttl_arg now cm
  | (CGet key, now) => (get key now cm).2
  | (CInvalidate pattern, _) => invalidate pattern cm
  | (CClear, _) => clear cm
  end.

Definition run (cs : list (command * Z)) (cm : t) : t :=
  fold_left (λ s c, exec c s) cs cm.

End CacheManager.

(** ** Asynchronous operations and errors *)

(** How one invocation of an asynchronous operation ends: it fulfils with a
    value, it rejects (or throws) with a reason, or it is still pending when
    whoever waits for it stops waiting. *)
Inductive settle : Type :=
| Fulfil (v : jsval)
| Reject (reason : jsval)
| Pending.

(** A loader: the outcome of the invocation made at attempt number [n] of
    one retried load (attempts count from 1). *)
Definition loader_t : Type := Z → settle.

(** The values the code throws.  [Rejection reason] is whatever an operation
    throws or rejects with; [Message text] is [new Error(text)]; the other
    [Error] objects the code builds are kept structured: [TimeoutError ms] is
    the error of the timer in [withTimeout], [TypeError] a property read on
    [null] or [undefined] (or a loop over a value that is not iterable),
    [SupabaseError err] an [Error] whose message is made from [err.message],
    and the message of [RetriesExhausted n ctx last] is the template
    [Falha após n tentativas em ctx: ] followed by the message of [last]. *)
Inductive error : Type :=
| Message (text : string)
| Rejection (reason : jsval)
| TimeoutError (timeout : Z)
| TypeError
| SupabaseError (err : jsval)
| RetriesExhausted (retryCount : Z) (context : string) (last : error).

(** Whether [e.message] can be read: the read throws a [TypeError] when [e]
    is [null] or [undefined]. *)
Definition message_readable (e : error) : bool :=
  match e with
  | Rejection JUndefined | Rejection JNull => false
  | _ => true
  end.

(** [x || d] for a numeric option field: an absent field and [0] are falsy. *)
Definition or_default (x : option Z) (d : Z) : Z :=
  match x with
  | Some n => if n =? 0 then d else n
  | None => d
  end.

(** ** PerformanceOptimizer *)

Module PerformanceOptimizer.

Record retryConfig_t : Type := RetryConfig {
  maxRetries : Z; baseDelay : Z; maxDelay : Z; backoffFactor : Z
}.

Record timeoutConfig_t : Type := TimeoutConfig {
  timeout_default : Z; timeout_image : Z; timeout_api : Z
}.

(** The counters of [this.metrics]; the two latency fields are sums of clock
    differences that no branch reads and are left out. *)
Record metrics_t : Type := Metrics {
  requests : nat; failures : nat; retries : nat;
  cacheHits : nat; cacheMisses : nat
}.

(** The optimizer object.  [invocations] and [delays] are not fields of the
    JavaScript object: they record how often a loader was called and the
    arguments of every [this.delay(ms)], oldest first. *)
Record t : Type := Make {
  retryConfig : retryConfig_t;
  timeoutConfig : timeoutConfig_t;
  metrics : metrics_t;
  invocations : nat;
  delays : list Z
}.

(** [constructor()] *)
Definition new : t :=
  {| retryConfig := {| maxRetries := 3; baseDelay := 1000;
                       maxDelay := 10000; backoffFactor := 2 |};
     timeoutConfig := {| timeout_default := 10000; timeout_image := 15000;
                         timeout_api := 8000 |};
     metrics := {| requests := 0; failures := 0; retries := 0;
                   cacheHits := 0; cacheMisses := 0 |};
     invocations := 0;
     delays := [] |}.

Definition with_metrics (po : t) (m : metrics_t) : t :=
  {| retryConfig := retryConfig po; timeoutConfig := timeoutConfig po;
     metrics := m; invocations := invocations po; delays := delays po |}.

Definition count_request (po : t) : t :=
  let m := metrics po in
  with_metrics po {| requests := S (requests m); failures := failures m;
                     retries := retries m; cacheHits := cacheHits m;
                     cacheMisses := cacheMisses m |}.

Definition count_failure (po : t) : t :=
  let m := metrics po in
  with_metrics po {| requests := requests m; failures := S (failures m);
                     retries := retries m; cacheHits := cacheHits m;
                     cacheMisses := cacheMisses m |}.

Definition count_retry (po : t) : t :=
  let m := metrics po in
  with_metrics po {| requests := requests m; failures := failures m;
                     retries := S (retries m); cacheHits := cacheHits m;
                     cacheMisses := cacheMisses m |}.

Definition count_cacheHit (po : t) : t :=
  let m := metrics po in
  with_metrics po {| requests := requests m; failures := failures m;
                     retries := retries m; cacheHits := S (cacheHits m);
                     cacheMisses := cacheMisses m |}.

Definition count_cacheMiss (po : t) : t :=
  let m := metrics po in
  with_metrics po {| requests := requests m; failures := failures m;
                     retries := retries m; cacheHits := cacheHits m;
                     cacheMisses := S (cacheMisses m) |}.

(** The loader is called once. *)
Definition invoke (po : t) : t :=
  {| retryConfig := retryConfig po; timeoutConfig := timeoutConfig po;
     metrics := metrics po; invocations := S (invocations po);
     delays := delays po |}.

(** [await this.delay(ms)] *)
Definition delay (ms : Z) (po : t) : t :=
  {| retryConfig := retryConfig po; timeoutConfig := timeoutConfig po;
     metrics := metrics po; invocations := invocations po;
     delays := delays po ++ [ms] |}.

(** The [options] argument of [withRetry]; [context] only reaches the
    console and is left out. *)
Record options : Type := Options {
  opt_maxRetries : option Z;
  opt_baseDelay : option Z;
  opt_timeout : option Z
}.

Definition no_options : options :=
  {| opt_maxRetries := None; opt_baseDelay := None; opt_timeout := None |}.

(** The local [config] object that [withRetry] builds from its options. *)
Record config : Type := Config {
  cfg_maxRetries : Z; cfg_baseDelay : Z; cfg_timeout : Z
}.

Definition make_config (po : t) (o : options) : config :=
  {| cfg_maxRetries := or_default (opt_maxRetries o) (maxRetries (retryConfig po));
     cfg_baseDelay := or_default (opt_baseDelay o) (baseDelay (retryConfig po));
     cfg_timeout := or_default (opt_timeout o) (timeout_default (timeoutConfig po)) |}.

(** [withTimeout(promise, timeout)]: the race of the operation against a
    timer; [Pending] is an operation that has not settled when the timer
    fires. *)
Definition withTimeout (p : settle) (timeout : Z) : jsval + error :=
  match p with
  | Fulfil v => inl v
  | Reject r => inr (Rejection r)
  | Pending => inr (TimeoutError timeout)
  end.

(** [Math.min(config.baseDelay * Math.pow(backoffFactor, attempt - 1), maxDelay)] *)
Definition backoff (rc : retryConfig_t) (cfg : config) (attempt : Z) : Z :=
  Z.min (cfg_baseDelay cfg * backoffFactor rc ^ (attempt - 1)) (maxDelay rc).

(** The code after the [for] loop: [lastError.message] is read for the
    console, then [lastError] is thrown. *)
Definition after_loop (lastError : option error) : error :=
  match lastError with
  | None => TypeError
  | Some e => if message_readable e then e else TypeError
  end.

(** One pass through the [for] statement of [withRetry] at [attempt]: the
    loop test, then the body.  The pass either leaves the function
    ([Finished]: a [return] from the [try] or the [throw] after the loop) or
    hands over to the next attempt ([Again]). *)
Inductive iter_result : Type :=
| Finished (r : jsval + error)
| Again (attempt : Z) (lastError : option error).

Definition retry_iter (cfg : config) (operation : loader_t)
    (attempt : Z) (lastError : option error) (po : t) : iter_result * t :=
  if attempt <=? cfg_maxRetries cfg + 1 then
    let po1 := invoke (count_request po) in
    match withTimeout (operation attempt) (cfg_timeout cfg) with
    | inl result => (Finished (inl result), po1)
    | inr e =>
        let po2 := count_failure po1 in
        let po3 :=
          if attempt <=? cfg_maxRetries cfg
          then delay (backoff (retryConfig po) cfg attempt) (count_retry po2)
          else po2 in
        (Again (attempt + 1) (Some e), po3)
    end
  else (Finished (inr (after_loop lastError)), po).

(** The [for] loop of [withRetry], from [attempt] on.  [fuel] bounds the
    number of passes; [None] is fuel run out. *)
Fixpoint retry_loop (fuel : nat) (cfg : config) (operation : loader_t)
    (attempt : Z) (lastError : option error) (po : t)
    : option ((jsval + error) * t) :=
  match fuel with
  | O => None
  | S fuel' =>
      match retry_iter cfg operation attempt lastError po with
      | (Finished r, po') => Some (r, po')
      | (Again attempt' lastError', po') =>
          retry_loop fuel' cfg operation attempt' lastError' po'
      end
  end.

(** [withRetry(operation, options)] *)
Definition withRetry (operation : loader_t) (o : options) (po : t)
    : option ((jsval + error) * t) :=
  let cfg := make_config po o in
  retry_loop (S (Z.to_nat (cfg_maxRetries cfg + 1))) cfg operation 1 None po.

(** The strategies read the global [window.cacheManager]; [None] is a page
    on which the cache script is not loaded.  A strategy's state is the
    optimizer together with that global. *)
Definition world : Type := t * option CacheManager.t.

(** [cacheManager.get(key)] behind the guard [if (window.cacheManager)];
    without a cache manager nothing is read and the local stays falsy. *)
Definition cache_get (key : string) (now : Z) (cm : option CacheManager.t)
    : jsval * option CacheManager.t :=
  match cm with
  | None => (JNull, None)
  | Some c => let r := CacheManager.get key now c in (r.1, Some r.2)
  end.

(** [if (window.cacheManager && result) cacheManager.set(key, result, ttl)] *)
Definition cache_put (key : string) (result : jsval) (ttl : option Z) (now : Z)
    (cm : option CacheManager.t) : option CacheManager.t :=
  match cm with
  | None => None
  | Some c =>
      if truthy result then Some (CacheManager.set key result ttl now c) else Some c
  end.

(** [cacheFirst(key, loader, ttl)]; [t_read] is the clock at the lookup,
    [t_write] the clock when the load has settled. *)
Definition cacheFirst (key : string) (loader : loader_t) (ttl : option Z)
    (t_read t_write : Z) (w : world) : option ((jsval + error) * world) :=
  let '(po, cm) := w in
  let '(cached, cm1) := cache_get key t_read cm in
  if truthy cached then
    Some (inl cached, (count_cacheHit po, cm1))
  else
    match withRetry loader no_options (count_cacheMiss po) with
    | None => None
    | Some (inr e, po1) => Some (inr e, (po1, cm1))
    | Some (inl result, po1) =>
        Some (inl result, (po1, cache_put key result ttl t_write cm1))
    end.

(** [networkFirst(key, loader, ttl)]; [t_end] is the clock when the load has
    settled, at which the cache is written or, after a failure, read. *)
Definition networkFirst (key : string) (loader : loader_t) (ttl : option Z)
    (t_end : Z) (w : world) : option ((jsval + error) * world) :=
  let '(po, cm) := w in
  match withRetry loader
          {| opt_maxRetries := Some 1; opt_baseDelay := None; opt_timeout := None |}
          po with
  | None => None
  | Some (inl result, po1) =>
      Some (inl result, (po1, cache_put key result ttl t_end cm))
  | Some (inr e, po1) =>
      let '(cached, cm1) := cache_get key t_end cm in
      if truthy cached
      then Some (inl cached, (count_cacheHit po1, cm1))
      else Some (inr e, (po1, cm1))
  end.

(** [staleWhileRevalidate(key, loader, ttl)].  On a hit the cached value is
    returned at once and the revalidation runs detached: the state given
    back is the one reached when that background load has settled (at
    clock [t_write]); its failure is only logged. *)
Definition staleWhileRevalidate (key : string) (loader : loader_t)
    (ttl : option Z) (t_read t_write : Z) (w : world)
    : option ((jsval + error) * world) :=
  let '(po, cm) := w in
  let '(cached, cm1) := cache_get key t_read cm in
  if truthy cached then
    match withRetry loader no_options (count_cacheHit po) with
    | None => None
    | Some (inl result, po1) =>
        Some (inl cached, (po1, cache_put key result ttl t_write cm1))
    | Some (inr _, po1) => Some (inl cached, (po1, cm1))
    end
  else
    match withRetry loader no_options (count_cacheMiss po) with
    | None => None
    | Some (inr e, po1) => Some (inr e, (po1, cm1))
    | Some (inl result, po1) =>
        Some (inl result, (po1, cache_put key result ttl t_write cm1))
    end.

(** [smartCache(key, loader, options)]: [options.ttl || 300000] and the
    dispatch on [options.strategy] (absent and unknown names go to
    cache-first). *)
Definition smartCache (key : string) (loader : loader_t)
    (strategy : option string) (ttl : option Z) (t_read t_write : Z) (w : world)
    : option ((jsval + error) * world) :=
  let ttl' := Some (or_default ttl 300000) in
  match strategy with
  | Some "network-first"%string => networkFirst key loader ttl' t_write w
  | Some "stale-while-revalidate"%string =>
      staleWhileRevalidate key loader ttl' t_read t_write w
  | _ => cacheFirst key loader ttl' t_read t_write w
  end.

(** *** batchLoad *)

(** [items.slice(start, end)], negative indices counting from the end. *)
Definition slice {A : Type} (items : list A) (start stop : Z) : list A :=
  let len := Z.of_nat (length items) in
  let k := if start <? 0 then Z.max (len + start) 0 else Z.min start len in
  let final := if stop <? 0 then Z.max (len + stop) 0 else Z.min stop len in
  firstn (Z.to_nat (final - k)) (skipn (Z.to_nat k) items).

Record batch_options : Type := BatchOptions {
  batchSize : option Z;
  batchDelay : option Z;
  batchTimeout : option Z
}.

(** [batch.map(item => this.withRetry(() => loader(item), ...))]: one
    retried load per item, with what each of them settles to.  The loads of
    a batch run interleaved and share only the counters; the counters given
    back are the ones reached when every load of the batch has settled,
    which for a batch with a failing item can be later than the moment at
    which [batchLoad] moves on. *)
Fixpoint load_batch (loader : jsval → loader_t) (o : options)
    (batch : list jsval) (po : t) : option (list (jsval + error) * t) :=
  match batch with
  | [] => Some ([], po)
  | item :: rest =>
      match withRetry (loader item) o po with
      | None => None
      | Some (r, po1) =>
          match load_batch loader o rest po1 with
          | None => None
          | Some (rs, po2) => Some (r :: rs, po2)
          end
      end
  end.

(** [await Promise.all(promises)]: the values in order when every promise
    fulfils, a rejection as soon as one of them rejects. *)
Fixpoint promise_all (rs : list (jsval + error)) : option (list jsval) :=
  match rs with
  | [] => Some []
  | inl v :: rest =>
      match promise_all rest with
      | Some vs => Some (v :: vs)
      | None => None
      end
  | inr _ :: _ => None
  end.

(** The [for (let i = 0; i < items.length; i += batchSize)] loop. *)
Fixpoint batch_loop (fuel : nat) (items : list jsval) (loader : jsval → loader_t)
    (size pause : Z) (timeout : option Z) (i : Z) (results : list jsval) (po : t)
    : option (list jsval * t) :=
  match fuel with
  | O => None
  | S fuel' =>
      if i <? Z.of_nat (length items) then
        let batch := slice items i (i + size) in
        match load_batch loader
                {| opt_maxRetries := None; opt_baseDelay := None;
                   opt_timeout := timeout |} batch po with
        | None => None
        | Some (rs, po1) =>
            match promise_all rs with
            | Some batchResults =>
                let po2 :=
                  if (i + size <? Z.of_nat (length items)) && (pause >? 0)
                  then delay pause po1 else po1 in
                batch_loop fuel' items loader size pause timeout (i + size)
                  (results ++ batchResults) po2
            | None =>
                batch_loop fuel' items loader size pause timeout (i + size)
                  results po1
            end
        end
      else Some (results, po)
  end.

(** [batchLoad(items, loader, options)]: [options.batchSize || 5] and
    [options.delay || 100]. *)
Definition batchLoad (items : list jsval) (loader : jsval → loader_t)
    (o : batch_options) (po : t) : option (list jsval * t) :=
  batch_loop (S (length items)) items loader
    (or_default (batchSize o) 5) (or_default (batchDelay o) 100)
    (batchTimeout o) 0 [] po.

(** *** lazyLoad *)

Record lazy_options : Type := LazyOptions {
  cacheKey : option string;
  lazyTimeout : option Z;
  cacheTTL : option Z
}.

(** The key when the guard [if (cacheKey ...)] passes: an absent key and
    the empty string are falsy. *)
Definition truthy_key (o : lazy_options) : option string :=
  match cacheKey o with
  | Some k => if String.eqb k "" then None else Some k
  | None => None
  end.

(** The first block of [lazyLoad]: the cache lookup with its hit and miss
    counters, skipped without a key or without a cache manager. *)
Definition lazy_lookup (o : lazy_options) (now : Z) (w : world) : jsval * world :=
  let '(po, cm) := w in
  match truthy_key o, cm with
  | Some k, Some c =>
      let r := CacheManager.get k now c in
      if truthy r.1 then (r.1, (count_cacheHit po, Some r.2))
      else (JNull, (count_cacheMiss po, Some r.2))
  | _, _ => (JNull, w)
  end.

(** The [try] block of [lazyLoad] once [loadPromise] has settled. *)
Definition lazy_store (key : option string) (ttl : option Z) (now : Z)
    (r : jsval + error) (cm : option CacheManager.t) : option CacheManager.t :=
  match r, key with
  | inl result, Some k => cache_put k result ttl now cm
  | _, _ => cm
  end.

(** [lazyLoad(loader, options)] run by one caller from start to end.
    [in_flight] is what the promise registered under the key settles to,
    when there is one ([activeRequests.has(cacheKey)]). *)
Definition lazyLoad (loader : loader_t) (o : lazy_options)
    (in_flight : option (jsval + error)) (t_read t_write : Z) (w : world)
    : option ((jsval + error) * world) :=
  let '(cached, (po1, cm1)) := lazy_lookup o t_read w in
  if truthy cached then Some (inl cached, (po1, cm1))
  else
    match truthy_key o, in_flight with
    | Some _, Some r => Some (r, (po1, cm1))
    | key, _ =>
        match withRetry loader
                {| opt_maxRetries := None; opt_baseDelay := None;
                   opt_timeout := lazyTimeout o |} po1 with
        | None => None
        | Some (r, po2) =>
            Some (r, (po2, lazy_store key (cacheTTL o) t_write r cm1))
        end
    end.

(** *** lazyLoad under interleaving

    JavaScript runs the callers of [lazyLoad] as cooperative tasks on one
    thread: a task runs until it awaits.  The machine below has one
    transition per such uninterrupted stretch.  A retried load is kept with
    the state of its [for] loop; a caller that awaits is kept with the
    promise it awaits; a promise is the index of its load.  Every pass of a
    load, the first included, is a transition of its own: JavaScript runs
    the beginning of the first pass (the request counter and the first
    invocation of the loader) in the same stretch as the call that starts
    the load, which no caller can tell apart, since a pass reads and writes
    nothing but the counters. *)

Record load : Type := Load {
  ld_cfg : config;
  ld_loader : loader_t;
  ld_state : iter_result;
  ld_invocations : nat
}.

Inductive task : Type :=
| Starter (p : nat) (key : option string) (ttl : option Z)
| Joiner (p : nat).

Record machine : Type := Machine {
  m_world : world;
  activeRequests : gmap string nat;
  loads : list load;
  waiting : gmap nat task;
  delivered : gmap nat (jsval + error)
}.

Inductive event : Type :=
| Call (c : nat) (loader : loader_t) (o : lazy_options) (now : Z)
| Attempt (p : nat)
| Resume (c : nat) (now : Z).

(** The promise a caller with this key would join. *)
Definition registered (key : option string) (m : machine) : option nat :=
  match key with
  | Some k => activeRequests m !! k
  | None => None
  end.

(** [Call c loader o now]: caller [c] enters [lazyLoad] and runs up to its
    first [await] (or to its [return] on a cache hit). *)
Definition call (c : nat) (loader : loader_t) (o : lazy_options) (now : Z)
    (m : machine) : option machine :=
  match waiting m !! c, delivered m !! c with
  | None, None =>
      let '(cached, w1) := lazy_lookup o now (m_world m) in
      if truthy cached then
        Some {| m_world := w1; activeRequests := activeRequests m;
                loads := loads m; waiting := waiting m;
                delivered := <[ c := inl cached ]> (delivered m) |}
      else
        match registered (truthy_key o) m with
        | Some p =>
            Some {| m_world := w1; activeRequests := activeRequests m;
                    loads := loads m;
                    waiting := <[ c := Joiner p ]> (waiting m);
                    delivered := delivered m |}
        | None =>
            let p := length (loads m) in
            let ld :=
              {| ld_cfg := make_config w1.1
                             {| opt_maxRetries := None; opt_baseDelay := None;
                                opt_timeout := lazyTimeout o |};
                 ld_loader := loader;
                 ld_state := Again 1 None;
                 ld_invocations := 0 |} in
            Some {| m_world := w1;
                    activeRequests :=
                      match truthy_key o with
                      | Some k => <[ k := p ]> (activeRequests m)
                      | None => activeRequests m
                      end;
                    loads := loads m ++ [ld];
                    waiting := <[ c := Starter p (truthy_key o) (cacheTTL o) ]> (waiting m);
                    delivered := delivered m |}
        end
  | _, _ => None
  end.

(** [Attempt p]: the retried load [p] makes one pass through its loop. *)
Definition attempt (p : nat) (m : machine) : option machine :=
  match loads m !! p with
  | Some ld =>
      match ld_state ld with
      | Again a last =>
          let '(st, po') := retry_iter (ld_cfg ld) (ld_loader ld) a last (m_world m).1 in
          Some {| m_world := (po', (m_world m).2);
                  activeRequests := activeRequests m;
                  loads :=
                    <[ p := {| ld_cfg := ld_cfg ld; ld_loader := ld_loader ld;
                               ld_state := st;
                               ld_invocations :=
                                 ld_invocations ld
                                 + (invocations po' - invocations (m_world m).1) |} ]>
                      (loads m);
                  waiting := waiting m;
                  delivered := delivered m |}
      | Finished _ => None
      end
  | None => None
  end.

(** What promise [p] has settled to, if it has. *)
Definition settled (p : nat) (m : machine) : option (jsval + error) :=
  match loads m !! p with
  | Some ld =>
      match ld_state ld with
      | Finished r => Some r
      | Again _ _ => None
      end
  | None => None
  end.

(** [Resume c now]: the promise caller [c] awaits has settled and [c] runs
    to its end: a joiner returns the outcome; the caller that started the
    load stores a truthy result and, in its [finally], unregisters the key. *)
Definition resume (c : nat) (now : Z) (m : machine) : option machine :=
  match waiting m !! c with
  | Some (Joiner p) =>
      match settled p m with
      | Some r =>
          Some {| m_world := m_world m; activeRequests := activeRequests m;
                  loads := loads m; waiting := delete c (waiting m);
                  delivered := <[ c := r ]> (delivered m) |}
      | None => None
      end
  | Some (Starter p key ttl) =>
      match settled p m with
      | Some r =>
          Some {| m_world := ((m_world m).1, lazy_store key ttl now r (m_world m).2);
                  activeRequests :=
                    match key with
                    | Some k => delete k (activeRequests m)
                    | None => activeRequests m
                    end;
                  loads := loads m; waiting := delete c (waiting m);
                  delivered := <[ c := r ]> (delivered m) |}
      | None => None
      end
  | None => None
  end.

Definition step (e : event) (m : machine) : option machine :=
  match e with
  | Call c loader o now => call c loader o now m
  | Attempt p => attempt p m
  | Resume c now => resume c now m
  end.

(** A schedule; [None] when one of its events is not enabled. *)
Fixpoint run (es : list event) (m : machine) : option machine :=
  match es with
  | [] => Some m
  | e :: rest =>
      match step e m with
      | Some m' => run rest m'
      | None => None
      end
  end.

(** The page after the scripts have loaded: nothing in flight. *)
Definition boot (w : world) : machine :=
  {| m_world := w; activeRequests := ∅; loads := [];
     waiting := ∅; delivered := ∅ |}.

End PerformanceOptimizer.

(** ** SupabaseClient *)

Module SupabaseClient.

(** How a call of the executor ends; [Never] is a call that does not return
    because the operation never settles (there is no timeout here). *)
Inductive completion : Type :=
| Return (v : jsval)
| Throw (e : error)
| Never.

(** The fields of the client that the executor reads.  [invocations] and
    [delays] are bookkeeping as in [PerformanceOptimizer.t]. *)
Record t : Type := Make {
  retryCount : Z;
  retryDelay : Z;
  initialized : bool;
  invocations : nat;
  delays : list Z
}.

(** [constructor()] *)
Definition new : t :=
  {| retryCount := 3; retryDelay := 1000; initialized := false;
     invocations := 0; delays := [] |}.

(** [await this.init()]: [loadSupabase] catches its own failures and falls
    back to a mock client, so [init] always completes. *)
Definition init (sb : t) : t :=
  {| retryCount := retryCount sb; retryDelay := retryDelay sb;
     initialized := true; invocations := invocations sb; delays := delays sb |}.

Definition invoke (sb : t) : t :=
  {| retryCount := retryCount sb; retryDelay := retryDelay sb;
     initialized := initialized sb; invocations := S (invocations sb);
     delays := delays sb |}.

(** [await new Promise(resolve => setTimeout(resolve, delay))] *)
Definition sleep (ms : Z) (sb : t) : t :=
  {| retryCount := retryCount sb; retryDelay := retryDelay sb;
     initialized := initialized sb; invocations := invocations sb;
     delays := delays sb ++ [ms] |}.

(** What the [try] block makes of a settled operation: the result to
    return, or the error that reaches the [catch]. *)
Definition try_block (s : settle) : option (jsval + error) :=
  match s with
  | Pending => None
  | Reject r => Some (inr (Rejection r))
  | Fulfil result =>
      match get_prop result "error" with
      | None => Some (inr TypeError)
      | Some err =>
          if truthy err then Some (inr (SupabaseError err))
          else Some (inl result)
      end
  end.

Inductive iter_result : Type :=
| Finished (c : completion)
| Again (attempt : Z) (lastError : option error).

(** The [throw] after the loop; it reads [lastError.message]. *)
Definition after_loop (sb : t) (context : string) (lastError : option error)
    : error :=
  match lastError with
  | None => TypeError
  | Some e =>
      if message_readable e then RetriesExhausted (retryCount sb) context e
      else TypeError
  end.

(** One pass through the [for] statement at [attempt].  The [catch] block
    reads [error.message] for the console before it sleeps. *)
Definition retry_iter (operation : loader_t) (context : string)
    (attempt : Z) (lastError : option error) (sb : t) : iter_result * t :=
  if attempt <=? retryCount sb then
    let sb1 := invoke sb in
    match try_block (operation attempt) with
    | None => (Finished Never, sb1)
    | Some (inl result) => (Finished (Return result), sb1)
    | Some (inr e) =>
        if message_readable e then
          let sb2 :=
            if attempt <? retryCount sb
            then sleep (retryDelay sb * 2 ^ (attempt - 1)) sb1
            else sb1 in
          (Again (attempt + 1) (Some e), sb2)
        else (Finished (Throw TypeError), sb1)
    end
  else (Finished (Throw (after_loop sb context lastError)), sb).

Fixpoint retry_loop (fuel : nat) (operation : loader_t) (context : string)
    (attempt : Z) (lastError : option error) (sb : t)
    : option (completion * t) :=
  match fuel with
  | O => None
  | S fuel' =>
      match retry_iter operation context attempt lastError sb with
      | (Finished c, sb') => Some (c, sb')
      | (Again attempt' lastError', sb') =>
          retry_loop fuel' operation context attempt' lastError' sb'
      end
  end.

(** [withRetry(operation, context)] *)
Definition withRetry (operation : loader_t) (context : string) (sb : t)
    : option (completion * t) :=
  retry_loop (S (Z.to_nat (retryCount sb))) operation context 1 None (init sb).

End SupabaseClient.

(** ** JSON.stringify and the cache keys *)

Definition dquote : string := String (ascii_of_nat 34) EmptyString.
Definition backslash : string := String (ascii_of_nat 92) EmptyString.

Definition hex_digit (n : nat) : string :=
  match String.get n "0123456789abcdef" with
  | Some c => String c EmptyString
  | None => "0"
  end.

(** The escape of one character inside a JSON string literal. *)
Definition escape_char (c : ascii) : string :=
  let n := nat_of_ascii c in
  if (n =? 34)%nat then backslash ++ dquote
  else if (n =? 92)%nat then backslash ++ backslash
  else if (n =? 8)%nat then backslash ++ "b"
  else if (n =? 9)%nat then backslash ++ "t"
  else if (n =? 10)%nat then backslash ++ "n"
  else if (n =? 12)%nat then backslash ++ "f"
  else if (n =? 13)%nat then backslash ++ "r"
  else if (n <? 32)%nat
       then backslash ++ "u00" ++ hex_digit (n / 16) ++ hex_digit (n mod 16)
  else String c EmptyString.

Fixpoint escape (s : string) : string :=
  match s with
  | EmptyString => EmptyString
  | String c rest => escape_char c ++ escape rest
  end.

Definition quote (s : string) : string := dquote ++ escape s ++ dquote.

(** The numeral JavaScript prints for an integer (below 10^21, where the
    exponent notation starts). *)
Definition number_to_string (n : Z) : string :=
  NilZero.string_of_int (Z.to_int n).

Fixpoint join_comma (parts : list string) : string :=
  match parts with
  | [] => EmptyString
  | [p] => p
  | p :: rest => p ++ "," ++ join_comma rest
  end.

(** [JSON.stringify(v)]; [None] is the result [undefined].  Properties are
    written in enumeration order; a property whose value serialises to
    [undefined] is skipped, an array element that does so is [null]. *)
Fixpoint stringify (v : jsval) : option string :=
  match v with
  | JUndefined => None
  | JNull => Some "null"%string
  | JBool b => Some (if b then "true" else "false")%string
  | JNum n => Some (number_to_string n)
  | JStr s => Some (quote s)
  | JArr items =>
      Some ("[" ++ join_comma
                    (map (λ x, match stringify x with
                               | Some t => t
                               | None => "null"%string
                               end) items) ++ "]")%string
  | JObj fields =>
      Some ("{" ++ join_comma
                    ((fix members (fs : list (string * jsval)) : list string :=
                        match fs with
                        | [] => []
                        | (k, x) :: rest =>
                            match stringify x with
                            | Some t => (quote k ++ ":" ++ t)%string :: members rest
                            | None => members rest
                            end
                        end) fields) ++ "}")%string
  end.

(** [JSON.stringify(params)] for an object. *)
Definition stringify_object (params : list (string * jsval)) : string :=
  match stringify (JObj params) with
  | Some t => t
  | None => "undefined"
  end.

(** [CacheManager.generateKey(prefix, params = {})] *)
Definition generateKey (prefix : string) (params : list (string * jsval))
    : string :=
  let paramString :=
    if (0 <? length params)%nat then stringify_object params else ""%string in
  (prefix ++ "_" ++ paramString)%string.

(** [SupabaseClient.getCacheKey(table, params = {})] *)
Definition getCacheKey (table : string) (params : list (string * jsval))
    : string :=
  (table ++ "_" ++ stringify_object params)%string.

(** ** ServicesManager *)

Module ServicesManager.

(** The manager object; [services] holds whatever was last assigned to
    [this.services] (an array, or a cached value). *)
Record t : Type := Make {
  services : jsval;
  isLoading : bool;
  lastLoadTime : option Z;
  fallbackServices : jsval
}.

(** One record of [getFallbackServices()]. *)
Definition fallback_record (id name description : string) (price : Z)
    (category : string) : jsval :=
  JObj [("id", JStr id); ("name", JStr name); ("description", JStr description);
        ("price_per_person", JNum price); ("category", JStr category);
        ("active", JBool true)]%string.

(** [getFallbackServices()] *)
Definition getFallbackServices : jsval :=
  JArr [
    fallback_record "fallback-1" "Buffet Completo"
      "Salgados, doces, bebidas e serviço completo" 45 "buffet";
    fallback_record "fallback-2" "Bolo Personalizado"
      "Bolos temáticos e personalizados para sua festa" 120 "doces";
    fallback_record "fallback-3" "Decoração Temática"
      "Decoração completa para todos os tipos de festa" 200 "decoracao";
    fallback_record "fallback-4" "Coffee Break Corporativo"
      "Café, salgados, doces e sucos para eventos empresariais" 25 "corporativo"
  ]%string.

(** [constructor()] *)
Definition new : t :=
  {| services := JArr []; isLoading := false; lastLoadTime := None;
     fallbackServices := getFallbackServices |}.

(** What [loadFromSupabase] meets when it turns to the remote service:
    no client on the page, a call of [supabaseClient.getServices] that
    throws, one that returns [result], or one that never settles (the
    executor of the client waits for its operation without a timeout). *)
Inductive remote : Type :=
| NoClient
| GetServicesThrows (e : error)
| GetServicesReturns (result : jsval)
| GetServicesHangs.

(** How a call of an asynchronous method of the facade ends: its promise
    fulfils with a value, it rejects with an error, or it never settles. *)
Inductive completion (A : Type) : Type :=
| Returns (a : A)
| Throws (e : error)
| Hangs.

Arguments Returns {A} a.
Arguments Throws {A} e.
Arguments Hangs {A}.

(** The object [loadFromSupabase] returns: [{ success: true, data }] or
    [{ success: false, error }]. *)
Record load_result : Type := LoadResult {
  success : bool;
  data : list jsval;
  load_error : option error
}.

Definition failed (e : error) : load_result :=
  {| success := false; data := []; load_error := Some e |}.

(** The [catch] block of [loadFromSupabase]: it reads [error.message] to
    build the result, a read that itself throws when what was caught is
    [null] or [undefined]. *)
Definition caught (e : error) : completion load_result :=
  if message_readable e then Returns (failed e) else Throws TypeError.

(** The values a [for ... of] loop over [result.data || []] visits; [None]
    is the [TypeError] for a truthy value that is not iterable.  A string is
    iterated character by character. *)
Definition iterate (d : jsval) : option (list jsval) :=
  if truthy d then
    match d with
    | JArr items => Some items
    | JStr s => Some (map (λ c, JStr (String c EmptyString)) (list_ascii_of_string s))
    | _ => None
    end
  else Some [].

(** The state the facade works on: the manager, the global cache manager,
    whether the page has a [window.errorHandler], the number of offline
    notices that handler has shown, and whether the document has an element
    of class [services-grid]. *)
Record state : Type := State {
  manager : t;
  cacheManager : CacheManager.t;
  errorHandler : bool;
  offlineNotices : nat;
  servicesGrid : bool
}.

(** [showOfflineMessage()]: the notice
    [{ type: 'info', userMessage: 'Exibindo serviços salvos...' }] goes to
    [errorHandler.showUserFriendlyMessage] when the page has an error
    handler. *)
Definition showOfflineMessage (handler : bool) (shown : nat) : nat :=
  if handler then S shown else shown.

(** Whether [createServiceElement(service)] completes.  It calls
    [service.name.toLowerCase()] and
    [(service.category || '').toLowerCase()] (in [getServiceEmoji]) and
    [service.price_per_person.toFixed(2)]: the name has to be a string, the
    category a string or falsy, the price a number; anything else is a
    [TypeError]. *)
Definition card_renders (service : jsval) : bool :=
  match get_prop service "name", get_prop service "category",
        get_prop service "price_per_person" with
  | Some (JStr _), Some category, Some (JNum _) =>
      if truthy category
      then match category with JStr _ => true | _ => false end
      else true
  | _, _, _ => false
  end.

(** Whether [renderServices()] completes with [this.services = services]:
    without the grid element it returns at once; with it, it calls
    [services.forEach], which only an array has, and builds one card per
    element.  [false] is a [TypeError]. *)
Definition renderServices (grid : bool) (services : jsval) : bool :=
  if grid then
    match services with
    | JArr items => forallb card_renders items
    | _ => false
    end
  else true.

(** The default of the parameter [category = null]. *)
Definition default_category (category : jsval) : jsval :=
  match category with
  | JUndefined => JNull
  | _ => category
  end.

Definition with_services (sm : t) (v : jsval) (loaded : option Z) : t :=
  {| services := v; isLoading := false; lastLoadTime := loaded;
     fallbackServices := fallbackServices sm |}.

(** The [catch] block of [loadServices] and the [finally] after it: the
    fallback list is assigned and rendered, then the offline notice is
    shown and the list returned.  A throw of the rendering leaves the
    block, so that the call rejects. *)
Definition fall_back (sm : t) (cm : CacheManager.t) (s : state)
    : completion jsval * state :=
  let sm' := with_services sm (fallbackServices sm) (lastLoadTime sm) in
  if renderServices (servicesGrid s) (fallbackServices sm) then
    (Returns (fallbackServices sm),
     {| manager := sm'; cacheManager := cm; errorHandler := errorHandler s;
        offlineNotices := showOfflineMessage (errorHandler s) (offlineNotices s);
        servicesGrid := servicesGrid s |})
  else
    (Throws TypeError,
     {| manager := sm'; cacheManager := cm; errorHandler := errorHandler s;
        offlineNotices := offlineNotices s; servicesGrid := servicesGrid s |}).

Section Validator.

(** What evaluating [DataModels.validateService(service)] gives: the fields
    [valid] and [sanitized] of the object it returns, or the error it
    throws.  The validator rests on URL and number parsing of the host and
    is a parameter; [DataModels_undefined] below is the one of the page as
    the repository has it. *)
Variable validateService : jsval → (bool * jsval) + error.

(** The validation loop: [validServices] collects the sanitized form of
    every valid record, in order; a throw of the validator leaves the
    loop. *)
Fixpoint validate (records : list jsval) (validServices : list jsval)
    : list jsval + error :=
  match records with
  | [] => inl validServices
  | service :: rest =>
      match validateService service with
      | inr e => inr e
      | inl validation =>
          validate rest
            (if validation.1 then validServices ++ [validation.2]
             else validServices)
      end
  end.

(** [loadFromSupabase(category)] *)
Definition loadFromSupabase (r : remote) : completion load_result :=
  match r with
  | NoClient => caught (Message "Cliente Supabase não disponível")
  | GetServicesThrows e => caught e
  | GetServicesHangs => Hangs
  | GetServicesReturns result =>
      match get_prop result "error" with
      | None => caught TypeError
      | Some err =>
          if truthy err then caught (SupabaseError err)
          else
            match get_prop result "data" with
            | None => caught TypeError
            | Some d =>
                match iterate d with
                | None => caught TypeError
                | Some records =>
                    match validate records [] with
                    | inl validServices =>
                        Returns {| success := true; data := validServices;
                                   load_error := None |}
                    | inr e => caught e
                    end
                end
            end
      end
  end.

(** [loadServices(category = null, useCache = true)]: how the call ends and
    the state it leaves.  [t_read] is the clock at the cache lookup,
    [t_write] the clock once the remote load has settled.  The state of a
    call that hangs is the one in which it waits, with [isLoading] set.  A
    throw of [renderServices] after the cache has been written goes to the
    [catch] block like a failed load.  The performance marks only reach the
    monitoring system and the loading indicator only the page; both are
    left out. *)
Definition loadServices (category : jsval) (useCache : bool) (r : remote)
    (t_read t_write : Z) (s : state) : completion jsval * state :=
  let sm := manager s in
  let cacheKey :=
    generateKey "services" [("category"%string, default_category category)] in
  let '(cached, cm1) :=
    if useCache then CacheManager.get cacheKey t_read (cacheManager s)
    else (JNull, cacheManager s) in
  if truthy cached then
    (Returns cached,
     {| manager := {| services := cached; isLoading := isLoading sm;
                      lastLoadTime := lastLoadTime sm;
                      fallbackServices := fallbackServices sm |};
        cacheManager := cm1; errorHandler := errorHandler s;
        offlineNotices := offlineNotices s; servicesGrid := servicesGrid s |})
  else if isLoading sm then
    (Returns (services sm),
     {| manager := sm; cacheManager := cm1; errorHandler := errorHandler s;
        offlineNotices := offlineNotices s; servicesGrid := servicesGrid s |})
  else
    match loadFromSupabase r with
    | Hangs =>
        (Hangs,
         {| manager := {| services := services sm; isLoading := true;
                          lastLoadTime := lastLoadTime sm;
                          fallbackServices := fallbackServices sm |};
            cacheManager := cm1; errorHandler := errorHandler s;
            offlineNotices := offlineNotices s;
            servicesGrid := servicesGrid s |})
    | Throws _ => fall_back sm cm1 s
    | Returns result =>
        if success result && (0 <? length (data result))%nat then
          let loaded := JArr (data result) in
          let sm2 := with_services sm loaded (Some t_write) in
          let cm2 := CacheManager.set cacheKey loaded None t_write cm1 in
          if renderServices (servicesGrid s) loaded then
            (Returns loaded,
             {| manager := sm2; cacheManager := cm2;
                errorHandler := errorHandler s;
                offlineNotices := offlineNotices s;
                servicesGrid := servicesGrid s |})
          else fall_back sm2 cm2 s
        else fall_back sm cm1 s
    end.

(** [refreshServices()]: the cached lists are invalidated and
    [loadServices(null, false)] runs, which does not look the cache up. *)
Definition refreshServices (r : remote) (t_write : Z) (s : state)
    : completion jsval * state :=
  loadServices JNull false r t_write t_write
    {| manager := manager s;
       cacheManager := CacheManager.invalidate "services" (cacheManager s);
       errorHandler := errorHandler s;
       offlineNotices := offlineNotices s;
       servicesGrid := servicesGrid s |}.

End Validator.

(** [DataModels.validateService(service)] on the page as the repository has
    it.  The global [DataModels] is defined by [data-models.js] alone, and
    that script is rejected when it is parsed: its class body names a
    parameter [package] ([validatePackage(package)],
    [sanitizePackage(package)]), a reserved word of strict code, which a
    class body always is.  So the global does not exist, and evaluating
    [DataModels.validateService(service)] throws the [ReferenceError] with
    the message below, whatever the record. *)
Definition DataModels_undefined (service : jsval) : (bool * jsval) + error :=
  inr (Message "DataModels is not defined").

End ServicesManager.

(** ** Vocabulary of the retry properties *)

(** An invocation that does not produce a value: it rejects, throws, or is
    still pending when the timer fires. *)
Definition is_failure (s : settle) : Prop :=
  match s with Fulfil _ => False | _ => True end.

(** The attempts [a, a+1, ..., a+k-1]. *)
Fixpoint attempts_from (a : Z) (k : nat) : list Z :=
  match k with
  | O => []
  | S k' => a :: attempts_from (a + 1) k'
  end.

(** The error the executor observes at attempt [a]. *)
Definition attempt_error (cfg : PerformanceOptimizer.config) (operation : loader_t) (a : Z) : error :=
  match PerformanceOptimizer.withTimeout (operation a) (PerformanceOptimizer.cfg_timeout cfg) with
  | inr e => e
  | inl _ => TypeError
  end.

(** The error that an attempt of [SupabaseClient.withRetry] hands to its
    [catch] block and that the block gets past (its message can be read);
    [None] when the attempt does not fail in this way. *)
Definition caught_error (s : settle) : option error :=
  match SupabaseClient.try_block s with
  | Some (inr e) => if message_readable e then Some e else None
  | _ => None
  end.

(** The delay [SupabaseClient.withRetry] sleeps after a failed [attempt]. *)
Definition supabase_delay (sb : SupabaseClient.t) (attempt : Z) : Z :=
  SupabaseClient.retryDelay sb * 2 ^ (attempt - 1).

(** What a retried load of [operation] settles to. *)
Definition load_outcome (po : PerformanceOptimizer.t) (timeout : option Z)
    (operation : loader_t) : jsval + error :=
  match PerformanceOptimizer.withRetry operation
          {| PerformanceOptimizer.opt_maxRetries := None;
             PerformanceOptimizer.opt_baseDelay := None;
             PerformanceOptimizer.opt_timeout := timeout |} po with
  | Some (r, _) => r
  | None => inr TypeError
  end.

(** The consecutive groups of [size] items ([fuel] bounds their number). *)
Fixpoint chunks {A : Type} (fuel size : nat) (rest : list A) : list (list A) :=
  match fuel with
  | O => []
  | S fuel' =>
      match rest with
      | [] => []
      | _ :: _ => firstn size rest :: chunks fuel' size (skipn size rest)
      end
  end.

(** What one batch contributes to the results of [batchLoad]: the values of
    all its items when every one of them loads, nothing otherwise. *)
Definition collect (po : PerformanceOptimizer.t) (timeout : option Z)
    (loader : jsval → loader_t) (batch : list jsval) : list jsval :=
  match PerformanceOptimizer.promise_all
          (map (λ item, load_outcome po timeout (loader item)) batch) with
  | Some values => values
  | None => []
  end.

(** The value a lookup of [key] at time [now] serves as a hit: the data of
    an entry that is present, not expired, and truthy. *)
Definition served (key : string) (now : Z) (cm : option CacheManager.t)
    : option jsval :=
  match cm with
  | Some c =>
      match CacheManager.cache c !! key with
      | Some e =>
          if CacheManager.isExpired now e then None
          else if truthy (CacheManager.data e) then Some (CacheManager.data e)
          else None
      | None => None
      end
  | None => None
  end.

(** The options with which [networkFirst] calls the executor. *)
Definition network_first_options : PerformanceOptimizer.options :=
  {| PerformanceOptimizer.opt_maxRetries := Some 1;
     PerformanceOptimizer.opt_baseDelay := None;
     PerformanceOptimizer.opt_timeout := None |}.

(** The options of a caller that asks for no retry at all. *)
Definition no_retries : PerformanceOptimizer.options :=
  {| PerformanceOptimizer.opt_maxRetries := Some 0;
     PerformanceOptimizer.opt_baseDelay := None;
     PerformanceOptimizer.opt_timeout := None |}.

(** A cache holding one entry, stored at time 0 with a ttl of 10. *)
Definition one_old_entry : CacheManager.t :=
  CacheManager.set "k" (JStr "old") (Some 10) 0 CacheManager.new.

(** *** Invariant of the interleaving machine *)

Definition promise_of (t : PerformanceOptimizer.task) : nat :=
  match t with
  | PerformanceOptimizer.Starter p _ _ => p
  | PerformanceOptimizer.Joiner p => p
  end.

(** A retried load in the machine: while its loop runs, the loader has been
    invoked once per attempt made; once it has finished, at most
    [maxRetries + 1] times; and a second invocation only ever follows a
    failed first one. *)
Definition load_ok (ld : PerformanceOptimizer.load) : Prop :=
  let m := PerformanceOptimizer.cfg_maxRetries (PerformanceOptimizer.ld_cfg ld) in
  match PerformanceOptimizer.ld_state ld with
  | PerformanceOptimizer.Again a _ =>
      1 ≤ a ≤ Z.max 1 (m + 2) ∧
      PerformanceOptimizer.ld_invocations ld = Z.to_nat (a - 1) ∧
      (2 ≤ a → is_failure (PerformanceOptimizer.ld_loader ld 1))
  | PerformanceOptimizer.Finished _ =>
      (PerformanceOptimizer.ld_invocations ld ≤ Z.to_nat (m + 1))%nat ∧
      (0 ≤ m → (1 ≤ PerformanceOptimizer.ld_invocations ld)%nat) ∧
      ((2 ≤ PerformanceOptimizer.ld_invocations ld)%nat →
       is_failure (PerformanceOptimizer.ld_loader ld 1))
  end.

(** The registry and the awaiting callers agree: a key is registered
    exactly while the caller that started its load has not resumed; a load
    has one such caller; awaited promises exist. *)
Record machine_ok (m : PerformanceOptimizer.machine) : Prop := MachineOk {
  ok_registered : ∀ k p,
    PerformanceOptimizer.activeRequests m !! k = Some p →
    k ≠ ""%string ∧
    ∃ c ttl, PerformanceOptimizer.waiting m !! c
             = Some (PerformanceOptimizer.Starter p (Some k) ttl);
  ok_starter : ∀ c p k ttl,
    PerformanceOptimizer.waiting m !! c
      = Some (PerformanceOptimizer.Starter p (Some k) ttl) →
    PerformanceOptimizer.activeRequests m !! k = Some p;
  ok_one_starter : ∀ c c' p key key' ttl ttl',
    PerformanceOptimizer.waiting m !! c
      = Some (PerformanceOptimizer.Starter p key ttl) →
    PerformanceOptimizer.waiting m !! c'
      = Some (PerformanceOptimizer.Starter p key' ttl') →
    c = c';
  ok_promise : ∀ c t,
    PerformanceOptimizer.waiting m !! c = Some t →
    (promise_of t < length (PerformanceOptimizer.loads m))%nat;
  ok_loads : ∀ p ld,
    PerformanceOptimizer.loads m !! p = Some ld → load_ok ld
}.

(** An event of the phase in which the load [p] registered under key [k]
    is in flight: a pass of that load, or one more caller asking for [k]. *)
Definition joins (p : nat) (k : string) (e : PerformanceOptimizer.event) : Prop :=
  match e with
  | PerformanceOptimizer.Attempt q => q = p
  | PerformanceOptimizer.Call _ _ o _ => PerformanceOptimizer.truthy_key o = Some k
  | PerformanceOptimizer.Resume _ _ => False
  end.

(** The callers that enter [lazyLoad] in a schedule, in order of arrival. *)
Definition callers_of (es : list PerformanceOptimizer.event) : list nat :=
  flat_map (λ e, match e with
                 | PerformanceOptimizer.Call c _ _ _ => [c]
                 | _ => []
                 end) es.

(** No lookup of [k] is a hit, now or later. *)
Definition misses (k : string) (cm : option CacheManager.t) : Prop :=
  match cm with
  | Some c => ∀ now, truthy (CacheManager.get k now c).1 = false
  | None => True
  end.

(** The state of the machine while the load [p], started by caller [c1]
    with loader [l1] under key [k], is in flight and the callers [js] have
    joined it; [budget] is the retry count of the load and [n0] the number
    of loader invocations before it. *)
Record in_flight (k : string) (p c1 : nat) (l1 : loader_t) (ttl1 : option Z)
    (budget : Z) (n0 : nat) (js : list nat) (m : PerformanceOptimizer.machine)
    : Prop := InFlight {
  fl_ok : machine_ok m;
  fl_registered : PerformanceOptimizer.activeRequests m !! k = Some p;
  fl_starter : PerformanceOptimizer.waiting m !! c1
               = Some (PerformanceOptimizer.Starter p (Some k) ttl1);
  fl_one_load : length (PerformanceOptimizer.loads m) = S p;
  fl_load : ∃ ld, PerformanceOptimizer.loads m !! p = Some ld ∧
                  PerformanceOptimizer.ld_loader ld = l1 ∧
                  PerformanceOptimizer.cfg_maxRetries (PerformanceOptimizer.ld_cfg ld)
                  = budget ∧
                  PerformanceOptimizer.invocations (PerformanceOptimizer.m_world m).1
                  = (n0 + PerformanceOptimizer.ld_invocations ld)%nat;
  fl_misses : misses k (PerformanceOptimizer.m_world m).2;
  fl_joiners : ∀ c, c ∈ js →
               PerformanceOptimizer.waiting m !! c = Some (PerformanceOptimizer.Joiner p);
  fl_distinct : NoDup js;
  fl_undelivered : PerformanceOptimizer.delivered m !! c1 = None
}.

(** A command that leaves alone the entry stored under [k] at time [t] with
    ttl [d]: it runs while the entry has not expired when it sweeps or reads
    it, it does not write [k], its pattern does not match [k], and it is not
    [clear()]. *)
Definition spares (k : string) (t d : Z) (c : CacheManager.command * Z) : Prop :=
  match c with
  | (CacheManager.CSet k' _ _, now) => k' ≠ k ∧ now - t ≤ d
  | (CacheManager.CGet k', now) => k' ≠ k ∨ now - t ≤ d
  | (CacheManager.CInvalidate pattern, _) => CacheManager.includes k pattern = false
  | (CacheManager.CClear, _) => False
  end.

(** The sum of a list of durations. *)
Definition total (ds : list Z) : Z := fold_right Z.add 0 ds.

(** The properties of an object that [JSON.stringify] writes: the ones whose
    value does not serialise to [undefined], in the object's order. *)
Definition written (fields : list (string * jsval)) : list (string * jsval) :=
  filter (λ f, is_Some (stringify f.2)) fields.

(** The text [JSON.stringify] writes for one property. *)
Definition member (f : string * jsval) : string :=
  (quote f.1 ++ ":" ++ match stringify f.2 with Some t => t | None => "" end)%string.

(** ** Example inputs *)

(** The decimal numeral of a natural number, as [String(n)] prints it. *)
Definition decimal (n : nat) : string := NilZero.string_of_uint (Nat.to_uint n).

(** [n] writes with distinct keys ["k0"], ["k1"], ... all at time [now] and
    with the default ttl. *)
Definition distinct_sets (n : nat) (now : Z) : list (CacheManager.command * Z) :=
  map (λ i : nat, (CacheManager.CSet ("k" ++ decimal i) (JNum (Z.of_nat i)) None, now))
      (seq 0 n).

(** The loader of the batch scenario: item ["c"] is rejected at every
    attempt, any other item ["x"] loads as ["result-x"]. *)
Definition third_item_fails (item : jsval) : loader_t :=
  λ _, match item with
       | JStr "c" => Reject (JObj [("message", JStr "unavailable")])
       | JStr x => Fulfil (JStr ("result-" ++ x))
       | _ => Fulfil JNull
       end%string.

Definition five_items : list jsval :=
  [JStr "a"; JStr "b"; JStr "c"; JStr "d"; JStr "e"]%string.

Definition batches_of_two : PerformanceOptimizer.batch_options :=
  {| PerformanceOptimizer.batchSize := Some 2;
     PerformanceOptimizer.batchDelay := None;
     PerformanceOptimizer.batchTimeout := None |}.

(** One query written with its two fields in either order. *)
Definition buffet_query : list (string * jsval) :=
  [("category", JStr "buffet"); ("active", JBool true)].

Definition buffet_query_reordered : list (string * jsval) :=
  [("active", JBool true); ("category", JStr "buffet")].

(** A query whose category is not set, written in either order. *)
Definition open_query : list (string * jsval) :=
  [("category", JUndefined); ("active", JBool true)].

Definition open_query_reordered : list (string * jsval) :=
  [("active", JBool true); ("category", JUndefined)].

(** A loader whose first attempt is rejected and whose second delivers the
    falsy value [0]. *)
Definition falsy_on_retry : loader_t :=
  λ a, if a =? 1 then Reject (JObj [("message", JStr "reset")])
       else Fulfil (JNum 0).

(** An operation that is rejected with a reason at its first attempt and
    with [null] at its second. *)
Definition rejects_with_null : loader_t :=
  λ a, if a =? 2 then Reject JNull else Reject (JStr "offline").

(** The remote service answers without an error and without records. *)
Definition empty_answer : ServicesManager.remote :=
  ServicesManager.GetServicesReturns (JObj [("data", JArr []); ("error", JNull)]).

(** The page just after loading: a fresh manager, an empty cache, the
    error handler and the grid element in place. *)
Definition fresh_page : ServicesManager.state :=
  {| ServicesManager.manager := ServicesManager.new;
     ServicesManager.cacheManager := CacheManager.new;
     ServicesManager.errorHandler := true;
     ServicesManager.offlineNotices := 0;
     ServicesManager.servicesGrid := true |}.

(** Three callers ask for the same key while its load is in flight.  The
    loader of the first fails once and then delivers; the loaders the two
    others pass would deliver something else. *)
Definition services_key : PerformanceOptimizer.lazy_options :=
  {| PerformanceOptimizer.cacheKey := Some "services_";
     PerformanceOptimizer.lazyTimeout := None;
     PerformanceOptimizer.cacheTTL := None |}.

Definition flaky_loader : loader_t :=
  λ a, if a =? 1 then Reject (JObj [("message", JStr "reset")])
       else Fulfil (JArr [JStr "buffet"]).

Definition other_loader : loader_t := λ _, Fulfil (JArr [JStr "other"]).

Definition loaded_page : PerformanceOptimizer.machine :=
  PerformanceOptimizer.boot (PerformanceOptimizer.new, Some CacheManager.new).

Definition three_callers : list PerformanceOptimizer.event :=
  [PerformanceOptimizer.Call 1 other_loader services_key 10;
   PerformanceOptimizer.Attempt 0;
   PerformanceOptimizer.Call 2 other_loader services_key 1200;
   PerformanceOptimizer.Attempt 0].

(** Two callers that pass the empty string as their key. *)
Definition empty_key : PerformanceOptimizer.lazy_options :=
  {| PerformanceOptimizer.cacheKey := Some "";
     PerformanceOptimizer.lazyTimeout := None;
     PerformanceOptimizer.cacheTTL := None |}.

Definition two_callers_empty_key : list PerformanceOptimizer.event :=
  [PerformanceOptimizer.Call 0 other_loader empty_key 0;
   PerformanceOptimizer.Call 1 other_loader empty_key 0;
   PerformanceOptimizer.Attempt 0;
   PerformanceOptimizer.Attempt 1;
   PerformanceOptimizer.Resume 0 5;
   PerformanceOptimizer.Resume 1 5].

(** One caller whose loader rejects at every attempt. *)
Definition one_caller_offline : list PerformanceOptimizer.event :=
  [PerformanceOptimizer.Call 0 (λ _, Reject (JObj [("message", JStr "offline")]))
     services_key 0;
   PerformanceOptimizer.Attempt 0; PerformanceOptimizer.Attempt 0;
   PerformanceOptimizer.Attempt 0; PerformanceOptimizer.Attempt 0;
   PerformanceOptimizer.Attempt 0;
   PerformanceOptimizer.Resume 0 7000].

(** ** PerformanceOptimizer: throttle and debounce *)

Module RateLimit.

Section Wrapped.

(** The argument list with which the wrapped function is called. *)
Context {A : Type}.

(** [throttle(func, delay)]: one call of the returned function at clock
    [now], with [lastCall] the variable of the closure.  The call applies
    [func] to its arguments ([Some args]) or does nothing and returns
    [undefined] ([None]). *)
Definition throttle (delay : Z) (args : A) (now : Z) (lastCall : Z)
    : option A * Z :=
  if now - lastCall >=? delay then (Some args, now) else (None, lastCall).

(** A sequence of calls of one throttled function, each with the clock it
    reads: the applications of [func] it makes.  [lastCall] starts at 0. *)
Fixpoint throttle_run (delay : Z) (calls : list (Z * A)) (lastCall : Z)
    : list (Z * A) :=
  match calls with
  | [] => []
  | (now, args) :: rest =>
      match throttle delay args now lastCall with
      | (Some a, lastCall') => (now, a) :: throttle_run delay rest lastCall'
      | (None, lastCall') => throttle_run delay rest lastCall'
      end
  end.

(** [debounce(func, delay)].  The closure holds [timeoutId]; the timer it
    designates, while armed, is kept with the time from which the host may
    run it and the arguments its callback applies [func] to.  [setTimeout]
    treats a negative delay as 0, and a timer never runs early. *)
Record debounced : Type := Debounced {
  timer : option (Z * A);
  applied : list (Z * A)
}.

Inductive debounce_event : Type :=
| Invoke (now : Z) (args : A)
| Expire (now : Z).

(** [Invoke now args] is a call of the returned function: [clearTimeout]
    disarms the timer and [setTimeout] arms a new one.  [Expire now] is the
    host running the armed timer's callback at clock [now]. *)
Definition debounce (delay : Z) (e : debounce_event) (s : debounced)
    : option debounced :=
  match e with
  | Invoke now args =>
      Some {| timer := Some (now + Z.max delay 0, args); applied := applied s |}
  | Expire now =>
      match timer s with
      | Some (due, args) =>
          if due <=? now
          then Some {| timer := None; applied := applied s ++ [(now, args)] |}
          else None
      | None => None
      end
  end.

Fixpoint debounce_run (delay : Z) (es : list debounce_event) (s : debounced)
    : option debounced :=
  match es with
  | [] => Some s
  | e :: rest =>
      match debounce delay e s with
      | Some s' => debounce_run delay rest s'
      | None => None
      end
  end.

Definition is_invoke (e : debounce_event) : Prop :=
  match e with Invoke _ _ => True | Expire _ => False end.

(** The calls of the returned function in a schedule, in order. *)
Definition invokes (es : list debounce_event) : list (Z * A) :=
  flat_map (λ e, match e with Invoke now args => [(now, args)] | Expire _ => [] end) es.

(** The debounced function just after [debounce] has returned it. *)
Definition debounce_new : debounced := {| timer := None; applied := [] |}.

End Wrapped.

Arguments debounced : clear implicits.
Arguments debounce_event : clear implicits.

End RateLimit.

(** What a strategy called with [key] may leave in the cache [c] it found:
    every entry of the cache afterwards was already there, or it lies under
    [key] and was written at [t_write] with time-to-live [ttl] and truthy
    data. *)
Definition footprint (key : string) (t_write ttl : Z)
    (c : CacheManager.t) (cm' : option CacheManager.t) : Prop :=
  ∃ c', cm' = Some c' ∧
    CacheManager.defaultTTL c' = CacheManager.defaultTTL c ∧
    CacheManager.maxSize c' = CacheManager.maxSize c ∧
    ∀ k e, CacheManager.cache c' !! k = Some e →
      CacheManager.cache c !! k = Some e ∨
      (k = key ∧ CacheManager.timestamp e = t_write ∧
       CacheManager.ttl e = ttl ∧ truthy (CacheManager.data e) = true).

(** ** SupabaseClient: the query cache and the table methods *)

Module SupabaseQueries.

(** The object literal [{ data, timestamp }] stored by [setCache]. *)
Record cached : Type := Cached { data : jsval; timestamp : Z }.

(** The client with its [cache] map and [cacheExpiry]; [executor] holds the
    fields that [withRetry] works on. *)
Record t : Type := Make {
  executor : SupabaseClient.t;
  cache : gmap string cached;
  cacheExpiry : Z
}.

(** [constructor()] *)
Definition new : t :=
  {| executor := SupabaseClient.new; cache := ∅; cacheExpiry := 5 * 60 * 1000 |}.

Definition with_cache (c : t) (m : gmap string cached) : t :=
  {| executor := executor c; cache := m; cacheExpiry := cacheExpiry c |}.

Definition with_executor (c : t) (sb : SupabaseClient.t) : t :=
  {| executor := sb; cache := cache c; cacheExpiry := cacheExpiry c |}.

(** [setCache(key, data)] *)
Definition setCache (key : string) (v : jsval) (now : Z) (c : t) : t :=
  with_cache c (<[ key := {| data := v; timestamp := now |} ]> (cache c)).

(** [getCache(key)]: the data, or [null] when there is no entry or the
    entry is older than [cacheExpiry], in which case it is deleted. *)
Definition getCache (key : string) (now : Z) (c : t) : jsval * t :=
  match cache c !! key with
  | None => (JNull, c)
  | Some e =>
      if now - timestamp e >? cacheExpiry c
      then (JNull, with_cache c (delete key (cache c)))
      else (data e, c)
  end.

(** [clearCacheByPattern(pattern)] *)
Definition clearCacheByPattern (pattern : string) (c : t) : t :=
  with_cache c (filter (λ kv, CacheManager.includes kv.1 pattern = false) (cache c)).

(** [clearAllCache()] *)
Definition clearAllCache (c : t) : t := with_cache c ∅.

(** The object [{ data: cached, error: null }] returned on a cache hit. *)
Definition from_cache (v : jsval) : jsval :=
  JObj [("data"%string, v); ("error"%string, JNull)].

(** The body shared by [getServices], [getPackages], [getSpacePhotos] and
    [getFeaturedVideos]: the lookup under the key of the table and its
    parameters when [useCache] is set, the retried query otherwise, whose
    result is stored when [result.data] is truthy.  [operation] is the
    query the method hands to [withRetry]; [t_read] is the clock at the
    lookup and [t_write] the clock when the query has returned. *)
Definition cached_select (table : string) (params : list (string * jsval))
    (context : string) (useCache : bool) (operation : loader_t)
    (t_read t_write : Z) (c : t) : option (SupabaseClient.completion * t) :=
  let cacheKey := getCacheKey table params in
  let '(hit, c1) := if useCache then getCache cacheKey t_read c else (JNull, c) in
  if truthy hit then Some (SupabaseClient.Return (from_cache hit), c1)
  else
    match SupabaseClient.withRetry operation context (executor c1) with
    | None => None
    | Some (SupabaseClient.Return result, sb) =>
        match get_prop result "data" with
        | None => Some (SupabaseClient.Throw TypeError, with_executor c1 sb)
        | Some d =>
            Some (SupabaseClient.Return result,
                  if truthy d then setCache cacheKey d t_write (with_executor c1 sb)
                  else with_executor c1 sb)
        end
    | Some (outcome, sb) => Some (outcome, with_executor c1 sb)
    end.

(** [getServices(category = null, useCache = true)] *)
Definition getServices (category : jsval) (useCache : bool)
    : loader_t → Z → Z → t → option (SupabaseClient.completion * t) :=
  cached_select "services" [("category"%string, category)] "buscar serviços" useCache.

(** [getPackages(eventType = null, useCache = true)] *)
Definition getPackages (eventType : jsval) (useCache : bool)
    : loader_t → Z → Z → t → option (SupabaseClient.completion * t) :=
  cached_select "packages" [("eventType"%string, eventType)] "buscar pacotes" useCache.

(** [getSpacePhotos(useCache = true)] *)
Definition getSpacePhotos (useCache : bool)
    : loader_t → Z → Z → t → option (SupabaseClient.completion * t) :=
  cached_select "space_photos" [] "buscar fotos do espaço" useCache.

(** [getFeaturedVideos(useCache = true)] *)
Definition getFeaturedVideos (useCache : bool)
    : loader_t → Z → Z → t → option (SupabaseClient.completion * t) :=
  cached_select "featured_videos" [] "buscar vídeos em destaque" useCache.

(** A method that only runs its operation through [withRetry]:
    [createService], [createPackage], [createQuote], [getQuotes]. *)
Definition retried (context : string) (operation : loader_t) (c : t)
    : option (SupabaseClient.completion * t) :=
  match SupabaseClient.withRetry operation context (executor c) with
  | None => None
  | Some (outcome, sb) => Some (outcome, with_executor c sb)
  end.

(** A method that clears the cached lists of its table once the retried
    operation has returned: [updateService], [deleteService],
    [updatePackage]. *)
Definition retried_then_clear (context pattern : string) (operation : loader_t)
    (c : t) : option (SupabaseClient.completion * t) :=
  match SupabaseClient.withRetry operation context (executor c) with
  | None => None
  | Some (SupabaseClient.Return result, sb) =>
      Some (SupabaseClient.Return result,
            clearCacheByPattern pattern (with_executor c sb))
  | Some (outcome, sb) => Some (outcome, with_executor c sb)
  end.

(** [createService(serviceData)] *)
Definition createService : loader_t → t → option (SupabaseClient.completion * t) :=
  retried "criar serviço".

(** [updateService(id, serviceData)] *)
Definition updateService : loader_t → t → option (SupabaseClient.completion * t) :=
  retried_then_clear "atualizar serviço" "services".

(** [deleteService(id)] *)
Definition deleteService : loader_t → t → option (SupabaseClient.completion * t) :=
  retried_then_clear "deletar serviço" "services".

(** [updatePackage(id, packageData)] *)
Definition updatePackage : loader_t → t → option (SupabaseClient.completion * t) :=
  retried_then_clear "atualizar pacote" "packages".


End SupabaseQueries.

(** ** MonitoringSystem *)

(** The [n] newest elements of a list that is kept oldest first. *)
Definition newest {A : Type} (n : nat) (l : list A) : list A :=
  skipn (length l - n) l.

Module MonitoringSystem.

(** A log entry.  [timestamp] is the clock reading whose ISO rendering the
    entry stores and which [new Date(log.timestamp).getTime()] reads back;
    the page constants [url] and [userAgent] are left out. *)
Record logEntry : Type := LogEntry {
  timestamp : Z;
  level : string;
  category : string;
  message : string;
  data : jsval
}.

(** [this.config]; the three [enable...] switches only drive the console
    and the copy of the log in [localStorage]. *)
Record config_t : Type := Config { maxLogs : nat; logLevel : string }.

(** [this.metrics] without [pageLoad], which the page-load listener sets. *)
Record metrics_t : Type := Metrics {
  userInteractions : nat;
  errors : nat;
  apiCalls : nat;
  cacheHits : nat;
  performanceMarks : gmap string Z
}.

Record t : Type := Make {
  logs : list logEntry;
  metrics : metrics_t;
  config : config_t
}.

(** [constructor()], on a page that has no stored log to load. *)
Definition new : t :=
  {| logs := [];
     metrics := {| userInteractions := 0; errors := 0; apiCalls := 0;
                   cacheHits := 0; performanceMarks := ∅ |};
     config := {| maxLogs := 1000; logLevel := "info" |} |}.

(** [this.logLevels[name]]; [None] is a value that is not a number. *)
Definition logLevels (name : string) : option Z :=
  if String.eqb name "debug" then Some 0
  else if String.eqb name "info" then Some 1
  else if String.eqb name "warn" then Some 2
  else if String.eqb name "error" then Some 3
  else None.

(** [a < b] on such values: false unless both are numbers. *)
Definition less (a b : option Z) : bool :=
  match a, b with
  | Some x, Some y => x <? y
  | _, _ => false
  end.

Definition with_logs (ms : t) (l : list logEntry) : t :=
  {| logs := l; metrics := metrics ms; config := config ms |}.

Definition with_metrics (ms : t) (m : metrics_t) : t :=
  {| logs := logs ms; metrics := m; config := config ms |}.

Definition count_error (m : metrics_t) : metrics_t :=
  {| userInteractions := userInteractions m; errors := S (errors m);
     apiCalls := apiCalls m; cacheHits := cacheHits m;
     performanceMarks := performanceMarks m |}.

Definition count_cacheHit (m : metrics_t) : metrics_t :=
  {| userInteractions := userInteractions m; errors := errors m;
     apiCalls := apiCalls m; cacheHits := S (cacheHits m);
     performanceMarks := performanceMarks m |}.

Definition count_interaction (m : metrics_t) : metrics_t :=
  {| userInteractions := S (userInteractions m); errors := errors m;
     apiCalls := apiCalls m; cacheHits := cacheHits m;
     performanceMarks := performanceMarks m |}.

Definition with_marks (m : metrics_t) (marks : gmap string Z) : metrics_t :=
  {| userInteractions := userInteractions m; errors := errors m;
     apiCalls := apiCalls m; cacheHits := cacheHits m;
     performanceMarks := marks |}.

Section Host.

(** [String.prototype.toUpperCase] of the host. *)
Variable toUpperCase : string → string.

(** [log(level, category, message, data = null)] at clock [now]. *)
Definition log (lvl cat msg : string) (d : jsval) (now : Z) (ms : t) : t :=
  if less (logLevels lvl) (logLevels (logLevel (config ms))) then ms
  else
    let pushed :=
      logs ms ++ [{| timestamp := now; level := toUpperCase lvl;
                     category := cat; message := msg; data := d |}] in
    {| logs := if (maxLogs (config ms) <? length pushed)%nat
               then tail pushed else pushed;
       metrics := if String.eqb lvl "error" then count_error (metrics ms)
                  else metrics ms;
       config := config ms |}.

(** [logError(type, message, details = null)]; [stack] is the value of
    [new Error().stack]. *)
Definition logError (type msg : string) (details stack : jsval) (now : Z)
    (ms : t) : t :=
  log "error" ("Error:" ++ type) msg
    (JObj [("errorType", JStr type); ("details", details); ("stack", stack)]%string)
    now ms.

(** [logCacheAccess(key, hit)] *)
Definition logCacheAccess (key : string) (hit : bool) (now : Z) (ms : t) : t :=
  log "debug" "Cache" (if hit then "Cache hit" else "Cache miss")
    (JObj [("key", JStr key); ("hit", JBool hit)]%string) now
    (if hit then with_metrics ms (count_cacheHit (metrics ms)) else ms).

(** [trackInteraction(type, data)] *)
Definition trackInteraction (type : string) (d : jsval) (now : Z) (ms : t) : t :=
  log "debug" "Interaction" ("User " ++ type) d now
    (with_metrics ms (count_interaction (metrics ms))).

(** [startPerformanceMark(name)] *)
Definition startPerformanceMark (name : string) (now : Z) (ms : t) : t :=
  with_metrics ms
    (with_marks (metrics ms) (<[ name := now ]> (performanceMarks (metrics ms)))).

(** [endPerformanceMark(name)]: the duration returned and the state
    afterwards.  [now] is the clock read for the duration, [now_log] the
    clock of the log entry.  The guard [if (!startTime)] takes a missing
    mark and a mark set at clock 0 alike. *)
Definition endPerformanceMark (name : string) (now now_log : Z) (ms : t) : Z * t :=
  match performanceMarks (metrics ms) !! name with
  | Some startTime =>
      if startTime =? 0 then
        (0, log "warn" "Performance" ("Marca de início não encontrada: " ++ name)
              JNull now_log ms)
      else
        (now - startTime,
         log "info" "Performance" ("Operação " ++ name ++ " concluída")
           (JObj [("duration", JNum (now - startTime)); ("name", JStr name)]%string)
           now_log
           (with_metrics ms
              (with_marks (metrics ms) (delete name (performanceMarks (metrics ms))))))
  | None =>
      (0, log "warn" "Performance" ("Marca de início não encontrada: " ++ name)
            JNull now_log ms)
  end.

(** [cleanOldLogs(maxAge = 24 * 60 * 60 * 1000)] *)
Definition cleanOldLogs (maxAge : option Z) (now now_log : Z) (ms : t) : t :=
  let cutoff := now - default (24 * 60 * 60 * 1000) maxAge in
  let kept := List.filter (λ e, cutoff <? timestamp e) (logs ms) in
  let removed := (length (logs ms) - length kept)%nat in
  if (0 <? removed)%nat then
    log "info" "Maintenance" (decimal removed ++ " logs antigos removidos")
      JNull now_log (with_logs ms kept)
  else with_logs ms kept.

(** One call of [log] with its arguments and clock. *)
Record log_call : Type := LogCall {
  call_level : string; call_category : string; call_message : string;
  call_data : jsval; call_now : Z
}.

Definition log_run (calls : list log_call) (ms : t) : t :=
  fold_left (λ s c, log (call_level c) (call_category c) (call_message c)
                      (call_data c) (call_now c) s) calls ms.

(** The entries that a run of calls appends under the level configured in
    [cfg]: those that the level test lets through. *)
Definition accepted (cfg : config_t) (calls : list log_call) : list logEntry :=
  map (λ c, {| timestamp := call_now c; level := toUpperCase (call_level c);
               category := call_category c; message := call_message c;
               data := call_data c |})
      (List.filter (λ c, negb (less (logLevels (call_level c))
                                    (logLevels (logLevel cfg)))) calls).

End Host.

End MonitoringSystem.

(** ** ErrorHandler *)

Module ErrorHandler.

(** The [errorInfo] object as the three handlers build it. *)
Record errorInfo : Type := ErrorInfo {
  type : string;
  message : string;
  context : string;
  timestamp : string;
  userMessage : string
}.

Record t : Type := Make { errorLog : list errorInfo; maxLogSize : nat }.

(** [constructor()] *)
Definition new : t := {| errorLog := []; maxLogSize := 50 |}.

(** The handler together with the global [window.monitoringSystem], which
    is absent on a page that does not load the monitoring script. *)
Definition world : Type := t * option MonitoringSystem.t.

(** [logError(errorInfo)]; [stack] and [now] are the stack text and the
    clock that the monitoring system reads when it records the error. *)
Definition logError (toUpperCase : string → string) (e : errorInfo)
    (stack : jsval) (now : Z) (w : world) : world :=
  let '(h, monitoring) := w in
  let pushed := errorLog h ++ [e] in
  ({| errorLog := if (maxLogSize h <? length pushed)%nat then tail pushed else pushed;
      maxLogSize := maxLogSize h |},
   match monitoring with
   | Some ms =>
       Some (MonitoringSystem.logError toUpperCase (type e)
               (context e ++ ": " ++ message e)
               (JObj [("timestamp", JStr (timestamp e));
                      ("userMessage", JStr (userMessage e))]%string)
               stack now ms)
   | None => None
   end).

(** [getErrorLog(limit = 10)], that is [this.errorLog.slice(-limit)]. *)
Definition getErrorLog (limit : option Z) (h : t) : list errorInfo :=
  PerformanceOptimizer.slice (errorLog h) (- default 10 limit)
    (Z.of_nat (length (errorLog h))).

(** [clearErrorLog()] *)
Definition clearErrorLog (h : t) : t :=
  {| errorLog := []; maxLogSize := maxLogSize h |}.

(** The call of [MonitoringSystem.log] that one [logError] ends in. *)
Definition monitoring_call (c : errorInfo * jsval * Z) : MonitoringSystem.log_call :=
  {| MonitoringSystem.call_level := "error";
     MonitoringSystem.call_category := "Error:" ++ type c.1.1;
     MonitoringSystem.call_message := context c.1.1 ++ ": " ++ message c.1.1;
     MonitoringSystem.call_data :=
       JObj [("errorType", JStr (type c.1.1));
             ("details", JObj [("timestamp", JStr (timestamp c.1.1));
                               ("userMessage", JStr (userMessage c.1.1))]);
             ("stack", c.1.2)]%string;
     MonitoringSystem.call_now := c.2 |}.

(** A run of [logError] calls. *)
Definition logError_run (toUpperCase : string → string)
    (calls : list (errorInfo * jsval * Z)) (w : world) : world :=
  fold_left (λ s c, logError toUpperCase c.1.1 c.1.2 c.2 s) calls w.

End ErrorHandler.

(** ** QuotesManager *)

Module QuotesManager.

(** The manager object.  [localSaves] is not a field of the JavaScript
    object: it records the quotes handed to [saveLocallyAsFallback], oldest
    first. *)
Record t : Type := Make {
  currentQuote : jsval;
  isSubmitting : bool;
  submissionHistory : list jsval;
  localSaves : list jsval
}.

(** [constructor()] *)
Definition new : t :=
  {| currentQuote := JNull; isSubmitting := false; submissionHistory := [];
     localSaves := [] |}.

(** [addToHistory(quoteData)]: [unshift], then [slice(0, 10)] when the
    history has grown beyond ten. *)
Definition addToHistory (quoteData : jsval) (qm : t) : t :=
  let history := quoteData :: submissionHistory qm in
  {| currentQuote := currentQuote qm; isSubmitting := isSubmitting qm;
     submissionHistory :=
       if (10 <? length history)%nat
       then PerformanceOptimizer.slice history 0 10 else history;
     localSaves := localSaves qm |}.

(** The object [submitToSupabase] returns: [{ success: true, data }], or
    [{ success: false, error }] with the message of [e]. *)
Inductive submit_result : Type :=
| Success (data : jsval)
| Failure (e : error).

(** How a call of [submitToSupabase] ends. *)
Inductive outcome : Type :=
| Returns (r : submit_result)
| Throws (e : error)
| Hangs.


(** The manager and the global [window.supabaseClient]. *)
Definition world : Type := t * option SupabaseQueries.t.





End QuotesManager.

(** ** GalleryManager: the photo viewer *)

Module GalleryManager.

Record t : Type := Make { photos : list jsval; currentPhotoIndex : Z }.

Definition with_index (g : t) (i : Z) : t :=
  {| photos := photos g; currentPhotoIndex := i |}.

(** [showPhotoViewer(photoIndex)] *)
Definition showPhotoViewer (photoIndex : Z) (g : t) : t := with_index g photoIndex.

(** [previousPhoto()] *)
Definition previousPhoto (g : t) : t :=
  if currentPhotoIndex g >? 0 then with_index g (currentPhotoIndex g - 1) else g.

(** [nextPhoto()] *)
Definition nextPhoto (g : t) : t :=
  if currentPhotoIndex g <? Z.of_nat (length (photos g)) - 1
  then with_index g (currentPhotoIndex g + 1) else g.

(** The two arrow keys of [handleKeyNavigation] while the viewer is open. *)
Inductive arrow : Type := ArrowLeft | ArrowRight.

Definition navigate (keys : list arrow) (g : t) : t :=
  fold_left (λ s k, match k with
                    | ArrowLeft => previousPhoto s
                    | ArrowRight => nextPhoto s
                    end) keys g.

End GalleryManager.

(** ** Reading a JSON string literal back *)

(** The value of a hexadecimal digit as [JSON.stringify] writes it. *)
Definition hex_value (c : ascii) : nat :=
  match String.index 0 (String c EmptyString) "0123456789abcdef" with
  | Some n => n
  | None => 0
  end.

(** The first character that the text of a string literal denotes, and the
    text after it; [None] at the closing quote and on text that
    [escape] does not produce. *)
Definition unescape_head (s : string) : option (ascii * string) :=
  match s with
  | EmptyString => None
  | String c rest =>
      if (nat_of_ascii c =? 92)%nat then
        match rest with
        | EmptyString => None
        | String e rest' =>
            let n := nat_of_ascii e in
            if (n =? 34)%nat then Some (e, rest')
            else if (n =? 92)%nat then Some (e, rest')
            else if (n =? 98)%nat then Some (ascii_of_nat 8, rest')
            else if (n =? 116)%nat then Some (ascii_of_nat 9, rest')
            else if (n =? 110)%nat then Some (ascii_of_nat 10, rest')
            else if (n =? 102)%nat then Some (ascii_of_nat 12, rest')
            else if (n =? 114)%nat then Some (ascii_of_nat 13, rest')
            else if (n =? 117)%nat then
              match rest' with
              | String _ (String _ (String h (String l rest''))) =>
                  Some (ascii_of_nat (16 * hex_value h + hex_value l), rest'')
              | _ => None
              end
            else None
        end
      else if (nat_of_ascii c =? 34)%nat then None
      else Some (c, rest)
  end.

(** The value of a [category] or [eventType] argument: [null] or a string. *)
Definition name_or_null (name : option string) : jsval :=
  match name with
  | Some s => JStr s
  | None => JNull
  end.

(** ** Example inputs of the further properties *)

(** A query that the remote service answers at every attempt. *)
Definition answering (result : jsval) : loader_t := λ _, Fulfil result.

(** A query that fails at every attempt. *)
Definition unreachable : loader_t :=
  λ _, Reject (JObj [("message", JStr "Failed to fetch")]).

(** The answer of the [services] table with two rows. *)
Definition two_services : jsval :=
  JObj [("data", JArr [JStr "Buffet Completo"; JStr "Bolo Personalizado"]);
        ("error", JNull)].

(** The client after a first [getServices()] has cached that answer. *)
Definition client_with_services : SupabaseQueries.t :=
  match SupabaseQueries.getServices JNull true (answering two_services) 0 40
          SupabaseQueries.new with
  | Some (_, c) => c
  | None => SupabaseQueries.new
  end.

(** A record of the [services] table, and the answer that carries it. *)
Definition buffet_record : jsval :=
  JObj [("id", JStr "1"); ("name", JStr "Buffet Completo");
        ("description", JStr "Salgados, doces e bebidas");
        ("price_per_person", JNum 45); ("category", JStr "buffet");
        ("active", JBool true)].

Definition one_service_answer : ServicesManager.remote :=
  ServicesManager.GetServicesReturns
    (JObj [("data", JArr [buffet_record]); ("error", JNull)]).

(** A page whose cache holds a list of services under the key of the
    category [doces]. *)
Definition page_with_cached_list : ServicesManager.state :=
  {| ServicesManager.manager := ServicesManager.new;
     ServicesManager.cacheManager :=
       CacheManager.set (generateKey "services" [("category"%string, JStr "doces")])
         (JArr [buffet_record]) None 0 CacheManager.new;
     ServicesManager.errorHandler := true;
     ServicesManager.offlineNotices := 0;
     ServicesManager.servicesGrid := true |}.

(** [toUpperCase] on the letters a to z. *)
Definition upper_ascii (s : string) : string :=
  string_of_list_ascii
    (map (λ c, let n := nat_of_ascii c in
               if (97 <=? n)%nat && (n <=? 122)%nat then ascii_of_nat (n - 32) else c)
         (list_ascii_of_string s)).

(** An error as [handleNetworkError] records it. *)
Definition network_error (n : nat) : ErrorHandler.errorInfo * jsval * Z :=
  ({| ErrorHandler.type := "network";
      ErrorHandler.message := "Failed to fetch";
      ErrorHandler.context := "buscar serviços";
      ErrorHandler.timestamp := "2024-01-01T00:00:0" ++ decimal n ++ ".000Z";
      ErrorHandler.userMessage := "Problema de conexão. Tentando novamente..." |},
   JUndefined, Z.of_nat n).

(** A handler whose log holds at most two entries. *)
Definition small_handler : ErrorHandler.t :=
  {| ErrorHandler.errorLog := []; ErrorHandler.maxLogSize := 2 |}.

(** A monitoring system that keeps two entries. *)
Definition small_monitor : MonitoringSystem.t :=
  {| MonitoringSystem.logs := [];
     MonitoringSystem.metrics := MonitoringSystem.metrics MonitoringSystem.new;
     MonitoringSystem.config :=
       {| MonitoringSystem.maxLogs := 2; MonitoringSystem.logLevel := "info" |} |}.

Definition three_log_calls : list MonitoringSystem.log_call :=
  [ {| MonitoringSystem.call_level := "info";
       MonitoringSystem.call_category := "Performance";
       MonitoringSystem.call_message := "first";
       MonitoringSystem.call_data := JNull; MonitoringSystem.call_now := 1 |};
    {| MonitoringSystem.call_level := "debug";
       MonitoringSystem.call_category := "Cache";
       MonitoringSystem.call_message := "Cache hit";
       MonitoringSystem.call_data := JNull; MonitoringSystem.call_now := 2 |};
    {| MonitoringSystem.call_level := "error";
       MonitoringSystem.call_category := "API";
       MonitoringSystem.call_message := "second";
       MonitoringSystem.call_data := JNull; MonitoringSystem.call_now := 3 |};
    {| MonitoringSystem.call_level := "warn";
       MonitoringSystem.call_category := "Memory";
       MonitoringSystem.call_message := "third";
       MonitoringSystem.call_data := JNull; MonitoringSystem.call_now := 4 |} ].

(** A gallery of three photos with the viewer on the second. *)
Definition three_photos : GalleryManager.t :=
  {| GalleryManager.photos := [JStr "a.jpg"; JStr "b.jpg"; JStr "c.jpg"];
     GalleryManager.currentPhotoIndex := 1 |}.

(** * Properties *)

Section CacheManagerFacts.
Import CacheManager.

Lemma isExpired_false now e : isExpired now e = false ↔ now - timestamp e ≤ ttl e.
Proof. unfold isExpired. rewrite Z.gtb_ltb, Z.ltb_ge. done. Qed.

Lemma isExpired_true now e : isExpired now e = true ↔ ttl e < now - timestamp e.
Proof. unfold isExpired. rewrite Z.gtb_ltb, Z.ltb_lt. done. Qed.

Lemma lookup_set_eq cm k v d t :
  cache (set k v d t cm) !! k =
    Some {| data := v; timestamp := t; ttl := default (defaultTTL cm) d |}.
Proof. unfold set. simpl. by rewrite lookup_insert_eq. Qed.

(** C1, as stated, fails at the boundary: an entry stored at time 0 with a
    ttl of 10 is still returned by a read at time 10 = 0 + 10, where the
    claim promises [null]. *)
Lemma get_at_expiry_instant_still_hits :
  (get "k" 10 (set "k" (JNum 7) (Some 10) 0 new)).1 = JNum 7 ∧
  ¬ ((0 ≤ 10 ∧ 10 ≥ 0 + 10) →
     (get "k" 10 (set "k" (JNum 7) (Some 10) 0 new)).1 = JNull).
Proof.
  split; [reflexivity|]. intros H.
  assert (Hr : (get "k" 10 (set "k" (JNum 7) (Some 10) 0 new)).1 = JNull)
    by (apply H; lia).
  vm_compute in Hr. discriminate.
Qed.

(** C1 (amended): the expiry test is strict.  If [set(k, v, d)] runs at time
    [t], a read of [k] at time [t'] with [t <= t' <= t + d] returns [v] and
    leaves the cache as it is; a read at [t' > t + d] returns [null] and
    deletes the entry.  An omitted [d] is [defaultTTL]. *)
Theorem get_after_set (cm : t) (k : string) (v : jsval) (d : option Z) (t t' : Z) :
  t ≤ t' →
  let ttl := default (defaultTTL cm) d in
  let cm1 := set k v d t cm in
  (t' ≤ t + ttl → get k t' cm1 = (v, cm1)) ∧
  (t + ttl < t' →
     get k t' cm1 = (JNull, with_cache cm1 (delete k (cache cm1))) ∧
     cache (get k t' cm1).2 !! k = None).
Proof.
  intros Ht ttl cm1. unfold get. subst cm1. rewrite lookup_set_eq. fold ttl.
  split; intros Hd.
  - assert (E : isExpired t' {| data := v; timestamp := t; ttl := ttl |} = false)
      by (apply isExpired_false; simpl; lia).
    by rewrite E.
  - assert (E : isExpired t' {| data := v; timestamp := t; ttl := ttl |} = true)
      by (apply isExpired_true; simpl; lia).
    rewrite E. split; [done|]. simpl. apply lookup_delete_eq.
Qed.

Lemma get_after_set_witness :
  get "services_" 300000 (set "services_" (JStr "v") None 0 new)
    = (JStr "v", set "services_" (JStr "v") None 0 new) ∧
  (get "services_" 300001 (set "services_" (JStr "v") None 0 new)).1 = JNull.
Proof.
  pose proof (get_after_set new "services_" (JStr "v") None 0 300000) as H1.
  pose proof (get_after_set new "services_" (JStr "v") None 0 300001) as H2.
  simpl in H1, H2. split.
  - apply H1; lia.
  - assert (300001 > 0) as G by lia.
    destruct H2 as [_ H2]; [lia|]. destruct H2 as [H2 _]; [lia|]. by rewrite H2.
Defined.

Lemma cleanup_no_expired now cm k e :
  cache (cleanup now cm) !! k = Some e → isExpired now e = false.
Proof.
  unfold cleanup. simpl. intros H.
  apply map_lookup_filter_Some in H as [_ H]. exact H.
Qed.

Lemma cleanup_keeps_valid now cm k e :
  cache cm !! k = Some e → isExpired now e = false →
  cache (cleanup now cm) !! k = Some e.
Proof.
  unfold cleanup. simpl. intros H1 H2. by apply map_lookup_filter_Some.
Qed.

Lemma cleanup_size now cm : (size (cache (cleanup now cm)) ≤ size (cache cm))%nat.
Proof. unfold cleanup. simpl. apply map_subseteq_size, map_filter_subseteq. Qed.

(** When nothing has expired the sweep removes nothing. *)
Lemma cleanup_all_valid now cm :
  (∀ k e, cache cm !! k = Some e → isExpired now e = false) →
  cache (cleanup now cm) = cache cm.
Proof.
  intros H. unfold cleanup. simpl. apply map_filter_id.
  intros k e Hk. simpl. eauto.
Qed.

(** [set] has no eviction step: on a full cache of unexpired entries a write
    under a fresh key grows the cache by one, past [maxSize]. *)
Lemma set_full_cache_grows k v d now cm :
  (maxSize cm ≤ size (cache cm))%nat →
  (∀ k' e, cache cm !! k' = Some e → isExpired now e = false) →
  cache cm !! k = None →
  size (cache (set k v d now cm)) = S (size (cache cm)).
Proof.
  intros Hfull Hvalid Hfresh. unfold set.
  destruct (decide _) as [_|Hn]; [|lia].
  cbn [with_cache cache]. rewrite cleanup_all_valid by done.
  by apply map_size_insert_None.
Qed.

(** C4 at its failing input: 101 writes under distinct keys, all at time 0
    with the default ttl, starting from the empty cache, leave 101 entries
    in a cache whose [maxSize] is 100. *)
Theorem capacity_exceeded_after_101_sets :
  let cm := run (distinct_sets 101 0) new in
  size (cache cm) = 101%nat ∧ maxSize cm = 100%nat ∧
  ¬ (size (cache cm) ≤ maxSize cm)%nat.
Proof.
  assert (E : size (cache (run (distinct_sets 101 0) new)) = 101%nat)
    by (vm_compute; reflexivity).
  assert (M : maxSize (run (distinct_sets 101 0) new) = 100%nat)
    by (vm_compute; reflexivity).
  cbv zeta. rewrite E, M. repeat split; lia.
Qed.

(** [includes] is the substring test: it holds exactly when the pattern
    occurs at some position of the key. *)
Lemma includes_substring key pattern :
  includes key pattern = true ↔
  ∃ m, substring m (String.length pattern) key = pattern.
Proof.
  unfold includes. destruct (index 0 pattern key) as [m|] eqn:E.
  - split; [|done]. intros _. exists m. by apply (index_correct1 0).
  - split; [done|]. intros [m Hm]. destruct pattern as [|c pattern].
    + apply index_correct4 in E. lia.
    + exfalso. by apply (index_correct3 0 m _ _ E); [|lia|].
Qed.

(** Pattern invalidation: after [invalidate(pattern)] no key that contains
    the pattern is left (so [get] misses on it), and every other key keeps
    its entry. *)
Theorem invalidate_removes_matching_keys (pattern : string) (cm : t) (k : string) :
  (includes k pattern = true →
   cache (invalidate pattern cm) !! k = None ∧
   ∀ now, (get k now (invalidate pattern cm)).1 = JNull) ∧
  (includes k pattern = false →
   cache (invalidate pattern cm) !! k = cache cm !! k).
Proof.
  unfold invalidate. simpl. split; intros H.
  - assert (E : filter (λ kv : string * entry, includes kv.1 pattern = false) (cache cm) !! k
                = None).
    { apply map_lookup_filter_None. right. intros e _. simpl. congruence. }
    split; [exact E|]. intros now. unfold get. simpl. by rewrite E.
  - destruct (cache cm !! k) as [e|] eqn:E.
    + by apply map_lookup_filter_Some.
    + apply map_lookup_filter_None. by left.
Qed.

Lemma invalidate_removes_matching_keys_witness :
  cache (invalidate "services"
           (set "packages_" (JNum 2) None 0 (set "services_" (JNum 1) None 0 new)))
    !! "services_" = None ∧
  cache (invalidate "services"
           (set "packages_" (JNum 2) None 0 (set "services_" (JNum 1) None 0 new)))
    !! "packages_"
  = cache (set "packages_" (JNum 2) None 0 (set "services_" (JNum 1) None 0 new))
    !! "packages_".
Proof.
  pose proof (invalidate_removes_matching_keys "services"
                (set "packages_" (JNum 2) None 0 (set "services_" (JNum 1) None 0 new))
                "services_") as [H1 _].
  pose proof (invalidate_removes_matching_keys "services"
                (set "packages_" (JNum 2) None 0 (set "services_" (JNum 1) None 0 new))
                "packages_") as [_ H2].
  split; [apply H1; reflexivity | apply H2; reflexivity].
Defined.

Lemma exec_spares k e c cm :
  spares k (timestamp e) (ttl e) c →
  cache cm !! k = Some e →
  cache (exec c cm) !! k = Some e.
Proof.
  destruct c as [[k' v' d'|k'|pattern|] now]; simpl; intros Hs Hk.
  - destruct Hs as [Hne Hnow]. unfold set.
    assert (Hv : isExpired now e = false) by (by apply isExpired_false).
    destruct (decide _); simpl; rewrite lookup_insert_ne by done;
      [by apply map_lookup_filter_Some | done].
  - unfold get. destruct (cache cm !! k') as [e'|] eqn:E; [|done].
    destruct (isExpired now e') eqn:X; [|done]. simpl.
    destruct (decide (k' = k)) as [->|Hne].
    + destruct Hs as [Hs|Hs]; [done|].
      assert (e' = e) as -> by congruence.
      apply isExpired_false in Hs. congruence.
    + by rewrite lookup_delete_ne.
  - by apply map_lookup_filter_Some.
  - done.
Qed.

(** The read/write contract holds across other traffic: after
    [set(k, v, d)] at time [t], and any commands that spare the entry, a
    read of [k] at a time [t' <= t + d] still returns [v]. *)
Theorem entry_survives_other_commands (cm : t) (k : string) (v : jsval)
    (d : option Z) (t t' : Z) (cs : list (command * Z)) :
  Forall (spares k t (default (defaultTTL cm) d)) cs →
  t' - t ≤ default (defaultTTL cm) d →
  (get k t' (run cs (set k v d t cm))).1 = v.
Proof.
  intros Hcs Ht.
  assert (Hk : cache (run cs (set k v d t cm)) !! k
               = Some {| data := v; timestamp := t; ttl := default (defaultTTL cm) d |}).
  { pose proof (lookup_set_eq cm k v d t) as H0. revert H0.
    generalize (set k v d t cm). unfold run.
    induction Hcs as [|c cs Hc Hcs IH]; intros cm0 H0; simpl; [done|].
    apply IH. by apply exec_spares. }
  unfold get. rewrite Hk.
  assert (E : isExpired t' {| data := v; timestamp := t; ttl := default (defaultTTL cm) d |}
              = false) by (by apply isExpired_false).
  by rewrite E.
Qed.

Lemma entry_survives_other_commands_witness :
  (get "services_" 900
     (run [(CSet "packages_" (JNum 2) None, 100); (CGet "services_", 500);
           (CInvalidate "packages", 600)]
        (set "services_" (JNum 1) (Some 1000) 0 new))).1 = JNum 1.
Proof.
  apply (entry_survives_other_commands new "services_" (JNum 1) (Some 1000) 0 900).
  - apply Forall_cons. split; [simpl; split; [done | lia]|].
    apply Forall_cons. split; [simpl; right; lia|].
    apply Forall_cons. split; [reflexivity|]. apply Forall_nil_2.
  - simpl. lia.
Defined.

End CacheManagerFacts.

Section RetryExecutorFacts.
Import PerformanceOptimizer.

Lemma withTimeout_failure s timeout :
  is_failure s → ∃ e, withTimeout s timeout = inr e.
Proof. destruct s; simpl; [tauto|eauto|eauto]. Qed.

Lemma total_app ds1 ds2 : total (ds1 ++ ds2) = total ds1 + total ds2.
Proof. unfold total. induction ds1 as [|d ds1 IH]; simpl; lia. Qed.

Lemma attempts_from_length a k : length (attempts_from a k) = k.
Proof. revert a. induction k as [|k IH]; intros a; simpl; [done|]. by rewrite IH. Qed.

(** The loop from attempt [a] on, when every remaining attempt fails:
    [n] more invocations, a backoff delay after each of them but the last,
    and the terminal throw. *)
Lemma retry_loop_failing cfg operation (n : nat) :
  ∀ a last po fuel,
    a + Z.of_nat n = cfg_maxRetries cfg + 2 →
    (n < fuel)%nat →
    (∀ i, a ≤ i ≤ cfg_maxRetries cfg + 1 → is_failure (operation i)) →
    ∃ po',
      retry_loop fuel cfg operation a last po
        = Some (inr (after_loop
                       (if a <=? cfg_maxRetries cfg + 1
                        then Some (attempt_error cfg operation (cfg_maxRetries cfg + 1))
                        else last)), po') ∧
      retryConfig po' = retryConfig po ∧
      timeoutConfig po' = timeoutConfig po ∧
      invocations po' = (invocations po + n)%nat ∧
      delays po' = delays po ++
        map (backoff (retryConfig po) cfg) (attempts_from a (pred n)) ∧
      requests (metrics po') = (requests (metrics po) + n)%nat ∧
      failures (metrics po') = (failures (metrics po) + n)%nat ∧
      retries (metrics po') = (retries (metrics po) + pred n)%nat ∧
      cacheHits (metrics po') = cacheHits (metrics po) ∧
      cacheMisses (metrics po') = cacheMisses (metrics po).
Proof.
  induction n as [|n IH]; intros a last po fuel Ha Hfuel Hfail.
  - destruct fuel as [|fuel]; [lia|]. simpl. unfold retry_iter.
    assert (E : (a <=? cfg_maxRetries cfg + 1) = false) by (apply Z.leb_gt; lia).
    rewrite E. exists po. rewrite app_nil_r.
    repeat split; auto with lia.
  - destruct fuel as [|fuel]; [lia|]. simpl. unfold retry_iter.
    assert (E : (a <=? cfg_maxRetries cfg + 1) = true) by (apply Z.leb_le; lia).
    rewrite E.
    destruct (withTimeout_failure (operation a) (cfg_timeout cfg)) as [e He];
      [apply Hfail; lia|].
    rewrite He.
    match goal with |- context [retry_loop fuel cfg operation (a + 1) (Some e) ?p] =>
      destruct (IH (a + 1) (Some e) p fuel) as (po' & Hrun & Hrc & Htc & Hinv & Hdel & Hrq & Hfl & Hrt & Hch & Hcm);
        [lia | lia | intros i Hi; apply Hfail; lia |]
    end.
    exists po'. rewrite Hrun.
    assert (Hlast :
      (if a + 1 <=? cfg_maxRetries cfg + 1
       then Some (attempt_error cfg operation (cfg_maxRetries cfg + 1))
       else Some e) = Some (attempt_error cfg operation (cfg_maxRetries cfg + 1))).
    { destruct (a + 1 <=? cfg_maxRetries cfg + 1) eqn:E1; [done|].
      apply Z.leb_gt in E1. assert (a = cfg_maxRetries cfg + 1) as -> by lia.
      unfold attempt_error. by rewrite He. }
    rewrite Hlast. split; [done|].
    destruct n as [|n].
    + assert (E2 : (a <=? cfg_maxRetries cfg) = false) by (apply Z.leb_gt; lia).
      rewrite E2 in *. simpl in *. rewrite app_nil_r in *.
      repeat split; auto with lia.
    + assert (E2 : (a <=? cfg_maxRetries cfg) = true) by (apply Z.leb_le; lia).
      rewrite E2 in *. simpl in *. rewrite <- app_assoc in Hdel. simpl in Hdel.
      repeat split; auto with lia.
Qed.

(** [withRetry] always returns: the fuel it starts its loop with is never
    used up. *)
Lemma retry_loop_total cfg operation (n : nat) :
  ∀ a last po fuel,
    cfg_maxRetries cfg + 2 ≤ a + Z.of_nat n →
    (n < fuel)%nat →
    is_Some (retry_loop fuel cfg operation a last po).
Proof.
  induction n as [|n IH]; intros a last po fuel Ha Hfuel.
  - destruct fuel as [|fuel]; [lia|]. simpl. unfold retry_iter.
    assert (E : (a <=? cfg_maxRetries cfg + 1) = false) by (apply Z.leb_gt; lia).
    rewrite E. eauto.
  - destruct fuel as [|fuel]; [lia|]. simpl. unfold retry_iter.
    destruct (a <=? cfg_maxRetries cfg + 1); [|eauto].
    destruct (withTimeout _ _); [eauto|].
    apply IH; lia.
Qed.

Lemma withRetry_total operation o po : is_Some (withRetry operation o po).
Proof.
  unfold withRetry.
  apply (retry_loop_total _ _ (Z.to_nat (cfg_maxRetries (make_config po o) + 1))); lia.
Qed.

(** The always-failing loader under [PerformanceOptimizer.withRetry]. *)
Lemma withRetry_failing operation o po :
  let cfg := make_config po o in
  0 ≤ cfg_maxRetries cfg →
  (∀ a, 1 ≤ a ≤ cfg_maxRetries cfg + 1 → is_failure (operation a)) →
  ∃ po',
    withRetry operation o po
      = Some (inr (after_loop
                     (Some (attempt_error cfg operation (cfg_maxRetries cfg + 1)))),
              po') ∧
    invocations po' = (invocations po + Z.to_nat (cfg_maxRetries cfg + 1))%nat ∧
    delays po' = delays po ++
      map (backoff (retryConfig po) cfg)
          (attempts_from 1 (Z.to_nat (cfg_maxRetries cfg))) ∧
    requests (metrics po') = (requests (metrics po) + Z.to_nat (cfg_maxRetries cfg + 1))%nat ∧
    failures (metrics po') = (failures (metrics po) + Z.to_nat (cfg_maxRetries cfg + 1))%nat ∧
    retries (metrics po') = (retries (metrics po) + Z.to_nat (cfg_maxRetries cfg))%nat.
Proof.
  intros cfg HM Hfail. unfold withRetry. fold cfg.
  destruct (retry_loop_failing cfg operation (Z.to_nat (cfg_maxRetries cfg + 1))
              1 None po (S (Z.to_nat (cfg_maxRetries cfg + 1))))
    as (po' & Hrun & _ & _ & Hinv & Hdel & Hrq & Hfl & Hrt & _); [lia|lia|done|].
  assert (E : (1 <=? cfg_maxRetries cfg + 1) = true) by (apply Z.leb_le; lia).
  rewrite E in Hrun.
  assert (Hp : pred (Z.to_nat (cfg_maxRetries cfg + 1)) = Z.to_nat (cfg_maxRetries cfg)) by lia.
  rewrite Hp in *.
  exists po'. repeat split; assumption.
Qed.

(** The executor never touches the two configuration records, and what it
    returns does not depend on the counters. *)
Lemma retry_iter_config cfg operation a last po :
  retryConfig (retry_iter cfg operation a last po).2 = retryConfig po ∧
  timeoutConfig (retry_iter cfg operation a last po).2 = timeoutConfig po.
Proof.
  unfold retry_iter. destruct (a <=? cfg_maxRetries cfg + 1); [|done].
  destruct (withTimeout _ _); [done|].
  by destruct (a <=? cfg_maxRetries cfg).
Qed.

Lemma retry_iter_outcome cfg operation a last po1 po2 :
  (retry_iter cfg operation a last po1).1 = (retry_iter cfg operation a last po2).1.
Proof.
  unfold retry_iter. destruct (a <=? cfg_maxRetries cfg + 1); [|done].
  by destruct (withTimeout _ _).
Qed.

Lemma retry_loop_config fuel cfg operation :
  ∀ a last po r po',
    retry_loop fuel cfg operation a last po = Some (r, po') →
    retryConfig po' = retryConfig po ∧ timeoutConfig po' = timeoutConfig po.
Proof.
  induction fuel as [|fuel IH]; intros a last po r po'; simpl; [done|].
  pose proof (retry_iter_config cfg operation a last po) as [H1 H2].
  destruct (retry_iter cfg operation a last po) as [[r0|a' last'] po1]; simpl in *.
  - intros [= <- <-]. done.
  - intros H. apply IH in H as [H3 H4]. split; congruence.
Qed.

Lemma retry_loop_outcome fuel cfg operation :
  ∀ a last po1 po2,
    option_map fst (retry_loop fuel cfg operation a last po1)
    = option_map fst (retry_loop fuel cfg operation a last po2).
Proof.
  induction fuel as [|fuel IH]; intros a last po1 po2; simpl; [done|].
  pose proof (retry_iter_outcome cfg operation a last po1 po2) as H.
  destruct (retry_iter cfg operation a last po1) as [[r1|a1 l1] q1];
    destruct (retry_iter cfg operation a last po2) as [[r2|a2 l2] q2];
    simpl in H; try discriminate.
  - by injection H as ->.
  - injection H as -> ->. apply IH.
Qed.

Lemma withRetry_config operation o po r po' :
  withRetry operation o po = Some (r, po') →
  retryConfig po' = retryConfig po ∧ timeoutConfig po' = timeoutConfig po.
Proof. apply retry_loop_config. Qed.

Lemma withRetry_outcome operation o po1 po2 :
  retryConfig po1 = retryConfig po2 →
  timeoutConfig po1 = timeoutConfig po2 →
  option_map fst (withRetry operation o po1) = option_map fst (withRetry operation o po2).
Proof.
  intros H1 H2. unfold withRetry, make_config. rewrite H1, H2.
  apply retry_loop_outcome.
Qed.

Lemma load_outcome_spec operation timeout po0 po :
  retryConfig po = retryConfig po0 →
  timeoutConfig po = timeoutConfig po0 →
  ∃ po',
    withRetry operation
      {| opt_maxRetries := None; opt_baseDelay := None; opt_timeout := timeout |} po
      = Some (load_outcome po0 timeout operation, po') ∧
    retryConfig po' = retryConfig po0 ∧ timeoutConfig po' = timeoutConfig po0.
Proof.
  intros H1 H2. unfold load_outcome.
  pose proof (withRetry_outcome operation
    {| opt_maxRetries := None; opt_baseDelay := None; opt_timeout := timeout |}
    po po0 H1 H2) as Ho.
  destruct (withRetry_total operation
    {| opt_maxRetries := None; opt_baseDelay := None; opt_timeout := timeout |} po)
    as [[r po'] Hr].
  pose proof (withRetry_config _ _ _ _ _ Hr) as [H3 H4].
  rewrite Hr in *. simpl in Ho.
  destruct (withRetry operation _ po0) as [[r0 q0]|]; simpl in Ho; [|done].
  injection Ho as <-. exists po'. split; [done|]. split; congruence.
Qed.

(** Each pass invokes the loader at most once, and exactly once while the
    loop test holds. *)
Lemma retry_loop_invocations fuel cfg operation :
  ∀ a last po r po',
    retry_loop fuel cfg operation a last po = Some (r, po') →
    (invocations po ≤ invocations po')%nat ∧
    (invocations po' ≤ invocations po + Z.to_nat (cfg_maxRetries cfg + 2 - a))%nat ∧
    (a ≤ cfg_maxRetries cfg + 1 → (invocations po < invocations po')%nat).
Proof.
  induction fuel as [|fuel IH]; intros a last po r po'; simpl; [done|].
  unfold retry_iter. destruct (a <=? cfg_maxRetries cfg + 1) eqn:E.
  - apply Z.leb_le in E. destruct (withTimeout _ _).
    + intros [= <- <-]. simpl. lia.
    + intros H. apply IH in H as (H1 & H2 & _).
      destruct (a <=? cfg_maxRetries cfg); simpl in *; lia.
  - apply Z.leb_gt in E. intros [= <- <-]. lia.
Qed.

(** A value can only come out of a pass whose loop test held. *)
Lemma retry_loop_value fuel cfg operation :
  ∀ a last po v po',
    retry_loop fuel cfg operation a last po = Some (inl v, po') →
    a ≤ cfg_maxRetries cfg + 1.
Proof.
  induction fuel as [|fuel IH]; intros a last po v po'; simpl; [done|].
  unfold retry_iter. destruct (a <=? cfg_maxRetries cfg + 1) eqn:E.
  - apply Z.leb_le in E. done.
  - done.
Qed.

Lemma withRetry_invokes operation o po r po' :
  withRetry operation o po = Some (r, po') →
  0 ≤ cfg_maxRetries (make_config po o) →
  (invocations po < invocations po')%nat.
Proof.
  intros H HM. apply retry_loop_invocations in H as (_ & _ & H). apply H. lia.
Qed.

Lemma withRetry_value_budget operation o po v po' :
  withRetry operation o po = Some (inl v, po') →
  0 ≤ cfg_maxRetries (make_config po o).
Proof. intros H. apply retry_loop_value in H. lia. Qed.

(** The loop from attempt [a] on, when the next [n] attempts fail and the
    one after them delivers. *)
Lemma retry_loop_succeeding cfg operation (n : nat) :
  ∀ a last po fuel v,
    (∀ i, a ≤ i < a + Z.of_nat n → is_failure (operation i)) →
    operation (a + Z.of_nat n) = Fulfil v →
    a + Z.of_nat n ≤ cfg_maxRetries cfg + 1 →
    (n < fuel)%nat →
    ∃ po',
      retry_loop fuel cfg operation a last po = Some (inl v, po') ∧
      invocations po' = (invocations po + S n)%nat ∧
      delays po' = delays po ++ map (backoff (retryConfig po) cfg) (attempts_from a n).
Proof.
  induction n as [|n IH]; intros a last po fuel v Hfail Hv Hle Hfuel.
  - destruct fuel as [|fuel]; [lia|]. simpl. unfold retry_iter.
    assert (E : (a <=? cfg_maxRetries cfg + 1) = true) by (apply Z.leb_le; lia).
    rewrite E. replace (a + Z.of_nat 0) with a in Hv by lia. rewrite Hv. simpl.
    eexists. split; [reflexivity|]. simpl. split; [lia|]. by rewrite app_nil_r.
  - destruct fuel as [|fuel]; [lia|]. simpl. unfold retry_iter.
    assert (E : (a <=? cfg_maxRetries cfg + 1) = true) by (apply Z.leb_le; lia).
    assert (E2 : (a <=? cfg_maxRetries cfg) = true) by (apply Z.leb_le; lia).
    rewrite E, E2.
    destruct (withTimeout_failure (operation a) (cfg_timeout cfg)) as [e He];
      [apply Hfail; lia|].
    rewrite He.
    match goal with |- context [retry_loop fuel cfg operation (a + 1) (Some e) ?p] =>
      destruct (IH (a + 1) (Some e) p fuel v) as (po' & Hrun & Hinv & Hdel)
    end.
    { intros i Hi. apply Hfail. lia. }
    { by replace (a + 1 + Z.of_nat n) with (a + Z.of_nat (S n)) by lia. }
    { lia. }
    { lia. }
    exists po'. split; [exact Hrun|]. simpl in *. split; [lia|].
    rewrite Hdel, <- app_assoc. done.
Qed.

(** Success returns at once: when attempt [i] is the first to deliver,
    [withRetry] returns its value after exactly [i] invocations and the
    [i - 1] backoff delays of the failed attempts. *)
Theorem withRetry_first_success (operation : loader_t) (o : options) (po : t)
    (i : Z) (v : jsval) :
  1 ≤ i ≤ cfg_maxRetries (make_config po o) + 1 →
  (∀ a, 1 ≤ a < i → is_failure (operation a)) →
  operation i = Fulfil v →
  ∃ po',
    withRetry operation o po = Some (inl v, po') ∧
    invocations po' = (invocations po + Z.to_nat i)%nat ∧
    delays po' = delays po ++
      map (backoff (retryConfig po) (make_config po o))
          (attempts_from 1 (Z.to_nat (i - 1))).
Proof.
  intros Hi Hfail Hv. unfold withRetry.
  destruct (retry_loop_succeeding (make_config po o) operation (Z.to_nat (i - 1))
              1 None po (S (Z.to_nat (cfg_maxRetries (make_config po o) + 1))) v)
    as (po' & Hrun & Hinv & Hdel).
  - intros a Ha. apply Hfail. lia.
  - by replace (1 + Z.of_nat (Z.to_nat (i - 1))) with i by lia.
  - lia.
  - lia.
  - exists po'. split; [exact Hrun|]. split; [lia | exact Hdel].
Qed.

Lemma withRetry_first_success_witness :
  ∃ po',
    withRetry flaky_loader no_options new = Some (inl (JArr [JStr "buffet"]), po') ∧
    invocations po' = 2%nat ∧
    delays po' = [1000].
Proof.
  destruct (withRetry_first_success flaky_loader no_options new 2 (JArr [JStr "buffet"]))
    as (po' & Hrun & Hinv & Hdel).
  - simpl. lia.
  - intros a Ha. assert (a = 1) as -> by lia. exact I.
  - reflexivity.
  - exists po'. split; [exact Hrun|]. split; [exact Hinv | exact Hdel].
Defined.

(** Backoff monotonicity: for a non-negative base delay and a backoff
    factor of at least 1, the delay does not decrease from one attempt to a
    later one, and it never exceeds [maxDelay]. *)
Theorem backoff_monotone_and_capped (rc : retryConfig_t) (cfg : config) (a a' : Z) :
  0 ≤ cfg_baseDelay cfg →
  1 ≤ backoffFactor rc →
  1 ≤ a ≤ a' →
  backoff rc cfg a ≤ backoff rc cfg a' ∧ backoff rc cfg a' ≤ maxDelay rc.
Proof.
  intros Hb Hf Ha. unfold backoff. split; [|apply Z.le_min_r].
  apply Z.min_le_compat_r. apply Z.mul_le_mono_nonneg_l; [done|].
  apply Z.pow_le_mono_r; lia.
Qed.

Lemma backoff_monotone_and_capped_witness :
  backoff (retryConfig new) (make_config new no_options) 3
    ≤ backoff (retryConfig new) (make_config new no_options) 5 ∧
  backoff (retryConfig new) (make_config new no_options) 5 ≤ 10000.
Proof.
  apply (backoff_monotone_and_capped (retryConfig new) (make_config new no_options) 3 5);
    simpl; lia.
Defined.

End RetryExecutorFacts.

Section BatchFacts.
Import PerformanceOptimizer.

Lemma load_batch_spec loader timeout po0 batch :
  ∀ po,
    retryConfig po = retryConfig po0 →
    timeoutConfig po = timeoutConfig po0 →
    ∃ po',
      load_batch loader
        {| opt_maxRetries := None; opt_baseDelay := None; opt_timeout := timeout |}
        batch po
      = Some (map (λ item, load_outcome po0 timeout (loader item)) batch, po') ∧
      retryConfig po' = retryConfig po0 ∧ timeoutConfig po' = timeoutConfig po0.
Proof.
  induction batch as [|item rest IH]; intros po H1 H2; simpl.
  - exists po. done.
  - destruct (load_outcome_spec (loader item) timeout po0 po H1 H2)
      as (po1 & Hr & H3 & H4).
    rewrite Hr.
    destruct (IH po1 H3 H4) as (po2 & Hb & H5 & H6).
    rewrite Hb. exists po2. done.
Qed.

(** Inside the list, a slice of positive width is a prefix of the rest. *)
Lemma slice_firstn_skipn {A : Type} (items : list A) (k size : nat) :
  (k ≤ length items)%nat →
  slice items (Z.of_nat k) (Z.of_nat k + Z.of_nat size)
  = firstn size (skipn k items).
Proof.
  intros Hk. unfold slice.
  assert (E1 : (Z.of_nat k <? 0) = false) by (apply Z.ltb_ge; lia).
  assert (E2 : (Z.of_nat k + Z.of_nat size <? 0) = false) by (apply Z.ltb_ge; lia).
  rewrite E1, E2.
  rewrite (Z.min_l (Z.of_nat k)) by lia. rewrite Nat2Z.id.
  destruct (Z.min_spec (Z.of_nat k + Z.of_nat size) (Z.of_nat (length items)))
    as [[Hlt ->]|[Hge ->]].
  - f_equal. lia.
  - rewrite !firstn_all2; [done | rewrite length_skipn; lia | rewrite length_skipn; lia].
Qed.

(** The loop of [batchLoad] from position [k] on. *)
Lemma batch_loop_spec items loader (size : nat) pause timeout po0 :
  (0 < size)%nat →
  ∀ fuel k results po,
    (length (skipn k items) < fuel)%nat →
    retryConfig po = retryConfig po0 →
    timeoutConfig po = timeoutConfig po0 →
    ∃ po',
      batch_loop fuel items loader (Z.of_nat size) pause timeout (Z.of_nat k) results po
      = Some (results ++
              flat_map (collect po0 timeout loader) (chunks fuel size (skipn k items)),
              po').
Proof.
  intros Hsize. induction fuel as [|fuel IH]; intros k results po Hfuel H1 H2; [lia|].
  simpl. destruct (Z.of_nat k <? Z.of_nat (length items)) eqn:E.
  - apply Z.ltb_lt in E.
    rewrite slice_firstn_skipn by lia.
    destruct (load_batch_spec loader timeout po0 (firstn size (skipn k items)) po H1 H2)
      as (po1 & Hb & H3 & H4).
    rewrite Hb.
    assert (Hne : skipn k items ≠ []).
    { intros Hnil. apply (f_equal (@length _)) in Hnil.
      rewrite length_skipn in Hnil. simpl in Hnil. lia. }
    assert (Hlen : (length (skipn (size + k) items) < fuel)%nat).
    { rewrite length_skipn. rewrite length_skipn in Hfuel. lia. }
    destruct (skipn k items) as [|x rest] eqn:Hrest; [done|].
    rewrite <- Hrest. rewrite skipn_skipn.
    replace (Z.of_nat k + Z.of_nat size) with (Z.of_nat (size + k)) by lia.
    simpl flat_map. unfold collect at 1.
    destruct (promise_all _) as [values|].
    + match goal with |- context [batch_loop fuel _ _ _ _ _ _ _ ?p] =>
        destruct (IH (size + k)%nat (results ++ values) p Hlen) as (po' & Hl)
      end.
      { by destruct (_ && _). }
      { by destruct (_ && _). }
      exists po'. rewrite Hl. by rewrite <- app_assoc.
    + destruct (IH (size + k)%nat results po1 Hlen H3 H4) as (po' & Hl).
      exists po'. rewrite Hl. done.
  - apply Z.ltb_ge in E.
    rewrite skipn_all2 by lia. exists po. simpl. by rewrite app_nil_r.
Qed.

End BatchFacts.

Section SupabaseExecutorFacts.
Import SupabaseClient.

Lemma caught_error_try_block s e :
  caught_error s = Some e →
  try_block s = Some (inr e) ∧ message_readable e = true.
Proof.
  unfold caught_error. destruct (try_block s) as [[v|e']|]; try done.
  destruct (message_readable e') eqn:E; [|done]. by intros [= ->].
Qed.

(** The loop of [SupabaseClient.withRetry] from attempt [a] on, when every
    remaining attempt fails: [n] more invocations, a sleep after each but
    the last, and the terminal throw. *)
Lemma supabase_loop_failing operation context (n : nat) :
  ∀ a last sb fuel,
    a + Z.of_nat n = retryCount sb + 1 →
    (n < fuel)%nat →
    (∀ i, a ≤ i ≤ retryCount sb → is_Some (caught_error (operation i))) →
    ∃ sb',
      retry_loop fuel operation context a last sb
        = Some (Throw (after_loop sb context
                         (if a <=? retryCount sb
                          then caught_error (operation (retryCount sb))
                          else last)), sb') ∧
      retryCount sb' = retryCount sb ∧
      retryDelay sb' = retryDelay sb ∧
      invocations sb' = (invocations sb + n)%nat ∧
      delays sb' = delays sb ++ map (supabase_delay sb) (attempts_from a (pred n)).
Proof.
  induction n as [|n IH]; intros a last sb fuel Ha Hfuel Hfail.
  - destruct fuel as [|fuel]; [lia|]. simpl. unfold retry_iter.
    assert (E : (a <=? retryCount sb) = false) by (apply Z.leb_gt; lia).
    rewrite E. exists sb. rewrite app_nil_r. repeat split; auto with lia.
  - destruct fuel as [|fuel]; [lia|]. simpl. unfold retry_iter.
    assert (E : (a <=? retryCount sb) = true) by (apply Z.leb_le; lia).
    rewrite E.
    destruct (Hfail a) as [e He]; [lia|].
    destruct (caught_error_try_block _ _ He) as [Ht Hr]. rewrite Ht, Hr.
    match goal with |- context [retry_loop fuel operation context (a + 1) (Some e) ?p] =>
      destruct (IH (a + 1) (Some e) p fuel) as (sb' & Hrun & Hrc & Hrd & Hinv & Hdel)
    end.
    { destruct (a <? retryCount sb); simpl; lia. }
    { lia. }
    { intros i Hi. apply Hfail. destruct (a <? retryCount sb); simpl in Hi; lia. }
    assert (Hc : ∀ x, retryCount (if a <? retryCount sb then sleep x (invoke sb) else invoke sb)
                      = retryCount sb) by (intros; by destruct (a <? retryCount sb)).
    assert (Hd : ∀ x, retryDelay (if a <? retryCount sb then sleep x (invoke sb) else invoke sb)
                      = retryDelay sb) by (intros; by destruct (a <? retryCount sb)).
    rewrite Hc in *. rewrite Hd in *.
    exists sb'. rewrite Hrun.
    assert (Hlast :
      (if a + 1 <=? retryCount sb
       then caught_error (operation (retryCount sb)) else Some e)
      = caught_error (operation (retryCount sb))).
    { destruct (a + 1 <=? retryCount sb) eqn:E1; [done|].
      apply Z.leb_gt in E1. assert (a = retryCount sb) as Hq by lia.
      by rewrite <- Hq, He. }
    rewrite Hlast.
    assert (Hal : after_loop
                    (if a <? retryCount sb
                     then sleep (retryDelay sb * 2 ^ (a - 1)) (invoke sb) else invoke sb)
                    context (caught_error (operation (retryCount sb)))
                  = after_loop sb context (caught_error (operation (retryCount sb)))).
    { unfold after_loop. by rewrite Hc. }
    rewrite Hal. split; [done|]. split; [done|]. split; [done|].
    assert (Hsd : ∀ l, map (supabase_delay
                     (if a <? retryCount sb
                      then sleep (retryDelay sb * 2 ^ (a - 1)) (invoke sb) else invoke sb)) l
                   = map (supabase_delay sb) l).
    { intros l. apply map_ext. intros x. unfold supabase_delay. by rewrite Hd. }
    rewrite Hsd in Hdel.
    destruct n as [|n].
    + assert (E2 : (a <? retryCount sb) = false) by (apply Z.ltb_ge; lia).
      rewrite E2 in *. simpl in *. rewrite app_nil_r in *. split; [lia|done].
    + assert (E2 : (a <? retryCount sb) = true) by (apply Z.ltb_lt; lia).
      rewrite E2 in *. simpl in *. rewrite <- app_assoc in Hdel. simpl in Hdel.
      split; [lia|]. exact Hdel.
Qed.

Lemma supabase_withRetry_failing operation context sb :
  1 ≤ retryCount sb →
  (∀ a, 1 ≤ a ≤ retryCount sb → is_Some (caught_error (operation a))) →
  ∃ sb' e,
    withRetry operation context sb
      = Some (Throw (RetriesExhausted (retryCount sb) context e), sb') ∧
    caught_error (operation (retryCount sb)) = Some e ∧
    invocations sb' = (invocations sb + Z.to_nat (retryCount sb))%nat ∧
    delays sb' = delays sb ++
      map (supabase_delay sb) (attempts_from 1 (Z.to_nat (retryCount sb - 1))).
Proof.
  intros Hn Hfail. unfold withRetry.
  destruct (supabase_loop_failing operation context (Z.to_nat (retryCount sb))
              1 None (init sb) (S (Z.to_nat (retryCount sb))))
    as (sb' & Hrun & _ & _ & Hinv & Hdel); [simpl; lia|lia|done|].
  change (retryCount (init sb)) with (retryCount sb) in *.
  assert (E : (1 <=? retryCount sb) = true) by (apply Z.leb_le; lia).
  rewrite E in Hrun.
  destruct (Hfail (retryCount sb)) as [e He]; [lia|].
  destruct (caught_error_try_block _ _ He) as [_ Hr].
  exists sb', e. rewrite Hrun, He. unfold after_loop. rewrite Hr.
  change (retryCount (init sb)) with (retryCount sb).
  split; [done|]. split; [done|]. split; [exact Hinv|].
  assert (Hp : pred (Z.to_nat (retryCount sb)) = Z.to_nat (retryCount sb - 1)) by lia.
  rewrite Hp in Hdel. exact Hdel.
Qed.

Lemma try_block_returns s v :
  try_block s = Some (inl v) →
  ∃ e, get_prop v "error" = Some e ∧ truthy e = false.
Proof.
  destruct s as [result|r|]; simpl; try done.
  destruct (get_prop result "error") as [err|] eqn:E; [|done].
  destruct (truthy err) eqn:T; [done|].
  intros [= <-]. eauto.
Qed.

(** Whatever the loop returns as a success has passed the test of
    [result.error]. *)
Lemma supabase_loop_returns operation context fuel :
  ∀ a last sb v sb',
    retry_loop fuel operation context a last sb = Some (Return v, sb') →
    ∃ e, get_prop v "error" = Some e ∧ truthy e = false.
Proof.
  induction fuel as [|fuel IH]; intros a last sb v sb'; simpl; [done|].
  unfold retry_iter.
  destruct (a <=? retryCount sb); [|done].
  destruct (try_block (operation a)) as [[res|e]|] eqn:E; [| |done].
  - intros [= <- <-]. by apply (try_block_returns (operation a)).
  - destruct (message_readable e); [|done]. apply IH.
Qed.

Lemma supabase_loop_total operation context (n : nat) :
  ∀ a last sb fuel,
    retryCount sb + 1 ≤ a + Z.of_nat n →
    (n < fuel)%nat →
    is_Some (retry_loop fuel operation context a last sb).
Proof.
  induction n as [|n IH]; intros a last sb fuel Ha Hfuel.
  - destruct fuel as [|fuel]; [lia|]. simpl. unfold retry_iter.
    assert (E : (a <=? retryCount sb) = false) by (apply Z.leb_gt; lia).
    rewrite E. eauto.
  - destruct fuel as [|fuel]; [lia|]. simpl. unfold retry_iter.
    destruct (a <=? retryCount sb); [|eauto].
    destruct (try_block (operation a)) as [[v|e]|]; [eauto| |eauto].
    destruct (message_readable e); [|eauto].
    apply IH; [|lia]. destruct (a <? retryCount sb); simpl; lia.
Qed.

(** The loop of [SupabaseClient.withRetry] from attempt [a] on, when the
    next [j] attempts fail with a readable error and the one after them is
    rejected with [null] or [undefined]: the [catch] block throws when it
    reads the message, and the call ends there. *)
Lemma supabase_loop_stops operation context (j : nat) :
  ∀ a last sb fuel,
    a + Z.of_nat j ≤ retryCount sb →
    (j < fuel)%nat →
    (∀ i, a ≤ i < a + Z.of_nat j → is_Some (caught_error (operation i))) →
    operation (a + Z.of_nat j) = Reject JNull ∨
    operation (a + Z.of_nat j) = Reject JUndefined →
    ∃ sb',
      retry_loop fuel operation context a last sb = Some (Throw TypeError, sb') ∧
      invocations sb' = (invocations sb + S j)%nat ∧
      delays sb' = delays sb ++ map (supabase_delay sb) (attempts_from a j).
Proof.
  induction j as [|j IH]; intros a last sb fuel Ha Hfuel Hfail Hnull.
  - destruct fuel as [|fuel]; [lia|]. simpl. unfold retry_iter.
    assert (E : (a <=? retryCount sb) = true) by (apply Z.leb_le; lia).
    rewrite E. replace (a + Z.of_nat 0) with a in Hnull by lia.
    exists (invoke sb). rewrite app_nil_r.
    destruct Hnull as [-> | ->]; simpl; (split; [done|]); split; [lia|done|lia|done].
  - destruct fuel as [|fuel]; [lia|]. simpl. unfold retry_iter.
    assert (E : (a <=? retryCount sb) = true) by (apply Z.leb_le; lia).
    assert (E2 : (a <? retryCount sb) = true) by (apply Z.ltb_lt; lia).
    rewrite E, E2.
    destruct (Hfail a) as [e He]; [lia|].
    destruct (caught_error_try_block _ _ He) as [Ht Hr]. rewrite Ht, Hr.
    destruct (IH (a + 1) (Some e)
                (sleep (retryDelay sb * 2 ^ (a - 1)) (invoke sb)) fuel)
      as (sb' & Hrun & Hinv & Hdel).
    { simpl. lia. }
    { lia. }
    { intros i Hi. apply Hfail. lia. }
    { by replace (a + 1 + Z.of_nat j) with (a + Z.of_nat (S j)) by lia. }
    exists sb'. split; [exact Hrun|]. simpl in *. split; [lia|].
    rewrite Hdel, <- app_assoc. done.
Qed.

Lemma supabase_withRetry_stops operation context sb k :
  1 ≤ k ≤ retryCount sb →
  (∀ a, 1 ≤ a < k → is_Some (caught_error (operation a))) →
  operation k = Reject JNull ∨ operation k = Reject JUndefined →
  ∃ sb',
    withRetry operation context sb = Some (Throw TypeError, sb') ∧
    invocations sb' = (invocations sb + Z.to_nat k)%nat ∧
    delays sb' = delays sb ++
      map (supabase_delay sb) (attempts_from 1 (Z.to_nat (k - 1))).
Proof.
  intros Hk Hfail Hnull. unfold withRetry.
  destruct (supabase_loop_stops operation context (Z.to_nat (k - 1))
              1 None (init sb) (S (Z.to_nat (retryCount sb))))
    as (sb' & Hrun & Hinv & Hdel).
  - simpl. lia.
  - lia.
  - intros i Hi. apply Hfail. lia.
  - by replace (1 + Z.of_nat (Z.to_nat (k - 1))) with k by lia.
  - exists sb'. split; [exact Hrun|]. simpl in *. split; [lia | exact Hdel].
Qed.

End SupabaseExecutorFacts.

Section RetryClaims.

(** Both retry loops end: the bound with which each executor enters its loop
    is never used up, whatever the operation does and whatever the
    configuration is. *)
Theorem retry_executors_terminate (operation : loader_t)
    (o : PerformanceOptimizer.options) (po : PerformanceOptimizer.t)
    (context : string) (sb : SupabaseClient.t) :
  is_Some (PerformanceOptimizer.withRetry operation o po) ∧
  is_Some (SupabaseClient.withRetry operation context sb).
Proof.
  split; [apply withRetry_total|]. unfold SupabaseClient.withRetry.
  apply (supabase_loop_total operation context (Z.to_nat (SupabaseClient.retryCount sb)));
    simpl; lia.
Qed.


(** C3, as stated, fails on both executors, and in its clause on time.
    [PerformanceOptimizer.withRetry] reads its retry count with
    [options.maxRetries || 3], so a configured count of 0 still gives 4
    invocations (not 0 + 1); [SupabaseClient.withRetry] with
    [retryCount = 3] invokes an always failing operation 3 times (not
    3 + 1); and a loader that never settles fails each of its 4 attempts
    through the timer of [withTimeout], 10000 ms per attempt, so that the
    call is suspended for these timers on top of the 7000 ms of its three
    backoff delays. *)
Lemma retry_bound_fails_as_stated :
  option_map (λ r, PerformanceOptimizer.invocations r.2)
    (PerformanceOptimizer.withRetry (λ _, Reject (JStr "offline"))
       no_retries PerformanceOptimizer.new) = Some 4%nat ∧
  PerformanceOptimizer.opt_maxRetries no_retries = Some 0 ∧
  4%nat ≠ Z.to_nat (0 + 1) ∧
  option_map (λ r, SupabaseClient.invocations r.2)
    (SupabaseClient.withRetry (λ _, Reject (JStr "offline")) "buscar"
       SupabaseClient.new) = Some 3%nat ∧
  SupabaseClient.retryCount SupabaseClient.new = 3 ∧
  3%nat ≠ Z.to_nat (3 + 1) ∧
  option_map (λ r, (r.1, PerformanceOptimizer.invocations r.2,
                    PerformanceOptimizer.delays r.2))
    (PerformanceOptimizer.withRetry (λ _, Pending)
       PerformanceOptimizer.no_options PerformanceOptimizer.new)
  = Some (inr (TimeoutError 10000), 4%nat, [1000; 2000; 4000]) ∧
  total [1000; 2000; 4000] = 7000.
Proof. repeat split; try (vm_compute; reflexivity); vm_compute; lia. Qed.

(** C3 (amended).  [PerformanceOptimizer.withRetry], with the retry count
    [m >= 0] of its effective configuration ([options.maxRetries] unless
    that is absent or 0, then the configured default): a loader that fails
    on every attempt (it rejects, or is still pending when the timer of the
    attempt fires) is invoked exactly [m + 1] times, the call then throws
    the last observed error (a TypeError when that error is null or
    undefined, the timeout error when the last attempt timed out), and the
    delays slept between the attempts are exactly
    [min(baseDelay * backoffFactor^(attempt-1), maxDelay)] for the attempts
    [1..m]; the time the attempts themselves take is not part of them.
    [SupabaseClient.withRetry]: [retryCount >= 1] counts attempts.  An
    operation that fails on every attempt with an error whose message can be
    read (a rejection with anything but null or undefined, or a result that
    carries an error) is invoked exactly [retryCount] times, the call then
    throws a new error that embeds the last observed one, and the delays
    slept are [retryDelay * 2^(attempt-1)], uncapped, for the attempts
    [1..retryCount-1].  When such failures are followed, at attempt [k], by
    a rejection with null or undefined, the call ends there: [k]
    invocations, the delays of the attempts [1..k-1], and a TypeError. *)
Theorem retry_bound (po : PerformanceOptimizer.t)
    (o : PerformanceOptimizer.options) (operation : loader_t)
    (sb : SupabaseClient.t) (context : string) (query : loader_t) :
  let cfg := PerformanceOptimizer.make_config po o in
  let m := PerformanceOptimizer.cfg_maxRetries cfg in
  let n := SupabaseClient.retryCount sb in
  (0 ≤ m →
   (∀ a, is_failure (operation a)) →
   ∃ po',
     PerformanceOptimizer.withRetry operation o po
       = Some (inr (PerformanceOptimizer.after_loop
                      (Some (attempt_error cfg operation (m + 1)))), po') ∧
     (message_readable (attempt_error cfg operation (m + 1)) = true →
      PerformanceOptimizer.withRetry operation o po
        = Some (inr (attempt_error cfg operation (m + 1)), po')) ∧
     (operation (m + 1) = Pending →
      PerformanceOptimizer.withRetry operation o po
        = Some (inr (TimeoutError (PerformanceOptimizer.cfg_timeout cfg)), po')) ∧
     PerformanceOptimizer.invocations po'
       = (PerformanceOptimizer.invocations po + Z.to_nat (m + 1))%nat ∧
     PerformanceOptimizer.delays po'
       = PerformanceOptimizer.delays po ++
         map (PerformanceOptimizer.backoff (PerformanceOptimizer.retryConfig po) cfg)
             (attempts_from 1 (Z.to_nat m))) ∧
  (1 ≤ n →
   (∀ a, 1 ≤ a ≤ n → is_Some (caught_error (query a))) →
   ∃ sb' e,
     SupabaseClient.withRetry query context sb
       = Some (SupabaseClient.Throw (RetriesExhausted n context e), sb') ∧
     caught_error (query n) = Some e ∧
     SupabaseClient.invocations sb'
       = (SupabaseClient.invocations sb + Z.to_nat n)%nat ∧
     SupabaseClient.delays sb'
       = SupabaseClient.delays sb ++
         map (supabase_delay sb) (attempts_from 1 (Z.to_nat (n - 1)))) ∧
  (∀ k,
     1 ≤ k ≤ n →
     (∀ a, 1 ≤ a < k → is_Some (caught_error (query a))) →
     query k = Reject JNull ∨ query k = Reject JUndefined →
     ∃ sb',
       SupabaseClient.withRetry query context sb
         = Some (SupabaseClient.Throw TypeError, sb') ∧
       SupabaseClient.invocations sb'
         = (SupabaseClient.invocations sb + Z.to_nat k)%nat ∧
       SupabaseClient.delays sb'
         = SupabaseClient.delays sb ++
           map (supabase_delay sb) (attempts_from 1 (Z.to_nat (k - 1)))).
Proof.
  intros cfg m n. split; [|split].
  - intros Hm Hfail.
    destruct (withRetry_failing operation o po Hm) as (po' & Hrun & Hinv & Hdel & _).
    { intros a _. apply Hfail. }
    exists po'. split; [assumption|].
    assert (Hread : message_readable (attempt_error cfg operation (m + 1)) = true →
      PerformanceOptimizer.withRetry operation o po
        = Some (inr (attempt_error cfg operation (m + 1)), po')).
    { intros Hr. rewrite Hrun. unfold PerformanceOptimizer.after_loop.
      fold cfg m. by rewrite Hr. }
    split; [exact Hread|]. split; [|split; assumption].
    intros Hp.
    assert (E : attempt_error cfg operation (m + 1)
                = TimeoutError (PerformanceOptimizer.cfg_timeout cfg)).
    { unfold attempt_error. by rewrite Hp. }
    rewrite <- E. apply Hread. by rewrite E.
  - intros Hn Hq.
    destruct (supabase_withRetry_failing query context sb Hn Hq)
      as (sb' & e & Hrun & He & Hinv & Hdel).
    exists sb', e. repeat split; assumption.
  - intros k Hk Hq Hnull.
    by apply supabase_withRetry_stops.
Qed.

Lemma retry_bound_witness :
  (∃ po',
     PerformanceOptimizer.withRetry (λ _, Reject (JStr "offline"))
       PerformanceOptimizer.no_options PerformanceOptimizer.new
       = Some (inr (Rejection (JStr "offline")), po') ∧
     PerformanceOptimizer.invocations po' = 4%nat ∧
     PerformanceOptimizer.delays po' = [1000; 2000; 4000]) ∧
  (∃ sb',
     SupabaseClient.withRetry (λ _, Reject (JStr "offline")) "buscar"
       SupabaseClient.new
       = Some (SupabaseClient.Throw
                 (RetriesExhausted 3 "buscar" (Rejection (JStr "offline"))), sb') ∧
     SupabaseClient.invocations sb' = 3%nat ∧
     SupabaseClient.delays sb' = [1000; 2000]) ∧
  (∃ sb',
     SupabaseClient.withRetry rejects_with_null "buscar" SupabaseClient.new
       = Some (SupabaseClient.Throw TypeError, sb') ∧
     SupabaseClient.invocations sb' = 2%nat ∧
     SupabaseClient.delays sb' = [1000]).
Proof.
  destruct (retry_bound PerformanceOptimizer.new PerformanceOptimizer.no_options
              (λ _, Reject (JStr "offline")) SupabaseClient.new "buscar"
              (λ _, Reject (JStr "offline")))
    as (H1 & H2 & _).
  destruct (retry_bound PerformanceOptimizer.new PerformanceOptimizer.no_options
              (λ _, Reject (JStr "offline")) SupabaseClient.new "buscar"
              rejects_with_null)
    as (_ & _ & H3).
  split; [|split].
  - destruct H1 as (po' & _ & Hrun & _ & Hinv & Hdel).
    + simpl. lia.
    + intros a. exact I.
    + exists po'. split; [apply Hrun; reflexivity|]. split; [exact Hinv | exact Hdel].
  - destruct H2 as (sb' & e & Hrun & He & Hinv & Hdel).
    + simpl. lia.
    + intros a _. simpl. eauto.
    + exists sb'. injection He as <-.
      split; [exact Hrun|]. split; [exact Hinv | exact Hdel].
  - destruct (H3 2) as (sb' & Hrun & Hinv & Hdel).
    + simpl. lia.
    + intros a Ha. assert (a = 1) as -> by lia. simpl. eauto.
    + left. reflexivity.
    + exists sb'. split; [exact Hrun|]. split; [exact Hinv | exact Hdel].
Defined.

(** C7, as stated, fails for [PerformanceOptimizer.withRetry]: a result
    object that carries an error is returned as a success by the first
    attempt, and nothing is retried. *)
Lemma embedded_error_returned_as_success :
  let result := JObj [("data", JNull); ("error", JObj [("message", JStr "denied")])]%string in
  get_prop result "error" = Some (JObj [("message", JStr "denied")])%string ∧
  option_map (λ r, (r.1, PerformanceOptimizer.invocations r.2))
    (PerformanceOptimizer.withRetry (λ _, Fulfil result)
       PerformanceOptimizer.no_options PerformanceOptimizer.new)
  = Some (inl result, 1%nat).
Proof. split; vm_compute; reflexivity. Qed.

(** C7 (amended).  In [SupabaseClient.withRetry] an attempt whose result
    carries a truthy [error] field is a failed attempt: the pass hands over
    to the next attempt with a [Supabase error] as the last error, after the
    same sleep as for an operation that rejects, and no call of the executor
    returns a result whose [error] field is truthy.
    ([PerformanceOptimizer.withRetry] does not look at the result.) *)
Theorem embedded_error_is_failure (sb : SupabaseClient.t) (operation : loader_t)
    (context : string) (a : Z) (last : option error) (result err : jsval) :
  operation a = Fulfil result →
  get_prop result "error" = Some err →
  truthy err = true →
  1 ≤ a ≤ SupabaseClient.retryCount sb →
  SupabaseClient.retry_iter operation context a last sb
    = (SupabaseClient.Again (a + 1) (Some (SupabaseError err)),
       if a <? SupabaseClient.retryCount sb
       then SupabaseClient.sleep (supabase_delay sb a) (SupabaseClient.invoke sb)
       else SupabaseClient.invoke sb) ∧
  (SupabaseClient.retry_iter operation context a last sb).2
    = (SupabaseClient.retry_iter (λ _, Reject err) context a last sb).2 ∧
  (∀ v sb',
     SupabaseClient.withRetry operation context sb
       = Some (SupabaseClient.Return v, sb') →
     v ≠ result ∧ ∃ e, get_prop v "error" = Some e ∧ truthy e = false).
Proof.
  intros Hop Herr Htr Ha.
  assert (E : (a <=? SupabaseClient.retryCount sb) = true) by (apply Z.leb_le; lia).
  assert (R : message_readable (Rejection err) = true)
    by (destruct err; simpl in *; done).
  split; [|split].
  - unfold SupabaseClient.retry_iter. rewrite E, Hop. simpl. by rewrite Herr, Htr.
  - unfold SupabaseClient.retry_iter. rewrite E, Hop. simpl.
    rewrite Herr, Htr. simpl.
    change (match err with JUndefined | JNull => false | _ => true end)
      with (message_readable (Rejection err)).
    by rewrite R.
  - intros v sb' Hret.
    apply supabase_loop_returns in Hret as (e & He & Hf).
    split; [|by exists e]. intros ->. congruence.
Qed.

Lemma embedded_error_is_failure_witness :
  let result := JObj [("data", JNull); ("error", JObj [("message", JStr "denied")])]%string in
  SupabaseClient.retry_iter (λ _, Fulfil result) "buscar" 1 None SupabaseClient.new
    = (SupabaseClient.Again 2
         (Some (SupabaseError (JObj [("message", JStr "denied")]%string))),
       SupabaseClient.sleep 1000 (SupabaseClient.invoke SupabaseClient.new)).
Proof.
  exact (proj1 (embedded_error_is_failure SupabaseClient.new
                  (λ _, Fulfil (JObj [("data", JNull);
                                      ("error", JObj [("message", JStr "denied")])]%string))
                  "buscar" 1 None _ _ eq_refl eq_refl eq_refl
                  (conj (Z.le_refl 1) (Zle_bool_imp_le 1 3 eq_refl)))).
Defined.

End RetryClaims.

Section BatchClaims.
Import PerformanceOptimizer.

(** C5, as stated, fails: in the scenario of the claim the failing item [c]
    shares its batch with [d], the rejection of [Promise.all] is caught
    around the whole batch, and the result of [d] is lost with it: three
    results come back, not four. *)
Lemma failing_item_drops_its_batch :
  option_map fst (batchLoad five_items third_item_fails batches_of_two new)
    = Some [JStr "result-a"; JStr "result-b"; JStr "result-e"]%string ∧
  option_map fst (batchLoad five_items third_item_fails batches_of_two new)
    ≠ Some [JStr "result-a"; JStr "result-b"; JStr "result-d"; JStr "result-e"]%string.
Proof.
  assert (E : option_map fst (batchLoad five_items third_item_fails batches_of_two new)
              = Some [JStr "result-a"; JStr "result-b"; JStr "result-e"]%string)
    by (vm_compute; reflexivity).
  split; [exact E|]. rewrite E. discriminate.
Qed.

(** C5 (amended).  [batchLoad] never throws and, for a positive batch size,
    always returns: its results are, batch by batch and in order, the values
    of the batches all of whose items load.  A failing item causes its whole
    batch to be left out (its siblings in that batch included); the other
    batches are still collected. *)
Theorem batchLoad_collects_whole_batches (items : list jsval)
    (loader : jsval → loader_t) (o : batch_options) (po : t) :
  0 < or_default (batchSize o) 5 →
  ∃ po',
    batchLoad items loader o po
    = Some (flat_map (collect po (batchTimeout o) loader)
              (chunks (S (length items))
                 (Z.to_nat (or_default (batchSize o) 5)) items),
            po').
Proof.
  intros Hsize. unfold batchLoad.
  assert (Hpos : (0 < Z.to_nat (or_default (batchSize o) 5))%nat) by lia.
  destruct (batch_loop_spec items loader (Z.to_nat (or_default (batchSize o) 5))
              (or_default (batchDelay o) 100) (batchTimeout o) po
              Hpos (S (length items)) 0%nat [] po) as (po' & Hl);
    [rewrite length_skipn; lia|done|done|].
  rewrite Z2Nat.id in Hl by lia.
  exists po'. exact Hl.
Qed.

Lemma batchLoad_collects_whole_batches_witness :
  ∃ po',
    batchLoad five_items third_item_fails batches_of_two new
    = Some ([JStr "result-a"; JStr "result-b"] ++ [] ++ [JStr "result-e"], po').
Proof.
  destruct (batchLoad_collects_whole_batches five_items third_item_fails
              batches_of_two new) as (po' & H); [simpl; lia|].
  exists po'. rewrite H. f_equal.
Defined.

End BatchClaims.

Section StrategyFacts.
Import PerformanceOptimizer.

Lemma cache_put_falsy key v ttl now cm :
  truthy v = false → cache_put key v ttl now cm = cm.
Proof. intros H. unfold cache_put. destruct cm; [|done]. by rewrite H. Qed.

Lemma cache_get_served key now cm :
  served key now cm
  = if truthy (cache_get key now cm).1 then Some (cache_get key now cm).1 else None.
Proof.
  unfold served, cache_get. destruct cm as [c|]; [|done].
  unfold CacheManager.get. destruct (CacheManager.cache c !! key) as [e|]; [|done].
  destruct (CacheManager.isExpired now e); [done|]. simpl.
  by destruct (truthy (CacheManager.data e)).
Qed.

(** A lookup that misses keeps missing: what it leaves under the key is
    nothing, or an unexpired entry whose data is falsy. *)
Lemma get_miss_stays key now c :
  truthy (CacheManager.get key now c).1 = false →
  ∀ now', truthy (CacheManager.get key now' (CacheManager.get key now c).2).1 = false.
Proof.
  unfold CacheManager.get.
  destruct (CacheManager.cache c !! key) as [e|] eqn:E.
  - destruct (CacheManager.isExpired now e) eqn:X; simpl.
    + intros _ now'. by rewrite lookup_delete_eq.
    + intros Hf now'. rewrite E.
      by destruct (CacheManager.isExpired now' e).
  - simpl. intros _ now'. by rewrite E.
Qed.

Lemma cache_get_miss_stays key now cm :
  truthy (cache_get key now cm).1 = false →
  ∀ now', truthy (cache_get key now' (cache_get key now cm).2).1 = false.
Proof.
  unfold cache_get. destruct cm as [c|]; [|done]. simpl.
  intros H now'. by apply get_miss_stays.
Qed.

(** A lookup never adds an entry. *)
Lemma get_no_new_entry key now c k e :
  CacheManager.cache (CacheManager.get key now c).2 !! k = Some e →
  CacheManager.cache c !! k = Some e.
Proof.
  unfold CacheManager.get.
  destruct (CacheManager.cache c !! key) as [e0|]; [|done].
  destruct (CacheManager.isExpired now e0); [|done]. simpl.
  intros H. apply lookup_delete_Some in H as [_ H]. done.
Qed.

Lemma lazy_lookup_falsy_miss_stays o now w :
  truthy (lazy_lookup o now w).1 = false →
  ∀ now', truthy (lazy_lookup o now' (lazy_lookup o now w).2).1 = false.
Proof.
  destruct w as [po cm]. unfold lazy_lookup.
  destruct (truthy_key o) as [k|]; [|done].
  destruct cm as [c|]; [|done].
  destruct (truthy (CacheManager.get k now c).1) eqn:T; simpl.
  - by rewrite T.
  - intros _ now'. rewrite (get_miss_stays k now c T now'). done.
Qed.

Lemma lazy_lookup_value o now po1 po2 cm :
  (lazy_lookup o now (po1, cm)).1 = (lazy_lookup o now (po2, cm)).1.
Proof.
  unfold lazy_lookup. destruct (truthy_key o) as [k|]; [|done].
  destruct cm as [c|]; [|done].
  by destruct (truthy (CacheManager.get k now c).1).
Qed.

Lemma lazy_lookup_config o now w :
  retryConfig (lazy_lookup o now w).2.1 = retryConfig w.1 ∧
  timeoutConfig (lazy_lookup o now w).2.1 = timeoutConfig w.1 ∧
  invocations (lazy_lookup o now w).2.1 = invocations w.1.
Proof.
  destruct w as [po cm]. unfold lazy_lookup.
  destruct (truthy_key o); [|done]. destruct cm; [|done].
  by destruct (truthy _).
Qed.

(** After a miss, whatever loader is passed is invoked: the shape shared by
    the second calls below. *)
Lemma load_after_miss operation o po :
  0 ≤ cfg_maxRetries (make_config po o) →
  ∃ r po', withRetry operation o po = Some (r, po') ∧
           (invocations po < invocations po')%nat.
Proof.
  intros HM. destruct (withRetry_total operation o po) as [[r po'] Hr].
  exists r, po'. split; [done|]. by apply (withRetry_invokes _ _ _ _ _ Hr).
Qed.

Lemma cacheFirst_falsy key loader ttl t_read t_write po cm v w' :
  truthy v = false →
  cacheFirst key loader ttl t_read t_write (po, cm) = Some (inl v, w') →
  w'.2 = (cache_get key t_read cm).2 ∧
  ∀ loader2 ttl2 t3 t4, ∃ r w'',
    cacheFirst key loader2 ttl2 t3 t4 w' = Some (r, w'') ∧
    (invocations w'.1 < invocations w''.1)%nat.
Proof.
  intros Hv. unfold cacheFirst at 1.
  pose proof (cache_get_miss_stays key t_read cm) as Hstay.
  destruct (cache_get key t_read cm) as [cached cm1]. simpl in Hstay.
  destruct (truthy cached) eqn:T.
  { intros [= -> <-]. congruence. }
  destruct (withRetry loader no_options (count_cacheMiss po)) as [[[result|e] po1]|] eqn:Hr;
    [|done|done].
  intros [= -> <-]. rewrite cache_put_falsy by done. simpl. split; [done|].
  intros loader2 ttl2 t3 t4. unfold cacheFirst.
  specialize (Hstay eq_refl t3).
  destruct (cache_get key t3 cm1) as [cached2 cm2]. simpl in Hstay. rewrite Hstay.
  pose proof (withRetry_value_budget _ _ _ _ _ Hr) as HM.
  pose proof (withRetry_config _ _ _ _ _ Hr) as [Hc1 Hc2].
  destruct (load_after_miss loader2 no_options (count_cacheMiss po1)) as (r & po2 & Hr2 & Hi).
  { unfold make_config in *. simpl in *. by rewrite Hc1. }
  rewrite Hr2. destruct r; eexists _, _; (split; [reflexivity|]); simpl in *; lia.
Qed.

Lemma networkFirst_falsy key loader ttl t_end po cm v w' :
  truthy v = false →
  networkFirst key loader ttl t_end (po, cm) = Some (inl v, w') →
  w'.2 = cm ∧
  ∀ loader2 ttl2 t3, ∃ r w'',
    networkFirst key loader2 ttl2 t3 w' = Some (r, w'') ∧
    (invocations w'.1 < invocations w''.1)%nat.
Proof.
  intros Hv. unfold networkFirst at 1.
  destruct (withRetry loader _ po) as [[[result|e] po1]|] eqn:Hr; [| |done].
  - intros [= -> <-]. rewrite cache_put_falsy by done. simpl. split; [done|].
    intros loader2 ttl2 t3. unfold networkFirst.
    destruct (load_after_miss loader2
                {| opt_maxRetries := Some 1; opt_baseDelay := None; opt_timeout := None |}
                po1) as (r & po2 & Hr2 & Hi); [simpl; lia|].
    rewrite Hr2. destruct r as [res|e].
    + eexists _, _. split; [reflexivity|]. simpl. lia.
    + destruct (cache_get key t3 cm) as [cached cm1].
      destruct (truthy cached); eexists _, _; (split; [reflexivity|]); simpl; lia.
  - destruct (cache_get key t_end cm) as [cached cm1].
    destruct (truthy cached) eqn:T; [|done].
    intros [= -> <-]. congruence.
Qed.

Lemma staleWhileRevalidate_falsy key loader ttl t_read t_write po cm v w' :
  truthy v = false →
  staleWhileRevalidate key loader ttl t_read t_write (po, cm) = Some (inl v, w') →
  w'.2 = (cache_get key t_read cm).2 ∧
  ∀ loader2 ttl2 t3 t4, ∃ r w'',
    staleWhileRevalidate key loader2 ttl2 t3 t4 w' = Some (r, w'') ∧
    (invocations w'.1 < invocations w''.1)%nat.
Proof.
  intros Hv. unfold staleWhileRevalidate at 1.
  pose proof (cache_get_miss_stays key t_read cm) as Hstay.
  destruct (cache_get key t_read cm) as [cached cm1]. simpl in Hstay.
  destruct (truthy cached) eqn:T.
  { destruct (withRetry loader no_options (count_cacheHit po)) as [[[result|e] po1]|];
      [| |done]; intros [= -> <-]; congruence. }
  destruct (withRetry loader no_options (count_cacheMiss po)) as [[[result|e] po1]|] eqn:Hr;
    [|done|done].
  intros [= -> <-]. rewrite cache_put_falsy by done. simpl. split; [done|].
  intros loader2 ttl2 t3 t4. unfold staleWhileRevalidate.
  specialize (Hstay eq_refl t3).
  destruct (cache_get key t3 cm1) as [cached2 cm2]. simpl in Hstay. rewrite Hstay.
  pose proof (withRetry_value_budget _ _ _ _ _ Hr) as HM.
  pose proof (withRetry_config _ _ _ _ _ Hr) as [Hc1 Hc2].
  destruct (load_after_miss loader2 no_options (count_cacheMiss po1)) as (r & po2 & Hr2 & Hi).
  { unfold make_config in *. simpl in *. by rewrite Hc1. }
  rewrite Hr2. destruct r; eexists _, _; (split; [reflexivity|]); simpl in *; lia.
Qed.

Lemma lazyLoad_falsy loader o t_read t_write w v w' :
  truthy v = false →
  lazyLoad loader o None t_read t_write w = Some (inl v, w') →
  w'.2 = (lazy_lookup o t_read w).2.2 ∧
  ∀ loader2 t3 t4, ∃ r w'',
    lazyLoad loader2 o None t3 t4 w' = Some (r, w'') ∧
    (invocations w'.1 < invocations w''.1)%nat.
Proof.
  intros Hv. unfold lazyLoad at 1.
  pose proof (lazy_lookup_falsy_miss_stays o t_read w) as Hstay.
  pose proof (lazy_lookup_config o t_read w) as (Hk1 & Hk2 & _).
  destruct (lazy_lookup o t_read w) as [cached [po1 cm1]] eqn:Hl. simpl in *.
  destruct (truthy cached) eqn:T.
  { intros [= -> <-]. congruence. }
  assert (Hload : ∀ ld tr (q : t) (c : option CacheManager.t),
    match truthy_key o, @None (jsval + error) with
    | Some _, Some r => Some (r, (q, c))
    | key, _ =>
        match withRetry ld {| opt_maxRetries := None; opt_baseDelay := None;
                              opt_timeout := lazyTimeout o |} q with
        | None => None
        | Some (r, q2) => Some (r, (q2, lazy_store key (cacheTTL o) tr r c))
        end
    end
    = match withRetry ld {| opt_maxRetries := None; opt_baseDelay := None;
                            opt_timeout := lazyTimeout o |} q with
      | None => None
      | Some (r, q2) => Some (r, (q2, lazy_store (truthy_key o) (cacheTTL o) tr r c))
      end).
  { intros. by destruct (truthy_key o). }
  rewrite Hload.
  destruct (withRetry loader _ po1) as [[r po2]|] eqn:Hr; [|done].
  intros [= -> <-].
  assert (Hs : lazy_store (truthy_key o) (cacheTTL o) t_write (inl v) cm1 = cm1).
  { unfold lazy_store. destruct (truthy_key o); [|done]. by apply cache_put_falsy. }
  rewrite Hs. split; [done|].
  intros loader2 t3 t4. unfold lazyLoad.
  specialize (Hstay eq_refl t3).
  pose proof (lazy_lookup_config o t3 (po1, cm1)) as (Hj1 & Hj2 & Hj3).
  pose proof (withRetry_value_budget _ _ _ _ _ Hr) as HM.
  pose proof (withRetry_config _ _ _ _ _ Hr) as [Hc1 Hc2].
  pose proof (lazy_lookup_value o t3 po2 po1 cm1) as Hlk.
  pose proof (lazy_lookup_config o t3 (po2, cm1)) as (Hm1 & Hm2 & Hm3).
  destruct (lazy_lookup o t3 (po2, cm1)) as [cached2 [po3 cm3]]. simpl in *.
  rewrite Hlk, Hstay. rewrite Hload.
  destruct (load_after_miss loader2
              {| opt_maxRetries := None; opt_baseDelay := None;
                 opt_timeout := lazyTimeout o |} po3) as (r & po4 & Hr2 & Hi).
  { unfold make_config in *. simpl in *. congruence. }
  rewrite Hr2. eexists _, _. split; [reflexivity|]. simpl. lia.
Qed.

(** What a lookup leaves of the cache: it adds nothing, it touches no other
    key, and it changes nothing at all unless the entry under its key has
    expired. *)
Lemma get_frame key now c :
  (∀ k e, CacheManager.cache (CacheManager.get key now c).2 !! k = Some e →
          CacheManager.cache c !! k = Some e) ∧
  (∀ k, k ≠ key →
        CacheManager.cache (CacheManager.get key now c).2 !! k
        = CacheManager.cache c !! k) ∧
  ((∀ e, CacheManager.cache c !! key = Some e → CacheManager.isExpired now e = false) →
   (CacheManager.get key now c).2 = c).
Proof.
  split; [intros k e; apply get_no_new_entry|]. split.
  - intros k Hk. unfold CacheManager.get.
    destruct (CacheManager.cache c !! key) as [e0|]; [|done].
    destruct (CacheManager.isExpired now e0); [|done]. simpl.
    by rewrite lookup_delete_ne.
  - intros H. unfold CacheManager.get.
    destruct (CacheManager.cache c !! key) as [e0|] eqn:E; [|done].
    by rewrite (H e0 eq_refl).
Qed.

(** A retried load whose attempt [i] is the first to deliver. *)
Lemma withRetry_delivers operation o po i v :
  1 ≤ i ≤ cfg_maxRetries (make_config po o) + 1 →
  (∀ a, 1 ≤ a < i → is_failure (operation a)) →
  operation i = Fulfil v →
  ∃ po',
    withRetry operation o po = Some (inl v, po') ∧
    invocations po' = (invocations po + Z.to_nat i)%nat.
Proof.
  intros Hi Hfail Hv. unfold withRetry.
  destruct (retry_loop_succeeding (make_config po o) operation (Z.to_nat (i - 1))
              1 None po (S (Z.to_nat (cfg_maxRetries (make_config po o) + 1))) v)
    as (po' & Hrun & Hinv & _).
  - intros a Ha. apply Hfail. lia.
  - by replace (1 + Z.of_nat (Z.to_nat (i - 1))) with i by lia.
  - lia.
  - lia.
  - exists po'. split; [exact Hrun | lia].
Qed.

Lemma served_miss key now cm :
  served key now cm = None ↔ truthy (cache_get key now cm).1 = false.
Proof.
  rewrite cache_get_served. by destruct (truthy (cache_get key now cm).1).
Qed.

Lemma served_hit key now cm cached :
  served key now cm = Some cached →
  (cache_get key now cm).1 = cached ∧ truthy cached = true.
Proof.
  rewrite cache_get_served.
  destruct (truthy (cache_get key now cm).1) eqn:T; [|done].
  intros [= <-]. done.
Qed.

(** A stale-while-revalidate hit whose background load delivers a falsy
    value: the caller has the cached value, nothing is written, and the
    next call invokes its loader. *)
Lemma staleWhileRevalidate_hit_falsy key loader ttl t_read t_write po cm cached v po1 :
  served key t_read cm = Some cached →
  truthy v = false →
  withRetry loader no_options (count_cacheHit po) = Some (inl v, po1) →
  staleWhileRevalidate key loader ttl t_read t_write (po, cm)
    = Some (inl cached, (po1, (cache_get key t_read cm).2)) ∧
  ∀ loader2 ttl2 t3 t4, ∃ r w'',
    staleWhileRevalidate key loader2 ttl2 t3 t4 (po1, (cache_get key t_read cm).2)
      = Some (r, w'') ∧
    (invocations po1 < invocations w''.1)%nat.
Proof.
  intros Hs Hv Hr. apply served_hit in Hs as [Hc Ht].
  unfold staleWhileRevalidate at 1.
  destruct (cache_get key t_read cm) as [cached0 cm1]. simpl in Hc. subst cached0.
  rewrite Ht, Hr. rewrite cache_put_falsy by done. split; [done|].
  intros loader2 ttl2 t3 t4. unfold staleWhileRevalidate. cbn [snd].
  pose proof (withRetry_value_budget _ _ _ _ _ Hr) as HM.
  pose proof (withRetry_config _ _ _ _ _ Hr) as [Hc1 Hc2].
  destruct (cache_get key t3 cm1) as [cached2 cm2].
  destruct (truthy cached2).
  - destruct (load_after_miss loader2 no_options (count_cacheHit po1)) as (r & po2 & Hr2 & Hi).
    { unfold make_config in *. simpl in *. by rewrite Hc1. }
    rewrite Hr2. destruct r; eexists _, _; (split; [reflexivity|]); simpl in *; lia.
  - destruct (load_after_miss loader2 no_options (count_cacheMiss po1)) as (r & po2 & Hr2 & Hi).
    { unfold make_config in *. simpl in *. by rewrite Hc1. }
    rewrite Hr2. destruct r; eexists _, _; (split; [reflexivity|]); simpl in *; lia.
Qed.

End StrategyFacts.

Section StrategyClaims.
Import PerformanceOptimizer.

(** C8, as stated, fails in both of its cache clauses.  A load that
    succeeds with the falsy value [0] is returned but not written to the
    cache; and after a failed load an entry that is in the cache but has
    expired is not returned: the failure propagates. *)
Lemma network_first_cache_clauses_fail :
  networkFirst "k" (λ _, Fulfil (JNum 0)) (Some 60000) 5
    (new, Some CacheManager.new)
  = Some (inl (JNum 0),
          (invoke (count_request new), Some CacheManager.new)) ∧
  (CacheManager.data <$> CacheManager.cache one_old_entry !! "k") = Some (JStr "old") ∧
  option_map fst
    (networkFirst "k" (λ _, Reject (JStr "offline")) (Some 60000) 20000
       (new, Some one_old_entry))
  = Some (inr (Rejection (JStr "offline"))).
Proof. repeat split; vm_compute; reflexivity. Qed.

(** After a failed load an entry that is still valid is what the caller
    gets. *)
Example network_first_falls_back_to_valid_entry :
  option_map fst
    (networkFirst "k" (λ _, Reject (JStr "offline")) (Some 60000) 5
       (new, Some one_old_entry))
  = Some (inl (JStr "old")).
Proof. vm_compute. reflexivity. Qed.

(** C8 (amended).  [networkFirst(key, loader, ttl)] first runs a retried
    load with a retry budget of 1 (at most 2 invocations).  On success it
    returns the result, and writes it into the cache when the result is
    truthy (and a cache manager is present).  On failure it returns the value
    a cache lookup serves for the key (present, not expired and truthy) and
    propagates the failure of the load if and only if the lookup serves
    none. *)
Theorem networkFirst_contract (key : string) (loader : loader_t)
    (ttl : option Z) (t_end : Z) (po : t) (cm : option CacheManager.t) :
  ∃ r po1,
    withRetry loader network_first_options po = Some (r, po1) ∧
    cfg_maxRetries (make_config po network_first_options) = 1 ∧
    (invocations po1 ≤ invocations po + 2)%nat ∧
    match r with
    | inl result =>
        networkFirst key loader ttl t_end (po, cm)
        = Some (inl result,
                (po1,
                 match cm with
                 | Some c =>
                     Some (if truthy result
                           then CacheManager.set key result ttl t_end c else c)
                 | None => None
                 end))
    | inr e =>
        match served key t_end cm with
        | Some v =>
            networkFirst key loader ttl t_end (po, cm)
            = Some (inl v, (count_cacheHit po1, (cache_get key t_end cm).2))
        | None =>
            networkFirst key loader ttl t_end (po, cm)
            = Some (inr e, (po1, (cache_get key t_end cm).2))
        end
    end.
Proof.
  destruct (withRetry_total loader network_first_options po) as [[r po1] Hr].
  exists r, po1. split; [exact Hr|]. split; [reflexivity|]. split.
  { apply retry_loop_invocations in Hr as (_ & H & _). simpl in H. lia. }
  unfold networkFirst. fold network_first_options. rewrite Hr.
  destruct r as [result|e].
  - unfold cache_put. destruct cm as [c|]; [|done]. by destruct (truthy result).
  - rewrite cache_get_served.
    destruct (cache_get key t_end cm) as [cached cm1]. simpl.
    by destruct (truthy cached).
Qed.

(** C9, as stated, fails in two places.  Its frame clause fails for the
    strategies that begin with a lookup: with an expired entry under the
    key, [cacheFirst] returns the loader's [null] and writes nothing, but
    the cache is not what it was, the lookup has deleted the expired entry.
    Its clause on the returned value fails for [staleWhileRevalidate] on a
    hit: the loader is invoked and settles with [0], but the caller has been
    given the cached value. *)
Lemma falsy_result_exceptions :
  (∃ w',
     cacheFirst "k" (λ _, Fulfil JNull) None 20000 20001 (new, Some one_old_entry)
       = Some (inl JNull, w') ∧
     w'.2 = Some CacheManager.new ∧
     w'.2 ≠ Some one_old_entry) ∧
  (∃ w',
     staleWhileRevalidate "k" (λ _, Fulfil (JNum 0)) None 5 6 (new, Some one_old_entry)
       = Some (inl (JStr "old"), w') ∧
     invocations w'.1 = 1%nat ∧
     w'.2 = Some one_old_entry).
Proof.
  split.
  - eexists. split; [vm_compute; reflexivity|]. split; [reflexivity|].
    intros H.
    apply (f_equal (λ m : option CacheManager.t,
                      match m with
                      | Some c => CacheManager.cache c !! "k"
                      | None => None
                      end)) in H.
    vm_compute in H. discriminate.
  - eexists. split; [vm_compute; reflexivity|]. split; reflexivity.
Qed.

(** C9 (amended).  Let the loader settle successfully with a falsy value
    [v], at the attempt [i] of a retried load whose earlier attempts fail
    and whose retry budget reaches [i].  Then [cacheFirst],
    [staleWhileRevalidate] and [lazyLoad] (with no load of the key in
    flight), each on a lookup that misses, and [networkFirst] return [v]
    after [i] invocations of the loader, and [staleWhileRevalidate] on a hit
    returns the cached value while its background load makes these
    invocations.  In every case no entry is written: the cache is as the
    lookup at the start of the operation left it (that lookup adds nothing,
    touches no other key, and changes the cache only by deleting an expired
    entry under the key; [networkFirst] makes no lookup and leaves the cache
    exactly as it was), and a subsequent call for the same key invokes its
    loader again. *)
Theorem falsy_result_is_not_cached (key : string) (loader : loader_t)
    (ttl : option Z) (t_read t_write : Z) (po : t)
    (cm : option CacheManager.t) (o : lazy_options) (v : jsval) (i : Z) :
  truthy v = false →
  1 ≤ i →
  (∀ a, 1 ≤ a < i → is_failure (loader a)) →
  loader i = Fulfil v →
  let after_lookup := (cache_get key t_read cm).2 in
  let budget := maxRetries (retryConfig po) in
  (i ≤ budget + 1 → served key t_read cm = None →
   ∃ po1,
     cacheFirst key loader ttl t_read t_write (po, cm)
       = Some (inl v, (po1, after_lookup)) ∧
     invocations po1 = (invocations po + Z.to_nat i)%nat ∧
     ∀ loader2 ttl2 t3 t4, ∃ r w'',
       cacheFirst key loader2 ttl2 t3 t4 (po1, after_lookup) = Some (r, w'') ∧
       (invocations po1 < invocations w''.1)%nat) ∧
  (i ≤ 2 →
   ∃ po1,
     networkFirst key loader ttl t_write (po, cm) = Some (inl v, (po1, cm)) ∧
     invocations po1 = (invocations po + Z.to_nat i)%nat ∧
     ∀ loader2 ttl2 t3, ∃ r w'',
       networkFirst key loader2 ttl2 t3 (po1, cm) = Some (r, w'') ∧
       (invocations po1 < invocations w''.1)%nat) ∧
  (i ≤ budget + 1 → served key t_read cm = None →
   ∃ po1,
     staleWhileRevalidate key loader ttl t_read t_write (po, cm)
       = Some (inl v, (po1, after_lookup)) ∧
     invocations po1 = (invocations po + Z.to_nat i)%nat ∧
     ∀ loader2 ttl2 t3 t4, ∃ r w'',
       staleWhileRevalidate key loader2 ttl2 t3 t4 (po1, after_lookup) = Some (r, w'') ∧
       (invocations po1 < invocations w''.1)%nat) ∧
  (i ≤ budget + 1 → ∀ cached, served key t_read cm = Some cached →
   ∃ po1,
     staleWhileRevalidate key loader ttl t_read t_write (po, cm)
       = Some (inl cached, (po1, after_lookup)) ∧
     invocations po1 = (invocations po + Z.to_nat i)%nat ∧
     ∀ loader2 ttl2 t3 t4, ∃ r w'',
       staleWhileRevalidate key loader2 ttl2 t3 t4 (po1, after_lookup) = Some (r, w'') ∧
       (invocations po1 < invocations w''.1)%nat) ∧
  (i ≤ budget + 1 → truthy (lazy_lookup o t_read (po, cm)).1 = false →
   ∃ po1,
     lazyLoad loader o None t_read t_write (po, cm)
       = Some (inl v, (po1, (lazy_lookup o t_read (po, cm)).2.2)) ∧
     invocations po1 = (invocations po + Z.to_nat i)%nat ∧
     ∀ loader2 t3 t4, ∃ r w'',
       lazyLoad loader2 o None t3 t4 (po1, (lazy_lookup o t_read (po, cm)).2.2)
         = Some (r, w'') ∧
       (invocations po1 < invocations w''.1)%nat) ∧
  (∀ c, cm = Some c →
     after_lookup = Some (CacheManager.get key t_read c).2 ∧
     (∀ k e, CacheManager.cache (CacheManager.get key t_read c).2 !! k = Some e →
             CacheManager.cache c !! k = Some e) ∧
     (∀ k, k ≠ key →
           CacheManager.cache (CacheManager.get key t_read c).2 !! k
           = CacheManager.cache c !! k) ∧
     ((∀ e, CacheManager.cache c !! key = Some e →
            CacheManager.isExpired t_read e = false) →
      (CacheManager.get key t_read c).2 = c)).
Proof.
  intros Hv Hi Hfail Hload after_lookup budget.
  split; [|split; [|split; [|split; [|split]]]].
  - intros Hb Hmiss. apply served_miss in Hmiss.
    destruct (withRetry_delivers loader no_options (count_cacheMiss po) i v)
      as (po1 & Hr & Hinv); [split; [done|exact Hb]|done|done|].
    assert (E : cacheFirst key loader ttl t_read t_write (po, cm)
                = Some (inl v, (po1, after_lookup))).
    { unfold cacheFirst. subst after_lookup.
      destruct (cache_get key t_read cm) as [cached cm1]. simpl in Hmiss.
      rewrite Hmiss, Hr. by rewrite cache_put_falsy. }
    exists po1. split; [exact E|]. split; [exact Hinv|].
    exact (proj2 (cacheFirst_falsy key loader ttl t_read t_write po cm v _ Hv E)).
  - intros Hb.
    destruct (withRetry_delivers loader network_first_options po i v)
      as (po1 & Hr & Hinv); [split; [done|simpl; lia]|done|done|].
    assert (E : networkFirst key loader ttl t_write (po, cm) = Some (inl v, (po1, cm))).
    { unfold networkFirst. fold network_first_options. rewrite Hr.
      by rewrite cache_put_falsy. }
    exists po1. split; [exact E|]. split; [exact Hinv|].
    exact (proj2 (networkFirst_falsy key loader ttl t_write po cm v _ Hv E)).
  - intros Hb Hmiss. apply served_miss in Hmiss.
    destruct (withRetry_delivers loader no_options (count_cacheMiss po) i v)
      as (po1 & Hr & Hinv); [split; [done|exact Hb]|done|done|].
    assert (E : staleWhileRevalidate key loader ttl t_read t_write (po, cm)
                = Some (inl v, (po1, after_lookup))).
    { unfold staleWhileRevalidate. subst after_lookup.
      destruct (cache_get key t_read cm) as [cached cm1]. simpl in Hmiss.
      rewrite Hmiss, Hr. by rewrite cache_put_falsy. }
    exists po1. split; [exact E|]. split; [exact Hinv|].
    exact (proj2 (staleWhileRevalidate_falsy key loader ttl t_read t_write po cm v _ Hv E)).
  - intros Hb cached Hhit.
    destruct (withRetry_delivers loader no_options (count_cacheHit po) i v)
      as (po1 & Hr & Hinv); [split; [done|exact Hb]|done|done|].
    exists po1.
    destruct (staleWhileRevalidate_hit_falsy key loader ttl t_read t_write po cm cached v po1
                Hhit Hv Hr) as [E H2].
    split; [exact E|]. split; [exact Hinv | exact H2].
  - intros Hb Hmiss.
    pose proof (lazy_lookup_config o t_read (po, cm)) as (Hk1 & Hk2 & Hk3).
    destruct (lazy_lookup o t_read (po, cm)) as [cached [po0 cm1]] eqn:Hl.
    cbn [fst snd] in *.
    destruct (withRetry_delivers loader
                {| opt_maxRetries := None; opt_baseDelay := None;
                   opt_timeout := lazyTimeout o |} po0 i v)
      as (po1 & Hr & Hinv).
    { split; [done|]. unfold make_config. simpl. rewrite Hk1. exact Hb. }
    { done. }
    { done. }
    assert (E : lazyLoad loader o None t_read t_write (po, cm)
                = Some (inl v, (po1, cm1))).
    { unfold lazyLoad. rewrite Hl, Hmiss.
      destruct (truthy_key o) as [k|]; rewrite Hr; unfold lazy_store;
        by rewrite ?cache_put_falsy. }
    exists po1. split; [exact E|]. split; [lia|].
    exact (proj2 (lazyLoad_falsy loader o t_read t_write (po, cm) v _ Hv E)).
  - intros c ->. split; [done|]. apply get_frame.
Qed.

(** The stale-while-revalidate scenario: while the cache serves [v1] for the
    key, the strategy returns [v1] itself; when the background load it has
    started delivers a truthy [v2], the cache is refreshed, and a later call
    within the ttl of the refreshed entry returns [v2]. *)
Theorem stale_then_revalidated (key : string) (loader loader2 : loader_t)
    (ttl : Z) (t_read t_write t3 t4 : Z) (po : t) (c : CacheManager.t)
    (v1 v2 : jsval) :
  served key t_read (Some c) = Some v1 →
  load_outcome po None loader = inl v2 →
  truthy v2 = true →
  t3 - t_write ≤ ttl →
  ∃ w',
    staleWhileRevalidate key loader (Some ttl) t_read t_write (po, Some c)
      = Some (inl v1, w') ∧
    served key t3 w'.2 = Some v2 ∧
    ∃ w'', staleWhileRevalidate key loader2 (Some ttl) t3 t4 w' = Some (inl v2, w'').
Proof.
  intros Hs Hload Hv2 Ht.
  unfold staleWhileRevalidate at 1.
  pose proof (cache_get_served key t_read (Some c)) as Hg. rewrite Hs in Hg.
  destruct (cache_get key t_read (Some c)) as [cached cm1] eqn:Hget. simpl in Hg.
  destruct (truthy cached) eqn:T; [|done]. injection Hg as <-.
  destruct (load_outcome_spec loader None po (count_cacheHit po) eq_refl eq_refl)
    as (po1 & Hr & _). fold no_options in Hr. rewrite Hr, Hload.
  assert (Hcm1 : ∃ c1, cm1 = Some c1).
  { unfold cache_get in Hget. injection Hget as _ <-. eauto. }
  destruct Hcm1 as [c1 ->].
  eexists. split; [reflexivity|]. simpl. rewrite Hv2.
  assert (Hserved : served key t3 (Some (CacheManager.set key v2 (Some ttl) t_write c1))
                    = Some v2).
  { unfold served. rewrite lookup_set_eq. simpl.
    assert (E : CacheManager.isExpired t3
                  {| CacheManager.data := v2; CacheManager.timestamp := t_write;
                     CacheManager.ttl := ttl |} = false)
      by (by apply isExpired_false).
    by rewrite E, Hv2. }
  split; [exact Hserved|].
  unfold staleWhileRevalidate.
  pose proof (cache_get_served key t3 (Some (CacheManager.set key v2 (Some ttl) t_write c1)))
    as Hg2. rewrite Hserved in Hg2.
  destruct (cache_get key t3 _) as [cached2 cm2]. simpl in Hg2.
  destruct (truthy cached2) eqn:T2; [|done]. injection Hg2 as <-.
  destruct (withRetry_total loader2 no_options (count_cacheHit po1)) as [[[r|e] po2] Hr2];
    rewrite Hr2; eauto.
Qed.

Lemma stale_then_revalidated_witness :
  ∃ w',
    staleWhileRevalidate "k" (λ _, Fulfil (JStr "new")) (Some 1000) 5 50
      (new, Some one_old_entry)
      = Some (inl (JStr "old"), w') ∧
    served "k" 900 w'.2 = Some (JStr "new").
Proof.
  destruct (stale_then_revalidated "k" (λ _, Fulfil (JStr "new")) (λ _, Pending)
              1000 5 50 900 901 new one_old_entry (JStr "old") (JStr "new"))
    as (w' & H1 & H2 & _).
  - reflexivity.
  - reflexivity.
  - reflexivity.
  - lia.
  - exists w'. split; [exact H1 | exact H2].
Defined.

End StrategyClaims.

Lemma falsy_result_is_not_cached_witness :
  (∃ po1,
     PerformanceOptimizer.networkFirst "k" falsy_on_retry None 1
       (PerformanceOptimizer.new, Some CacheManager.new)
       = Some (inl (JNum 0), (po1, Some CacheManager.new)) ∧
     PerformanceOptimizer.invocations po1 = 2%nat) ∧
  (∃ po1,
     PerformanceOptimizer.staleWhileRevalidate "k" falsy_on_retry None 5 6
       (PerformanceOptimizer.new, Some one_old_entry)
       = Some (inl (JStr "old"), (po1, Some one_old_entry)) ∧
     PerformanceOptimizer.invocations po1 = 2%nat).
Proof.
  assert (Hfail : ∀ a, 1 ≤ a < 2 → is_failure (falsy_on_retry a)).
  { intros a Ha. assert (a = 1) as -> by lia. exact I. }
  split.
  - destruct (falsy_result_is_not_cached "k" falsy_on_retry None 0 1
                PerformanceOptimizer.new (Some CacheManager.new)
                {| PerformanceOptimizer.cacheKey := Some "k";
                   PerformanceOptimizer.lazyTimeout := None;
                   PerformanceOptimizer.cacheTTL := None |}
                (JNum 0) 2 eq_refl)
      as (_ & H & _); [lia | exact Hfail | reflexivity |].
    destruct H as (po1 & H1 & H2 & _); [lia|].
    exists po1. split; [exact H1 | exact H2].
  - destruct (falsy_result_is_not_cached "k" falsy_on_retry None 5 6
                PerformanceOptimizer.new (Some one_old_entry)
                {| PerformanceOptimizer.cacheKey := Some "k";
                   PerformanceOptimizer.lazyTimeout := None;
                   PerformanceOptimizer.cacheTTL := None |}
                (JNum 0) 2 eq_refl)
      as (_ & _ & _ & H & _); [lia | exact Hfail | reflexivity |].
    destruct (H ltac:(simpl; lia) (JStr "old") eq_refl) as (po1 & H1 & H2 & _).
    exists po1. split; [exact H1 | exact H2].
Defined.

Section CacheKeyClaims.

(** C6, as stated, fails: [JSON.stringify] writes the fields in the order
    in which the object lists them, and neither key function sorts them, so
    the same query written in two orders gets two keys. *)
Lemma key_follows_field_order :
  Permutation buffet_query buffet_query_reordered ∧
  generateKey "services" buffet_query ≠ generateKey "services" buffet_query_reordered ∧
  getCacheKey "services" buffet_query ≠ getCacheKey "services" buffet_query_reordered.
Proof.
  split; [apply perm_swap|].
  split; intros H; vm_compute in H; discriminate.
Qed.

End CacheKeyClaims.

Section ServicesFacts.
Import ServicesManager.

Variable validateService : jsval → (bool * jsval) + error.

(** The validation loop, record by record. *)
Lemma validate_completes records : ∀ validations acc,
  Forall2 (λ x v, validateService x = inl v) records validations →
  validate validateService records acc
  = inl (acc ++ map snd (List.filter fst validations)).
Proof.
  induction records as [|x records IH]; intros validations acc H.
  - inversion H. simpl. by rewrite app_nil_r.
  - inversion H as [|? v ? vs Hx Hrest]; subst. simpl. rewrite Hx.
    rewrite (IH vs) by done. destruct v as [[] sx]; simpl; [|done].
    by rewrite <- app_assoc.
Qed.

Lemma validate_completed records : ∀ acc valid,
  validate validateService records acc = inl valid →
  ∃ validations,
    Forall2 (λ x v, validateService x = inl v) records validations ∧
    valid = acc ++ map snd (List.filter fst validations).
Proof.
  induction records as [|x records IH]; intros acc valid; simpl.
  - intros [= <-]. exists []. split; [constructor|]. simpl. by rewrite app_nil_r.
  - destruct (validateService x) as [v|e] eqn:Hx; [|done].
    intros H. apply IH in H as (vs & HF & ->).
    exists (v :: vs). split; [by constructor|].
    destruct v as [[] sx]; simpl; [|done]. by rewrite <- app_assoc.
Qed.

Lemma caught_fails e result : caught e = Returns result → success result = false.
Proof. unfold caught. destruct (message_readable e); [|done]. by intros [= <-]. Qed.

Lemma caught_settles e : caught e ≠ Hangs.
Proof. unfold caught. by destruct (message_readable e). Qed.

(** A remote load that settles makes [loadFromSupabase] settle. *)
Lemma loadFromSupabase_settles r :
  r ≠ GetServicesHangs → loadFromSupabase validateService r ≠ Hangs.
Proof.
  intros Hr. destruct r as [|e|answer|]; simpl; try apply caught_settles; [|done].
  destruct (get_prop answer "error") as [err|]; [|apply caught_settles].
  destruct (truthy err); [apply caught_settles|].
  destruct (get_prop answer "data") as [d|]; [|apply caught_settles].
  destruct (iterate d) as [records|]; [|apply caught_settles].
  destruct (validate validateService records []); [done|apply caught_settles].
Qed.

(** [loadFromSupabase] reports success only for an answer without an error
    whose records the validator has all gone through. *)
Lemma loadFromSupabase_succeeded r result :
  loadFromSupabase validateService r = Returns result →
  success result = true →
  ∃ answer err d records validations,
    r = GetServicesReturns answer ∧
    get_prop answer "error" = Some err ∧ truthy err = false ∧
    get_prop answer "data" = Some d ∧ iterate d = Some records ∧
    Forall2 (λ x v, validateService x = inl v) records validations ∧
    data result = map snd (List.filter fst validations).
Proof.
  intros Hl Hs.
  assert (Hc : ∀ e, caught e = Returns result → False).
  { intros e He. apply caught_fails in He. congruence. }
  destruct r as [|e|answer|]; simpl in Hl; try (by apply Hc in Hl); [|done].
  destruct (get_prop answer "error") as [err|] eqn:E1; [|by apply Hc in Hl].
  destruct (truthy err) eqn:E2; [by apply Hc in Hl|].
  destruct (get_prop answer "data") as [d|] eqn:E3; [|by apply Hc in Hl].
  destruct (iterate d) as [records|] eqn:E4; [|by apply Hc in Hl].
  destruct (validate validateService records []) as [valid|e] eqn:E5;
    [|by apply Hc in Hl].
  injection Hl as <-.
  apply validate_completed in E5 as (validations & HF & ->).
  by exists answer, err, d, records, validations.
Qed.

Lemma loadFromSupabase_validated answer err d records validations :
  get_prop answer "error" = Some err → truthy err = false →
  get_prop answer "data" = Some d → iterate d = Some records →
  Forall2 (λ x v, validateService x = inl v) records validations →
  loadFromSupabase validateService (GetServicesReturns answer)
  = Returns {| success := true; data := map snd (List.filter fst validations);
               load_error := None |}.
Proof.
  intros E1 E2 E3 E4 HF. simpl. rewrite E1, E2, E3, E4.
  by rewrite (validate_completes records validations []).
Qed.

(** [loadServices] once it has got past the cache lookup and the test of
    [isLoading]. *)
Lemma loadServices_reaches_remote (category : jsval) (useCache : bool) (r : remote)
    (t_read t_write : Z) (s : state) :
  let key := generateKey "services" [("category"%string, default_category category)] in
  let cm1 := if useCache then (CacheManager.get key t_read (cacheManager s)).2
             else cacheManager s in
  (useCache = true →
   truthy (CacheManager.get key t_read (cacheManager s)).1 = false) →
  isLoading (manager s) = false →
  loadServices validateService category useCache r t_read t_write s
  = match loadFromSupabase validateService r with
    | Hangs =>
        (Hangs,
         {| manager := {| services := services (manager s); isLoading := true;
                          lastLoadTime := lastLoadTime (manager s);
                          fallbackServices := fallbackServices (manager s) |};
            cacheManager := cm1; errorHandler := errorHandler s;
            offlineNotices := offlineNotices s;
            servicesGrid := servicesGrid s |})
    | Throws _ => fall_back (manager s) cm1 s
    | Returns result =>
        if success result && (0 <? length (data result))%nat then
          if renderServices (servicesGrid s) (JArr (data result)) then
            (Returns (JArr (data result)),
             {| manager := with_services (manager s) (JArr (data result)) (Some t_write);
                cacheManager := CacheManager.set key (JArr (data result)) None t_write cm1;
                errorHandler := errorHandler s;
                offlineNotices := offlineNotices s;
                servicesGrid := servicesGrid s |})
          else fall_back (with_services (manager s) (JArr (data result)) (Some t_write))
                 (CacheManager.set key (JArr (data result)) None t_write cm1) s
        else fall_back (manager s) cm1 s
    end.
Proof.
  intros key cm1 Hmiss Hidle. unfold loadServices. fold key.
  assert (Hc : (if useCache then CacheManager.get key t_read (cacheManager s)
                else (JNull, cacheManager s))
               = ((if useCache then CacheManager.get key t_read (cacheManager s)
                   else (JNull, cacheManager s)).1, cm1) ∧
               truthy (if useCache then CacheManager.get key t_read (cacheManager s)
                       else (JNull, cacheManager s)).1 = false).
  { subst cm1. destruct useCache; [|done]. split; [|by apply Hmiss].
    by destruct (CacheManager.get key t_read (cacheManager s)). }
  destruct Hc as [Hc Hf]. rewrite Hc, Hf, Hidle. reflexivity.
Qed.

(** What the [catch] block gives when the fallback list can be rendered. *)
Lemma fall_back_returns sm cm s :
  renderServices (servicesGrid s) (fallbackServices sm) = true →
  fall_back sm cm s
  = (Returns (fallbackServices sm),
     {| manager := with_services sm (fallbackServices sm) (lastLoadTime sm);
        cacheManager := cm; errorHandler := errorHandler s;
        offlineNotices := showOfflineMessage (errorHandler s) (offlineNotices s);
        servicesGrid := servicesGrid s |}).
Proof. intros H. unfold fall_back. by rewrite H. Qed.

End ServicesFacts.

Section ShippedPageFacts.
Import ServicesManager.

(** With [DataModels] undefined the remote load never brings a record. *)
Lemma loadFromSupabase_undefined r result :
  loadFromSupabase DataModels_undefined r = Returns result →
  success result && (0 <? length (data result))%nat = false.
Proof.
  intros Hl. destruct (success result) eqn:Hs; [|done].
  destruct (loadFromSupabase_succeeded DataModels_undefined r result Hl Hs)
    as (answer & err & d & records & validations & _ & _ & _ & _ & _ & HF & Hd).
  rewrite Hd. inversion HF as [|x v ? ? Hx]; [done|]. discriminate Hx.
Qed.

End ShippedPageFacts.

Section ServicesClaims.
Import ServicesManager.

Variable validateService : jsval → (bool * jsval) + error.

(** C10, as stated, fails in its last clause, that [loadServices] returns
    the fallback list in every case in which the remote load has not
    succeeded with a valid record.  A remote load that never settles is
    such a case, and there [loadServices] returns nothing at all: it waits
    for [loadFromSupabase], which waits for [supabaseClient.getServices],
    and none of them has a timeout.  No notice is shown, and [isLoading]
    stays set. *)
Lemma loadServices_waits_for_the_remote_load :
  loadFromSupabase DataModels_undefined GetServicesHangs = Hangs ∧
  (loadServices DataModels_undefined JNull true GetServicesHangs 0 1 fresh_page).1 = Hangs ∧
  (loadServices DataModels_undefined JNull true GetServicesHangs 0 1 fresh_page).1
    ≠ Returns getFallbackServices ∧
  offlineNotices
    (loadServices DataModels_undefined JNull true GetServicesHangs 0 1 fresh_page).2 = 0%nat ∧
  isLoading
    (manager (loadServices DataModels_undefined JNull true GetServicesHangs 0 1 fresh_page).2)
    = true.
Proof. repeat split. discriminate. Qed.

(** C10 (amended).  When [loadServices] gets as far as the remote load (no
    cache hit, no load already running) and that load settles, it returns
    the remote data exactly when the load succeeded ([loadFromSupabase]
    reported success), the list of validated records is not empty and that
    list has been rendered without a throw; the list is then what
    [this.services] and the cache hold, and no notice is shown.  In every
    other case, a load that succeeds with no valid record included, it
    returns the fixed [fallbackServices] and calls [showOfflineMessage],
    which shows the offline notice through the page's error handler when
    there is one.  (This is for a fallback list that renders, as the
    built-in one does.)  A remote load that settles makes
    [loadFromSupabase] settle; it reports success only for an answer
    without an error whose records the validator has all gone through, and
    its data are then the sanitized forms of the records found valid, in
    order.  The cache key is the one of the category, [null] standing in for
    an absent one. *)
Theorem loadServices_remote_or_fallback (category : jsval) (useCache : bool)
    (r : remote) (t_read t_write : Z) (s : state) :
  let key := generateKey "services" [("category"%string, default_category category)] in
  let cm1 := if useCache then (CacheManager.get key t_read (cacheManager s)).2
             else cacheManager s in
  (useCache = true →
   truthy (CacheManager.get key t_read (cacheManager s)).1 = false) →
  isLoading (manager s) = false →
  r ≠ GetServicesHangs →
  renderServices (servicesGrid s) (fallbackServices (manager s)) = true →
  let out := loadServices validateService category useCache r t_read t_write s in
  let fell_back :=
    out.1 = Returns (fallbackServices (manager s)) ∧
    services (manager out.2) = fallbackServices (manager s) ∧
    isLoading (manager out.2) = false ∧
    offlineNotices out.2 = showOfflineMessage (errorHandler s) (offlineNotices s) ∧
    (errorHandler s = true → offlineNotices out.2 = S (offlineNotices s)) in
  loadFromSupabase validateService r ≠ Hangs ∧
  (∀ e, loadFromSupabase validateService r = Throws e → fell_back) ∧
  (∀ result, loadFromSupabase validateService r = Returns result →
     (success result = true ∧ data result ≠ [] ∧
      renderServices (servicesGrid s) (JArr (data result)) = true →
      out.1 = Returns (JArr (data result)) ∧
      services (manager out.2) = JArr (data result) ∧
      isLoading (manager out.2) = false ∧
      lastLoadTime (manager out.2) = Some t_write ∧
      offlineNotices out.2 = offlineNotices s ∧
      cacheManager out.2 = CacheManager.set key (JArr (data result)) None t_write cm1) ∧
     (¬ (success result = true ∧ data result ≠ [] ∧
         renderServices (servicesGrid s) (JArr (data result)) = true) →
      fell_back) ∧
     (success result = true →
      ∃ answer err d records validations,
        r = GetServicesReturns answer ∧
        get_prop answer "error" = Some err ∧ truthy err = false ∧
        get_prop answer "data" = Some d ∧ iterate d = Some records ∧
        Forall2 (λ x v, validateService x = inl v) records validations ∧
        data result = map snd (List.filter fst validations))) ∧
  (∀ answer err d records validations,
     r = GetServicesReturns answer →
     get_prop answer "error" = Some err → truthy err = false →
     get_prop answer "data" = Some d → iterate d = Some records →
     Forall2 (λ x v, validateService x = inl v) records validations →
     loadFromSupabase validateService r
     = Returns {| success := true; data := map snd (List.filter fst validations);
                  load_error := None |}) ∧
  (∀ grid, renderServices grid getFallbackServices = true) ∧
  key = generateKey "services"
          [("category"%string,
            match category with JUndefined => JNull | _ => category end)].
Proof.
  intros key cm1 Hmiss Hidle Hr Hfb out fell_back.
  assert (Hout := loadServices_reaches_remote validateService category useCache r
                    t_read t_write s Hmiss Hidle).
  fold key cm1 out in Hout.
  assert (Hfall : ∀ cm, out = fall_back (manager s) cm s → fell_back).
  { intros cm E. subst fell_back. rewrite E, fall_back_returns by done.
    cbn [fst snd manager offlineNotices with_services services isLoading].
    repeat split. by intros ->. }
  split; [by apply loadFromSupabase_settles|]. split; [|split; [|split; [|split]]].
  - intros e He. rewrite He in Hout. by apply (Hfall cm1).
  - intros result Hl. rewrite Hl in Hout. split; [|split].
    + intros (Hs & Hd & Hrender). rewrite Hs, Hrender in Hout.
      destruct (data result) as [|x l] eqn:E; [done|].
      rewrite Hout. repeat split.
    + intros Hn.
      destruct (success result && (0 <? length (data result))%nat) eqn:Hb;
        [|by apply (Hfall cm1)].
      apply andb_prop in Hb as [Hs Hd].
      destruct (renderServices (servicesGrid s) (JArr (data result))) eqn:Hrender.
      { exfalso. apply Hn. split; [done|]. split; [|done].
        intros E. rewrite E in Hd. done. }
      subst fell_back. rewrite Hout.
      rewrite fall_back_returns by done.
      cbn [fst snd manager offlineNotices with_services services isLoading
           fallbackServices].
      repeat split. by intros ->.
    + by apply loadFromSupabase_succeeded.
  - intros answer err d records validations -> E1 E2 E3 E4 HF.
    by apply (loadFromSupabase_validated validateService answer err d records).
  - by intros [].
  - done.
Qed.

End ServicesClaims.

Lemma loadServices_remote_or_fallback_witness :
  ServicesManager.loadFromSupabase ServicesManager.DataModels_undefined empty_answer
    = ServicesManager.Returns
        {| ServicesManager.success := true; ServicesManager.data := [];
           ServicesManager.load_error := None |} ∧
  (ServicesManager.loadServices ServicesManager.DataModels_undefined JUndefined true
     empty_answer 0 1 fresh_page).1
    = ServicesManager.Returns ServicesManager.getFallbackServices ∧
  ServicesManager.offlineNotices
    (ServicesManager.loadServices ServicesManager.DataModels_undefined JUndefined true
       empty_answer 0 1 fresh_page).2 = 1%nat.
Proof.
  split; [reflexivity|].
  destruct (loadServices_remote_or_fallback ServicesManager.DataModels_undefined
              JUndefined true empty_answer 0 1 fresh_page) as (_ & _ & H & _).
  - intros _. reflexivity.
  - reflexivity.
  - discriminate.
  - reflexivity.
  - destruct (H _ eq_refl) as (_ & H2 & _).
    destruct H2 as (H1 & _ & _ & _ & H3).
    + intros (_ & Hd & _). apply Hd. reflexivity.
    + split; [exact H1 | apply H3; reflexivity].
Defined.

Section MachineFacts.
Import PerformanceOptimizer.

Lemma truthy_key_nonempty o k : truthy_key o = Some k → k ≠ ""%string.
Proof.
  unfold truthy_key. destruct (cacheKey o) as [k'|]; [|done].
  destruct (String.eqb k' "") eqn:E; [done|].
  intros [= <-]. by apply String.eqb_neq.
Qed.

Lemma boot_ok w : machine_ok (boot w).
Proof. split; simpl; intros *; try rewrite lookup_empty; done. Qed.

Lemma retry_iter_invocations cfg operation a last po :
  invocations (retry_iter cfg operation a last po).2
  = (invocations po + (if (a <=? cfg_maxRetries cfg + 1)%Z then 1 else 0))%nat.
Proof.
  unfold retry_iter. destruct (a <=? cfg_maxRetries cfg + 1); [|simpl; lia].
  destruct (withTimeout _ _); [simpl; lia|].
  destruct (a <=? cfg_maxRetries cfg); simpl; lia.
Qed.

Lemma withTimeout_inr_failure s timeout e :
  withTimeout s timeout = inr e → is_failure s.
Proof. by destruct s. Qed.

(** One pass keeps a load well-formed. *)
Lemma load_ok_pass ld a last po :
  load_ok ld →
  ld_state ld = Again a last →
  load_ok
    {| ld_cfg := ld_cfg ld; ld_loader := ld_loader ld;
       ld_state := (retry_iter (ld_cfg ld) (ld_loader ld) a last po).1;
       ld_invocations :=
         ld_invocations ld
         + (invocations (retry_iter (ld_cfg ld) (ld_loader ld) a last po).2
            - invocations po) |}.
Proof.
  unfold load_ok. intros H Hst. rewrite Hst in H. destruct H as ((Ha1 & Ha2) & Hinv & Hfirst).
  rewrite retry_iter_invocations. simpl.
  unfold retry_iter.
  destruct (a <=? cfg_maxRetries (ld_cfg ld) + 1) eqn:E.
  - apply Z.leb_le in E.
    destruct (withTimeout (ld_loader ld a) (cfg_timeout (ld_cfg ld))) as [v|e] eqn:W; simpl.
    + split; [lia|]. split; [lia|]. intros H2. apply Hfirst. lia.
    + split; [lia|]. split; [lia|]. intros H2.
      destruct (decide (a = 1)) as [->|]; [|apply Hfirst; lia].
      by apply (withTimeout_inr_failure _ _ _ W).
  - apply Z.leb_gt in E. simpl.
    split; [lia|]. split; [lia|]. intros H2. apply Hfirst. lia.
Qed.

Lemma call_ok c loader o now m m' :
  machine_ok m → call c loader o now m = Some m' → machine_ok m'.
Proof.
  intros [I1 I2 I3 I4 I5]. unfold call.
  destruct (waiting m !! c) eqn:Hw; [done|].
  destruct (delivered m !! c) eqn:Hd; [done|].
  destruct (lazy_lookup o now (m_world m)) as [cached w1].
  destruct (truthy cached).
  { intros [= <-]. by split. }
  destruct (registered (truthy_key o) m) as [p|] eqn:Hreg.
  - intros [= <-]. split; simpl.
    + intros k q Hk. destruct (I1 k q Hk) as (Hne & c0 & ttl & Hc0).
      split; [done|]. exists c0, ttl.
      rewrite lookup_insert_ne; [done|]. intros ->. congruence.
    + intros c0 q k ttl Hc0. destruct (decide (c = c0)) as [->|Hn].
      * by rewrite lookup_insert_eq in Hc0.
      * rewrite lookup_insert_ne in Hc0 by done. eauto.
    + intros c0 c0' q key key' ttl ttl' H1 H2.
      destruct (decide (c = c0)) as [->|Hn]; [by rewrite lookup_insert_eq in H1|].
      destruct (decide (c = c0')) as [->|Hn']; [by rewrite lookup_insert_eq in H2|].
      rewrite lookup_insert_ne in H1 by done. rewrite lookup_insert_ne in H2 by done.
      eauto.
    + intros c0 t Hc0. destruct (decide (c = c0)) as [->|Hn].
      * rewrite lookup_insert_eq in Hc0. injection Hc0 as <-. simpl.
        unfold registered in Hreg. destruct (truthy_key o) as [k|]; [|done].
        destruct (I1 k p Hreg) as (_ & c1 & ttl & Hc1).
        apply (I4 c1 _ Hc1).
      * rewrite lookup_insert_ne in Hc0 by done. eauto.
    + done.
  - intros [= <-]. split; simpl.
    + intros k q Hk. destruct (truthy_key o) as [k0|] eqn:Hkey.
      * destruct (decide (k0 = k)) as [->|Hn].
        -- rewrite lookup_insert_eq in Hk. injection Hk as <-.
           split; [by apply (truthy_key_nonempty o)|].
           exists c, (cacheTTL o). by rewrite lookup_insert_eq.
        -- rewrite lookup_insert_ne in Hk by done.
           destruct (I1 k q Hk) as (Hne & c0 & ttl & Hc0).
           split; [done|]. exists c0, ttl.
           rewrite lookup_insert_ne; [done|]. intros ->. congruence.
      * destruct (I1 k q Hk) as (Hne & c0 & ttl & Hc0).
        split; [done|]. exists c0, ttl.
        rewrite lookup_insert_ne; [done|]. intros ->. congruence.
    + intros c0 q k ttl Hc0. destruct (decide (c = c0)) as [->|Hn].
      * rewrite lookup_insert_eq in Hc0. injection Hc0 as <- Hk <-.
        rewrite Hk. by rewrite lookup_insert_eq.
      * rewrite lookup_insert_ne in Hc0 by done.
        pose proof (I2 _ _ _ _ Hc0) as Hk.
        destruct (truthy_key o) as [k0|] eqn:Hkey; [|done].
        rewrite lookup_insert_ne; [done|]. intros ->.
        simpl in Hreg. congruence.
    + intros c0 c0' q key key' ttl ttl' H1 H2.
      destruct (decide (c = c0)) as [->|Hn]; destruct (decide (c0 = c0')) as [->|Hn']; try done.
      * rewrite lookup_insert_eq in H1. injection H1 as <- _ _.
        rewrite lookup_insert_ne in H2 by done.
        apply I4 in H2. simpl in H2. lia.
      * destruct (decide (c = c0')) as [->|Hn''].
        -- rewrite lookup_insert_eq in H2. injection H2 as <- _ _.
           rewrite lookup_insert_ne in H1 by done.
           apply I4 in H1. simpl in H1. lia.
        -- rewrite lookup_insert_ne in H1 by done.
           rewrite lookup_insert_ne in H2 by done. eauto.
    + intros c0 t Hc0. rewrite length_app. simpl.
      destruct (decide (c = c0)) as [->|Hn].
      * rewrite lookup_insert_eq in Hc0. injection Hc0 as <-. simpl. lia.
      * rewrite lookup_insert_ne in Hc0 by done. apply I4 in Hc0. lia.
    + intros q ld Hq. apply lookup_app_Some in Hq as [Hq|[Hlen Hq]]; [eauto|].
      destruct (q - length (loads m))%nat; [|done]. injection Hq as <-.
      unfold load_ok. simpl. repeat split; lia.
Qed.

Lemma attempt_ok p m m' :
  machine_ok m → attempt p m = Some m' → machine_ok m'.
Proof.
  intros [I1 I2 I3 I4 I5]. unfold attempt.
  destruct (loads m !! p) as [ld|] eqn:Hp; [|done].
  destruct (ld_state ld) as [r|a last] eqn:Hst; [done|].
  pose proof (load_ok_pass ld a last (m_world m).1 (I5 p ld Hp) Hst) as Hok.
  destruct (retry_iter (ld_cfg ld) (ld_loader ld) a last (m_world m).1) as [st po'].
  intros [= <-]. split; simpl; try done.
  - intros c t Hc. rewrite length_insert. eauto.
  - intros q ld' Hq. apply list_lookup_insert_Some in Hq as [(-> & <- & _)|[_ Hq]]; eauto.
Qed.

Lemma resume_ok c now m m' :
  machine_ok m → resume c now m = Some m' → machine_ok m'.
Proof.
  intros [I1 I2 I3 I4 I5]. unfold resume.
  destruct (waiting m !! c) as [[p key ttl|p]|] eqn:Hc; [| |done].
  - destruct (settled p m) as [r|]; [|done]. intros [= <-]. split; simpl.
    + intros k q Hk.
      assert (Hk' : activeRequests m !! k = Some q ∧ key ≠ Some k).
      { destruct key as [k0|]; [|done].
        apply lookup_delete_Some in Hk as [Hn Hk]. split; [done|congruence]. }
      destruct Hk' as [Hk' Hkey].
      destruct (I1 k q Hk') as (Hne & c0 & ttl0 & Hc0).
      split; [done|]. exists c0, ttl0.
      rewrite lookup_delete_ne; [done|]. intros <-. congruence.
    + intros c0 q k ttl0 Hc0.
      apply lookup_delete_Some in Hc0 as [Hn Hc0].
      pose proof (I2 _ _ _ _ Hc0) as Hk.
      destruct key as [k0|]; [|done].
      rewrite lookup_delete_ne; [done|]. intros <-.
      pose proof (I2 _ _ _ _ Hc) as Hk0.
      assert (q = p) as -> by congruence.
      apply Hn. eapply I3; eauto.
    + intros c0 c0' q key0 key0' ttl0 ttl0' H1 H2.
      apply lookup_delete_Some in H1 as [_ H1].
      apply lookup_delete_Some in H2 as [_ H2]. eauto.
    + intros c0 t Hc0. apply lookup_delete_Some in Hc0 as [_ Hc0]. eauto.
    + done.
  - destruct (settled p m) as [r|]; [|done]. intros [= <-]. split; simpl.
    + intros k q Hk. destruct (I1 k q Hk) as (Hne & c0 & ttl0 & Hc0).
      split; [done|]. exists c0, ttl0.
      rewrite lookup_delete_ne; [done|]. intros <-. congruence.
    + intros c0 q k ttl0 Hc0. apply lookup_delete_Some in Hc0 as [_ Hc0]. eauto.
    + intros c0 c0' q key0 key0' ttl0 ttl0' H1 H2.
      apply lookup_delete_Some in H1 as [_ H1].
      apply lookup_delete_Some in H2 as [_ H2]. eauto.
    + intros c0 t Hc0. apply lookup_delete_Some in Hc0 as [_ Hc0]. eauto.
    + done.
Qed.

Lemma step_ok e m m' : machine_ok m → step e m = Some m' → machine_ok m'.
Proof.
  destruct e; simpl; eauto using call_ok, attempt_ok, resume_ok.
Qed.

Lemma run_ok es : ∀ m m', machine_ok m → run es m = Some m' → machine_ok m'.
Proof.
  induction es as [|e es IH]; intros m m' Hok; simpl.
  - by intros [= <-].
  - destruct (step e m) as [m1|] eqn:E; [|done].
    intros H. eapply IH; [|exact H]. by eapply step_ok.
Qed.

Lemma served_none_miss k now c :
  served k now (Some c) = None → truthy (CacheManager.get k now c).1 = false.
Proof.
  unfold served, CacheManager.get.
  destruct (CacheManager.cache c !! k) as [e|]; [|done].
  destruct (CacheManager.isExpired now e); [done|]. simpl.
  by destruct (truthy (CacheManager.data e)).
Qed.

(** A miss under [k]: the lookup block of [lazyLoad] yields nothing, counts
    the miss, and leaves a cache in which [k] keeps missing. *)
Lemma lazy_lookup_miss o k now po cm :
  truthy_key o = Some k →
  (∀ c, cm = Some c → truthy (CacheManager.get k now c).1 = false) →
  ∃ po' cm',
    lazy_lookup o now (po, cm) = (JNull, (po', cm')) ∧
    invocations po' = invocations po ∧
    retryConfig po' = retryConfig po ∧
    timeoutConfig po' = timeoutConfig po ∧
    misses k cm'.
Proof.
  intros Hk Hmiss. unfold lazy_lookup. rewrite Hk.
  destruct cm as [c|].
  - rewrite (Hmiss c eq_refl). eexists _, _. split; [reflexivity|].
    repeat split. simpl. intros now'. by apply get_miss_stays, Hmiss.
  - eexists _, _. split; [reflexivity|]. done.
Qed.

Section Phase.

Variables (k : string) (p c1 : nat) (l1 : loader_t) (ttl1 : option Z)
  (budget : Z) (n0 : nat).

(** A pass of the load keeps the phase. *)
Lemma in_flight_attempt js m m' :
  in_flight k p c1 l1 ttl1 budget n0 js m →
  attempt p m = Some m' →
  in_flight k p c1 l1 ttl1 budget n0 js m'.
Proof.
  intros F Hstep. pose proof (attempt_ok p m m' (fl_ok _ _ _ _ _ _ _ _ _ F) Hstep) as Hok.
  destruct F as [_ Hreg Hst Hlen (ld & Hld & Hl1 & Hcfg & Hinv) Hmiss Hj Hnd Hund].
  unfold attempt in Hstep. rewrite Hld in Hstep.
  destruct (ld_state ld) as [r|a last] eqn:Hs; [done|].
  pose proof (retry_iter_invocations (ld_cfg ld) (ld_loader ld) a last (m_world m).1) as Hi.
  destruct (retry_iter (ld_cfg ld) (ld_loader ld) a last (m_world m).1) as [st po'].
  injection Hstep as <-. split; simpl; try done.
  - by rewrite length_insert.
  - eexists. split; [apply list_lookup_insert_eq; lia|]. simpl. split; [done|].
    split; [done|]. simpl in Hi. lia.
Qed.

(** One more caller for [k] joins the load: no load is added and no loader
    is invoked. *)
Lemma in_flight_call js m c loader o now m' :
  in_flight k p c1 l1 ttl1 budget n0 js m →
  truthy_key o = Some k →
  call c loader o now m = Some m' →
  in_flight k p c1 l1 ttl1 budget n0 (js ++ [c]) m' ∧
  loads m' = loads m ∧ c ≠ c1.
Proof.
  intros F Hk Hstep. pose proof (call_ok c loader o now m m' (fl_ok _ _ _ _ _ _ _ _ _ F) Hstep) as Hok.
  destruct F as [_ Hreg Hst Hlen (ld & Hld & Hl1 & Hcfg & Hinv) Hmiss Hj Hnd Hund].
  unfold call in Hstep.
  destruct (waiting m !! c) eqn:Hw; [done|].
  destruct (delivered m !! c) eqn:Hd; [done|].
  assert (Hc1 : c ≠ c1) by (intros ->; congruence).
  destruct (m_world m) as [po cm] eqn:Hworld.
  destruct (lazy_lookup_miss o k now po cm Hk) as (po' & cm' & Hl & Hi & _ & _ & Hm').
  { intros c0 ->. apply Hmiss. }
  rewrite Hl in Hstep. simpl in Hstep.
  unfold registered in Hstep. rewrite Hk, Hreg in Hstep.
  injection Hstep as <-. split; [|done]. split; simpl; try done.
  - by rewrite lookup_insert_ne.
  - exists ld. split; [done|]. split; [done|]. split; [done|]. simpl in *. lia.
  - intros c0 Hc0. apply elem_of_app in Hc0 as [Hc0|Hc0].
    + rewrite lookup_insert_ne; [by apply Hj|]. intros <-.
      rewrite (Hj c Hc0) in Hw. done.
    + apply list_elem_of_singleton in Hc0 as ->. by rewrite lookup_insert_eq.
  - apply NoDup_app. split; [done|]. split; [|apply NoDup_singleton].
    intros c0 Hc0 Hin. apply list_elem_of_singleton in Hin as ->.
    rewrite (Hj c Hc0) in Hw. done.
Qed.

(** Any interleaving of passes of the load and of further callers for [k]
    keeps the phase: the callers all join the one load. *)
Lemma in_flight_run mid :
  ∀ js m m',
    in_flight k p c1 l1 ttl1 budget n0 js m →
    Forall (joins p k) mid →
    run mid m = Some m' →
    in_flight k p c1 l1 ttl1 budget n0 (js ++ callers_of mid) m' ∧
    length (loads m') = length (loads m).
Proof.
  induction mid as [|e mid IH]; intros js m m' F Hmid Hrun; simpl in *.
  - injection Hrun as <-. by rewrite app_nil_r.
  - apply Forall_cons in Hmid as [He Hmid].
    destruct (step e m) as [m1|] eqn:Hstep; [|done].
    destruct e as [c loader o now|q|c now]; simpl in He, Hstep; [| |done].
    + destruct (in_flight_call js m c loader o now m1 F He Hstep) as (F1 & Hl & _).
      destruct (IH _ _ _ F1 Hmid Hrun) as [F2 Hlen].
      rewrite <- app_assoc in F2. split; [exact F2|]. by rewrite Hlen, Hl.
    + subst q. pose proof (in_flight_attempt js m m1 F Hstep) as F1.
      destruct (IH _ _ _ F1 Hmid Hrun) as [F2 Hlen].
      split; [exact F2|]. rewrite Hlen.
      rewrite (fl_one_load _ _ _ _ _ _ _ _ _ F1), (fl_one_load _ _ _ _ _ _ _ _ _ F). done.
Qed.

End Phase.

(** The first caller for a key that is neither cached nor in flight starts
    the load and opens the phase. *)
Lemma call_starts_load m0 k c1 l1 o1 t1 m :
  machine_ok m0 →
  truthy_key o1 = Some k →
  activeRequests m0 !! k = None →
  served k t1 (m_world m0).2 = None →
  call c1 l1 o1 t1 m0 = Some m →
  in_flight k (length (loads m0)) c1 l1 (cacheTTL o1)
    (maxRetries (retryConfig (m_world m0).1))
    (invocations (m_world m0).1) [] m.
Proof.
  intros Hok Hk Hreg Hserved Hstep.
  pose proof (call_ok _ _ _ _ _ _ Hok Hstep) as Hok'.
  unfold call in Hstep.
  destruct (waiting m0 !! c1) eqn:Hw; [done|].
  destruct (delivered m0 !! c1) eqn:Hd; [done|].
  destruct (m_world m0) as [po cm] eqn:Hworld.
  destruct (lazy_lookup_miss o1 k t1 po cm Hk) as (po' & cm' & Hl & Hi & Hrc & _ & Hm').
  { intros c ->. by apply served_none_miss. }
  rewrite Hl in Hstep. simpl in Hstep.
  unfold registered in Hstep. rewrite Hk, Hreg in Hstep.
  injection Hstep as <-. split; simpl; try done.
  - by rewrite lookup_insert_eq.
  - by rewrite lookup_insert_eq.
  - rewrite length_app. simpl. lia.
  - eexists. split; [apply list_lookup_middle; done|]. simpl. split; [done|].
    split; [by rewrite Hrc|]. lia.
  - intros c Hc. by apply elem_of_nil in Hc.
  - apply NoDup_nil_2.
Qed.

(** The caller that started the load resumes: it receives the outcome and
    unregisters the key, whether the load succeeded or failed. *)
Lemma resume_starter k p c1 l1 ttl1 budget n0 js m r now :
  in_flight k p c1 l1 ttl1 budget n0 js m →
  settled p m = Some r →
  ∃ m',
    resume c1 now m = Some m' ∧
    delivered m' !! c1 = Some r ∧
    activeRequests m' !! k = None ∧
    loads m' = loads m ∧
    (m_world m').1 = (m_world m).1 ∧
    (m_world m').2 = lazy_store (Some k) ttl1 now r (m_world m).2 ∧
    (∀ c, c ∈ js → waiting m' !! c = Some (Joiner p)).
Proof.
  intros F Hs. destruct F as [_ Hreg Hst Hlen _ _ Hj _ _].
  unfold resume. rewrite Hst, Hs. eexists. split; [reflexivity|]. simpl.
  split; [by rewrite lookup_insert_eq|]. split; [by rewrite lookup_delete_eq|].
  repeat split. intros c Hc.
  rewrite lookup_delete_ne; [by apply Hj|]. intros <-.
  rewrite (Hj c1 Hc) in Hst. done.
Qed.

(** The joiners resume: each receives the outcome of the one load. *)
Lemma resume_joiners p r now js :
  ∀ m,
    NoDup js →
    (∀ c, c ∈ js → waiting m !! c = Some (Joiner p)) →
    settled p m = Some r →
    ∃ m',
      run (map (λ c, Resume c now) js) m = Some m' ∧
      (∀ c, c ∈ js → delivered m' !! c = Some r) ∧
      (∀ c, c ∉ js → delivered m' !! c = delivered m !! c) ∧
      activeRequests m' = activeRequests m ∧
      loads m' = loads m ∧
      m_world m' = m_world m.
Proof.
  induction js as [|c js IH]; intros m Hnd Hj Hs.
  - exists m. simpl. split; [done|]. split; [|done].
    intros c Hc. by apply elem_of_nil in Hc.
  - apply NoDup_cons in Hnd as [Hc Hnd]. simpl. unfold resume.
    rewrite (Hj c) by (apply elem_of_cons; by left). rewrite Hs.
    match goal with |- context [run _ ?m1] =>
      destruct (IH m1 Hnd) as (m' & Hrun & Hd & Hother & Ha & Hl & Hw)
    end.
    { intros c0 Hc0. simpl. rewrite lookup_delete_ne; [|by intros <-].
      apply Hj. apply elem_of_cons. by right. }
    { done. }
    exists m'. split; [exact Hrun|]. split; [|split; [|done]].
    + intros c0 Hc0. apply elem_of_cons in Hc0 as [->|Hc0]; [|by apply Hd].
      rewrite Hother by done. simpl. by rewrite lookup_insert_eq.
    + intros c0 Hc0. apply not_elem_of_cons in Hc0 as [Hne Hc0].
      rewrite Hother by done. simpl. by rewrite lookup_insert_ne.
Qed.

End MachineFacts.

Section MachineSchedules.
Import PerformanceOptimizer.

Lemma run_app es1 : ∀ es2 m,
  run (es1 ++ es2) m = match run es1 m with
                       | Some m' => run es2 m'
                       | None => None
                       end.
Proof.
  induction es1 as [|e es1 IH]; intros es2 m; simpl; [done|].
  destruct (step e m); [apply IH|done].
Qed.

(** The passes of a load in the machine are the passes of the sequential
    loop: when the loop returns, that many [Attempt] events settle the
    promise with what the loop returns. *)
Lemma attempts_follow_loop p fuel :
  ∀ a last m ld r po',
    loads m !! p = Some ld →
    ld_state ld = Again a last →
    retry_loop fuel (ld_cfg ld) (ld_loader ld) a last (m_world m).1 = Some (r, po') →
    ∃ j m',
      (1 ≤ j ≤ fuel)%nat ∧
      run (repeat (Attempt p) j) m = Some m' ∧
      m_world m' = (po', (m_world m).2) ∧
      settled p m' = Some r ∧
      activeRequests m' = activeRequests m ∧
      waiting m' = waiting m ∧
      delivered m' = delivered m ∧
      length (loads m') = length (loads m).
Proof.
  induction fuel as [|fuel IH]; intros a last m ld r po' Hld Hst Hloop; [done|].
  simpl in Hloop.
  assert (Hp : (p < length (loads m))%nat) by (by eapply lookup_lt_Some).
  destruct (retry_iter (ld_cfg ld) (ld_loader ld) a last (m_world m).1)
    as [[r0|a' last'] po1] eqn:Hiter.
  - injection Hloop as <- <-. exists 1%nat. eexists. split; [lia|]. simpl.
    unfold attempt. rewrite Hld, Hst, Hiter. split; [reflexivity|]. simpl.
    split; [done|]. split; [|by rewrite length_insert].
    unfold settled. simpl. by rewrite list_lookup_insert_eq.
  - set (ld1 := {| ld_cfg := ld_cfg ld; ld_loader := ld_loader ld;
                   ld_state := Again a' last';
                   ld_invocations :=
                     ld_invocations ld + (invocations po1 - invocations (m_world m).1) |}).
    set (m1 := {| m_world := (po1, (m_world m).2);
                  activeRequests := activeRequests m;
                  loads := <[p := ld1]> (loads m);
                  waiting := waiting m; delivered := delivered m |}).
    destruct (IH a' last' m1 ld1 r po') as (j & m' & Hj & Hrun & Hw & Hs & Ha & Hwt & Hd & Hl).
    { simpl. by apply list_lookup_insert_eq. }
    { done. }
    { exact Hloop. }
    exists (S j), m'. split; [lia|]. simpl. unfold attempt at 1.
    rewrite Hld, Hst, Hiter. fold ld1 m1. rewrite Hrun.
    split; [done|]. split; [done|]. split; [done|].
    repeat split; try done. rewrite Hl. simpl. by rewrite length_insert.
Qed.

Lemma call_enabled c loader o now m :
  waiting m !! c = None → delivered m !! c = None →
  ∃ m', call c loader o now m = Some m' ∧
        ∀ c0, c0 ≠ c →
              waiting m' !! c0 = waiting m !! c0 ∧
              delivered m' !! c0 = delivered m !! c0.
Proof.
  intros Hw Hd. unfold call. rewrite Hw, Hd.
  destruct (lazy_lookup o now (m_world m)) as [cached w1].
  destruct (truthy cached).
  { eexists. split; [reflexivity|]. intros c0 Hc0. simpl.
    by rewrite lookup_insert_ne. }
  destruct (registered (truthy_key o) m).
  - eexists. split; [reflexivity|]. intros c0 Hc0. simpl.
    by rewrite lookup_insert_ne.
  - eexists. split; [reflexivity|]. intros c0 Hc0. simpl.
    by rewrite lookup_insert_ne.
Qed.

(** Callers that are not yet known to the machine can all enter. *)
Lemma calls_enabled (loaders : nat → loader_t) o now cs :
  ∀ m,
    NoDup cs →
    (∀ c, c ∈ cs → waiting m !! c = None ∧ delivered m !! c = None) →
    is_Some (run (map (λ c, Call c (loaders c) o now) cs) m).
Proof.
  induction cs as [|c cs IH]; intros m Hnd Hfresh; simpl; [eauto|].
  apply NoDup_cons in Hnd as [Hc Hnd].
  destruct (Hfresh c) as [Hw Hd]; [apply elem_of_cons; by left|].
  destruct (call_enabled c (loaders c) o now m Hw Hd) as (m' & -> & Hframe).
  apply IH; [done|]. intros c0 Hc0.
  destruct (Hframe c0) as [-> ->]; [by intros ->|].
  apply Hfresh. apply elem_of_cons. by right.
Qed.

Lemma callers_of_calls (loaders : nat → loader_t) o now cs p j :
  callers_of (map (λ c, Call c (loaders c) o now) cs ++ repeat (Attempt p) j) = cs.
Proof.
  unfold callers_of. rewrite flat_map_app.
  assert (H1 : ∀ l, flat_map (λ e, match e with Call c _ _ _ => [c] | _ => [] end)
                      (map (λ c, Call c (loaders c) o now) l) = l).
  { induction l as [|x l IHl]; simpl; [done|]. by rewrite IHl. }
  assert (H2 : flat_map (λ e, match e with Call c _ _ _ => [c] | _ => [] end)
                 (repeat (Attempt p) j) = []).
  { induction j as [|j IHj]; simpl; done. }
  by rewrite H1, H2, app_nil_r.
Qed.

Lemma joins_calls (loaders : nat → loader_t) o k now cs p j :
  truthy_key o = Some k →
  Forall (joins p k) (map (λ c, Call c (loaders c) o now) cs ++ repeat (Attempt p) j).
Proof.
  intros Hk. apply Forall_app. split.
  - apply Forall_forall. intros e He. apply list_elem_of_In, in_map_iff in He as (c & <- & _). done.
  - apply Forall_forall. intros e He. apply list_elem_of_In, repeat_spec in He as ->. done.
Qed.

(** For any number of callers there is a schedule of the shape the
    single-flight property speaks about: all of them enter, one after the
    other, and then the load of the first makes its passes until it has
    settled. *)
Theorem n_callers_schedule_runs (m0 : machine) (k : string) (c1 : nat)
    (rest : list nat) (loaders : nat → loader_t) (o : lazy_options) (now : Z) :
  machine_ok m0 →
  truthy_key o = Some k →
  activeRequests m0 !! k = None →
  served k now (m_world m0).2 = None →
  NoDup (c1 :: rest) →
  (∀ c, c ∈ c1 :: rest → waiting m0 !! c = None ∧ delivered m0 !! c = None) →
  ∃ j m1 r,
    let mid := map (λ c, Call c (loaders c) o now) rest
               ++ repeat (Attempt (length (loads m0))) j in
    run (Call c1 (loaders c1) o now :: mid) m0 = Some m1 ∧
    settled (length (loads m0)) m1 = Some r ∧
    Forall (joins (length (loads m0)) k) mid ∧
    callers_of mid = rest.
Proof.
  intros Hok Hk Hreg Hserved Hnd Hfresh.
  destruct (calls_enabled loaders o now (c1 :: rest) m0 Hnd Hfresh) as [mc Hcalls].
  simpl in Hcalls.
  destruct (call c1 (loaders c1) o now m0) as [ma|] eqn:Hcall; [|done].
  pose proof (call_starts_load _ _ _ _ _ _ _ Hok Hk Hreg Hserved Hcall) as F0.
  destruct (in_flight_run k _ c1 (loaders c1) _ _ _
              (map (λ c, Call c (loaders c) o now) rest) [] ma mc F0) as [F1 _].
  { pose proof (joins_calls loaders o k now rest (length (loads m0)) 0 Hk) as H.
    simpl in H. by rewrite app_nil_r in H. }
  { exact Hcalls. }
  destruct (fl_load _ _ _ _ _ _ _ _ _ F1) as (ld & Hld & _).
  assert (Hsettle : ∃ j m1 r,
    run (repeat (Attempt (length (loads m0))) j) mc = Some m1 ∧
    settled (length (loads m0)) m1 = Some r).
  { destruct (ld_state ld) as [r|a last] eqn:Hst.
    - exists 0%nat, mc, r. split; [done|]. unfold settled. by rewrite Hld, Hst.
    - destruct (retry_loop_total (ld_cfg ld) (ld_loader ld)
                  (Z.to_nat (cfg_maxRetries (ld_cfg ld) + 2 - a)) a last (m_world mc).1
                  (S (Z.to_nat (cfg_maxRetries (ld_cfg ld) + 2 - a)))) as [[r po'] Hloop];
        [lia|lia|].
      destruct (attempts_follow_loop _ _ _ _ _ _ _ _ Hld Hst Hloop)
        as (j & m1 & _ & Hrun & _ & Hs & _).
      by exists j, m1, r. }
  destruct Hsettle as (j & m1 & r & Hrun & Hs).
  exists j, m1, r. cbv zeta. split.
  - simpl. rewrite Hcall. rewrite run_app, Hcalls. exact Hrun.
  - split; [exact Hs|]. split; [by apply joins_calls | apply callers_of_calls].
Qed.

Lemma n_callers_schedule_runs_witness :
  ∃ j m1 r,
    run (Call 0 flaky_loader services_key 0
           :: map (λ c, Call c other_loader services_key 0) [1; 2; 3]%nat
              ++ repeat (Attempt 0) j) loaded_page = Some m1 ∧
    settled 0 m1 = Some r.
Proof.
  destruct (n_callers_schedule_runs loaded_page "services_" 0 [1; 2; 3]%nat
              (λ c, if (c =? 0)%nat then flaky_loader else other_loader)
              services_key 0) as (j & m1 & r & Hrun & Hs & _).
  - apply boot_ok.
  - reflexivity.
  - reflexivity.
  - reflexivity.
  - apply (bool_decide_unpack (NoDup [0; 1; 2; 3]%nat)). reflexivity.
  - intros c _. split; reflexivity.
  - exists j, m1, r. split; [exact Hrun | exact Hs].
Defined.

(** At most one load per key is in flight, in every state the machine can
    reach: two callers that have started a load under the same key and have
    not resumed yet are the same caller, awaiting the same promise. *)
Theorem at_most_one_load_in_flight (w : world) (es : list event) (m : machine)
    (k : string) (c c' p p' : nat) (ttl ttl' : option Z) :
  run es (boot w) = Some m →
  waiting m !! c = Some (Starter p (Some k) ttl) →
  waiting m !! c' = Some (Starter p' (Some k) ttl') →
  c = c' ∧ p = p'.
Proof.
  intros Hrun H1 H2.
  pose proof (run_ok es _ _ (boot_ok w) Hrun) as Hok.
  pose proof (ok_starter _ Hok _ _ _ _ H1) as R1.
  pose proof (ok_starter _ Hok _ _ _ _ H2) as R2.
  assert (p = p') as <- by congruence.
  split; [|done]. by eapply (ok_one_starter _ Hok).
Qed.

Lemma at_most_one_load_in_flight_witness :
  ∃ m,
    run [Call 0 flaky_loader services_key 0; Call 1 other_loader services_key 1]
      loaded_page = Some m ∧
    waiting m !! 0%nat = Some (Starter 0 (Some "services_") None) ∧
    waiting m !! 1%nat = Some (Joiner 0) ∧
    (0 = 0 ∧ 0 = 0)%nat.
Proof.
  eexists. split; [reflexivity|]. split; [reflexivity|]. split; [reflexivity|].
  exact (at_most_one_load_in_flight (new, Some CacheManager.new)
           [Call 0 flaky_loader services_key 0; Call 1 other_loader services_key 1]
           _ "services_" 0 0 0 0 None None eq_refl eq_refl eq_refl).
Defined.

(** The sequential [lazyLoad] is the machine run by a lone caller: on a
    cache hit the call alone delivers the result; otherwise the call, the
    passes of the load and the caller's resumption deliver what [lazyLoad]
    returns, leave the world as [lazyLoad] leaves it, and leave the registry
    empty. *)
Theorem lazyLoad_is_lone_caller_schedule (w : world) (c : nat) (loader : loader_t)
    (o : lazy_options) (t_read t_write : Z) (r : jsval + error) (w' : world) :
  lazyLoad loader o None t_read t_write w = Some (r, w') →
  (∃ m', run [Call c loader o t_read] (boot w) = Some m' ∧
         delivered m' !! c = Some r ∧ m_world m' = w') ∨
  (∃ j m', run (Call c loader o t_read :: repeat (Attempt 0) j ++ [Resume c t_write])
             (boot w) = Some m' ∧
           delivered m' !! c = Some r ∧ m_world m' = w' ∧
           activeRequests m' = ∅).
Proof.
  unfold lazyLoad. intros H.
  destruct (lazy_lookup o t_read w) as [cached [po1 cm1]] eqn:Hl.
  destruct (truthy cached) eqn:T.
  - injection H as <- <-. left. eexists. simpl. unfold call. simpl.
    rewrite !lookup_empty, Hl, T. split; [reflexivity|]. simpl.
    by rewrite lookup_insert_eq.
  - right.
    assert (Hload :
      match withRetry loader {| opt_maxRetries := None; opt_baseDelay := None;
                                opt_timeout := lazyTimeout o |} po1 with
      | None => None
      | Some (r0, po2) =>
          Some (r0, (po2, lazy_store (truthy_key o) (cacheTTL o) t_write r0 cm1))
      end = Some (r, w')).
    { by destruct (truthy_key o). }
    clear H.
    destruct (withRetry loader _ po1) as [[r0 po2]|] eqn:Hr; [|done].
    injection Hload as -> <-.
    set (ld0 := {| ld_cfg := make_config po1
                               {| opt_maxRetries := None; opt_baseDelay := None;
                                  opt_timeout := lazyTimeout o |};
                   ld_loader := loader; ld_state := Again 1 None;
                   ld_invocations := 0 |}).
    set (ma := {| m_world := (po1, cm1);
                  activeRequests :=
                    match truthy_key o with
                    | Some k => <[k := 0%nat]> ∅
                    | None => ∅
                    end;
                  loads := [ld0];
                  waiting := <[c := Starter 0 (truthy_key o) (cacheTTL o)]> ∅;
                  delivered := ∅ |}).
    assert (Hcall : call c loader o t_read (boot w) = Some ma).
    { unfold call. simpl. rewrite !lookup_empty, Hl, T.
      assert (registered (truthy_key o) (boot w) = None) as ->.
      { unfold registered. destruct (truthy_key o); [apply lookup_empty|done]. }
      reflexivity. }
    destruct (attempts_follow_loop 0 _ 1 None ma ld0 r po2 eq_refl eq_refl Hr)
      as (j & mb & _ & Hrun & Hw & Hs & Ha & Hwt & Hd & _).
    exists j. eexists. simpl. rewrite Hcall. rewrite run_app, Hrun. simpl.
    unfold resume. rewrite Hwt. simpl. rewrite lookup_insert_eq, Hs.
    split; [reflexivity|]. simpl. rewrite Hw, Hd, Ha. simpl.
    split; [by rewrite lookup_insert_eq|]. split; [done|].
    destruct (truthy_key o); [|done]. by rewrite delete_insert_eq, delete_empty.
Qed.

Lemma lazyLoad_is_lone_caller_schedule_witness :
  ∃ j m',
    run (Call 7 flaky_loader services_key 0 :: repeat (Attempt 0) j ++ [Resume 7 2000])
      loaded_page = Some m' ∧
    delivered m' !! 7%nat = Some (inl (JArr [JStr "buffet"])) ∧
    activeRequests m' = ∅.
Proof.
  destruct (lazyLoad flaky_loader services_key None 0 2000
              (new, Some CacheManager.new)) as [[r w']|] eqn:E;
    [|vm_compute in E; discriminate].
  assert (Hr : r = inl (JArr [JStr "buffet"])).
  { assert (E' : option_map fst (lazyLoad flaky_loader services_key None 0 2000
                                   (new, Some CacheManager.new))
                 = Some (inl (JArr [JStr "buffet"]))) by (vm_compute; reflexivity).
    rewrite E in E'. by injection E'. }
  destruct (lazyLoad_is_lone_caller_schedule (new, Some CacheManager.new) 7
              flaky_loader services_key 0 2000 r w' E)
    as [(m' & Hrun & Hd & _)|(j & m' & Hrun & Hd & _ & Ha)].
  - exfalso. vm_compute in Hrun. injection Hrun as <-.
    vm_compute in Hd. discriminate.
  - exists j, m'. rewrite <- Hr. split; [exact Hrun|]. split; [exact Hd | exact Ha].
Defined.

End MachineSchedules.

Section SingleFlightClaims.
Import PerformanceOptimizer.

(** C2 (amended).  Let a caller ask [lazyLoad] for a non-empty key [k]
    while no load for [k] is registered and the cache serves nothing for
    [k]; let further callers ask for [k], in any interleaving with the
    passes of the load that the first caller started, until that load has
    settled with outcome [r].  Then the whole schedule has started exactly
    one load, with the first caller's loader; that loader has been invoked
    once per attempt of this load, at most [maxRetries + 1] times and
    exactly once when its first attempt succeeds, and no other loader has
    been invoked at all; on resuming, every one of the callers receives that
    same [r], a failure as much as a value; and the key is unregistered once
    the first caller has resumed. *)
Theorem single_flight (m0 : machine) (k : string) (c1 : nat) (l1 : loader_t)
    (o1 : lazy_options) (t1 t2 : Z) (mid : list event) (m1 : machine)
    (r : jsval + error) :
  machine_ok m0 →
  truthy_key o1 = Some k →
  activeRequests m0 !! k = None →
  served k t1 (m_world m0).2 = None →
  Forall (joins (length (loads m0)) k) mid →
  run (Call c1 l1 o1 t1 :: mid) m0 = Some m1 →
  settled (length (loads m0)) m1 = Some r →
  ∃ m2 ld,
    run (map (λ c, Resume c t2) (c1 :: callers_of mid)) m1 = Some m2 ∧
    length (loads m2) = S (length (loads m0)) ∧
    loads m2 !! length (loads m0) = Some ld ∧
    ld_loader ld = l1 ∧
    ld_state ld = Finished r ∧
    invocations (m_world m2).1
      = (invocations (m_world m0).1 + ld_invocations ld)%nat ∧
    (ld_invocations ld ≤ Z.to_nat (maxRetries (retryConfig (m_world m0).1) + 1))%nat ∧
    (∀ v, l1 1 = Fulfil v → 0 ≤ maxRetries (retryConfig (m_world m0).1) →
          ld_invocations ld = 1%nat) ∧
    (∀ c, c ∈ c1 :: callers_of mid → delivered m2 !! c = Some r) ∧
    activeRequests m2 !! k = None.
Proof.
  intros Hok Hk Hreg Hserved Hmid Hrun Hs. simpl in Hrun.
  destruct (call c1 l1 o1 t1 m0) as [ma|] eqn:Hcall; [|done].
  pose proof (call_starts_load _ _ _ _ _ _ _ Hok Hk Hreg Hserved Hcall) as F0.
  destruct (in_flight_run k _ c1 l1 _ _ _ mid [] ma m1 F0 Hmid Hrun) as [F1 Hlen1].
  simpl in F1.
  destruct (resume_starter _ _ _ _ _ _ _ _ _ r t2 F1 Hs)
    as (mb & Hres & Hd1 & Hunreg & Hlb & Hwb1 & _ & Hjb).
  destruct (resume_joiners (length (loads m0)) r t2 (callers_of mid) mb)
    as (m2 & Hrun2 & Hd & Hother & Ha & Hl2 & Hw2).
  { apply (fl_distinct _ _ _ _ _ _ _ _ _ F1). }
  { exact Hjb. }
  { unfold settled in *. by rewrite Hlb. }
  destruct (fl_load _ _ _ _ _ _ _ _ _ F1) as (ld & Hld & Hl1 & Hcfg & Hinv).
  pose proof (ok_loads _ (fl_ok _ _ _ _ _ _ _ _ _ F1) _ _ Hld) as Hlok.
  assert (Hst : ld_state ld = Finished r).
  { unfold settled in Hs. rewrite Hld in Hs. by destruct (ld_state ld) as [r'|]; [injection Hs as ->|]. }
  unfold load_ok in Hlok. rewrite Hst, Hcfg in Hlok. destruct Hlok as (Hb1 & Hb2 & Hb3).
  exists m2, ld. simpl. rewrite Hres.
  split; [exact Hrun2|].
  split; [rewrite Hl2, Hlb; apply (fl_one_load _ _ _ _ _ _ _ _ _ F1)|].
  split; [by rewrite Hl2, Hlb|].
  split; [done|]. split; [done|].
  split; [by rewrite Hw2, Hwb1|].
  split; [done|].
  split.
  { intros v Hv HM. specialize (Hb2 HM).
    destruct (decide (2 ≤ ld_invocations ld)%nat) as [H2|H2]; [|lia].
    specialize (Hb3 H2). rewrite Hl1, Hv in Hb3. done. }
  split; [|by rewrite Ha].
  intros c Hc. apply elem_of_cons in Hc as [->|Hc]; [|by apply Hd].
  rewrite Hother; [done|]. intros Hin.
  pose proof (fl_joiners _ _ _ _ _ _ _ _ _ F1 c1 Hin) as Hj1.
  rewrite (fl_starter _ _ _ _ _ _ _ _ _ F1) in Hj1. done.
Qed.

Lemma single_flight_witness :
  ∃ m1 m2,
    run (Call 0 flaky_loader services_key 0 :: three_callers) loaded_page = Some m1 ∧
    run (map (λ c, Resume c 5000) [0; 1; 2]%nat) m1 = Some m2 ∧
    length (loads m2) = 1%nat ∧
    (invocations (m_world m2).1 ≤ 4)%nat ∧
    (∀ c, c ∈ [0; 1; 2]%nat → delivered m2 !! c = Some (inl (JArr [JStr "buffet"]))) ∧
    activeRequests m2 !! "services_" = None.
Proof.
  destruct (run (Call 0 flaky_loader services_key 0 :: three_callers) loaded_page)
    as [m1|] eqn:Hrun; [|vm_compute in Hrun; discriminate].
  assert (Hs : settled 0 m1 = Some (inl (JArr [JStr "buffet"]))).
  { assert (E : option_map (settled 0)
                  (run (Call 0 flaky_loader services_key 0 :: three_callers) loaded_page)
                = Some (Some (inl (JArr [JStr "buffet"])))) by (vm_compute; reflexivity).
    rewrite Hrun in E. simpl in E. by injection E. }
  destruct (single_flight loaded_page "services_" 0 flaky_loader services_key 0 5000
              three_callers m1 (inl (JArr [JStr "buffet"])))
    as (m2 & ld & Hres & Hlen & Hld & _ & _ & Hinv & Hle & Hfirst & Hdel & Hreg).
  - apply boot_ok.
  - reflexivity.
  - reflexivity.
  - reflexivity.
  - repeat constructor.
  - exact Hrun.
  - exact Hs.
  - exists m1, m2. split; [reflexivity|]. split; [exact Hres|].
    split; [exact Hlen|]. split; [|split; [exact Hdel | exact Hreg]].
    rewrite Hinv. simpl in Hle. simpl. lia.
Defined.

(** C2, as stated, fails in its count and in its quantifier.  The loader is
    wrapped in the retry executor: with one caller and a loader that always
    rejects it is invoked four times, not once.  And the key is tested for
    truthiness: two callers that pass the empty string are not deduplicated,
    each starts its own load. *)
Lemma single_flight_not_for_every_key_nor_once :
  option_map (λ m, (length (loads m), invocations (m_world m).1,
                    delivered m !! 0%nat))
    (run one_caller_offline loaded_page)
  = Some (1%nat, 4%nat,
          Some (inr (Rejection (JObj [("message", JStr "offline")])))) ∧
  option_map (λ m, (length (loads m), invocations (m_world m).1))
    (run two_callers_empty_key loaded_page)
  = Some (2%nat, 2%nat).
Proof. split; vm_compute; reflexivity. Qed.

End SingleFlightClaims.

(** ** Further properties: the cache statistics and the capacity *)

Section CacheCapacityFacts.
Import CacheManager.

Lemma size_filter_split (now : Z) (m : gmap string entry) :
  size m =
  (size (filter (λ kv : string * entry, isExpired now kv.2 = false) m)
   + size (filter (λ kv : string * entry, isExpired now kv.2 = true) m))%nat.
Proof.
  assert (E : filter (λ kv : string * entry, isExpired now kv.2 = true) m
              = filter (λ kv : string * entry, ¬ (isExpired now kv.2 = false)) m).
  { apply map_filter_ext. intros k e _. simpl.
    destruct (isExpired now e); split; congruence. }
  rewrite E, <- map_size_disj_union.
  - by rewrite map_filter_union_complement.
  - apply map_disjoint_filter_complement.
Qed.

Lemma filter_valid_idem (now : Z) (m : gmap string entry) :
  filter (λ kv : string * entry, isExpired now kv.2 = false)
    (filter (λ kv : string * entry, isExpired now kv.2 = false) m)
  = filter (λ kv : string * entry, isExpired now kv.2 = false) m.
Proof.
  apply map_filter_id. intros k e H.
  apply map_lookup_filter_Some in H as [_ H]. exact H.
Qed.

Lemma filter_expired_of_valid (now : Z) (m : gmap string entry) :
  filter (λ kv : string * entry, isExpired now kv.2 = true)
    (filter (λ kv : string * entry, isExpired now kv.2 = false) m) = ∅.
Proof.
  apply map_empty_filter_2. intros k e H He. simpl in He.
  apply map_lookup_filter_Some in H as [_ H]. simpl in H. congruence.
Qed.

(** [getStats()] counts every entry once: its total is the number of valid
    entries plus the number of expired ones.  A sweep at the same clock
    leaves exactly the valid entries, none of them expired, and it removes
    nothing when nothing had expired. *)
Theorem getStats_partition (now : Z) (cm : t) :
  let s := getStats now cm in
  CacheManager.total s = (valid s + expired s)%nat ∧
  getStats now (cleanup now cm)
  = {| CacheManager.total := valid s; valid := valid s; expired := 0;
       statsMaxSize := maxSize cm |} ∧
  (expired s = 0%nat → cache (cleanup now cm) = cache cm).
Proof.
  simpl. split; [apply size_filter_split|]. split.
  - unfold getStats, cleanup. cbn [with_cache cache maxSize].
    by rewrite filter_valid_idem, filter_expired_of_valid, map_size_empty.
  - intros H. apply map_size_empty_inv in H.
    apply cleanup_all_valid. intros k e Hk.
    destruct (isExpired now e) eqn:E; [|done].
    assert (Hf : filter (λ kv : string * entry, isExpired now kv.2 = true) (cache cm)
                 !! k = Some e) by (by apply map_lookup_filter_Some).
    rewrite H in Hf. by rewrite lookup_empty in Hf.
Qed.

Lemma size_insert_le (m : gmap string entry) k e :
  (size (<[ k := e ]> m) ≤ S (size m))%nat.
Proof.
  destruct (m !! k) eqn:E.
  - rewrite map_size_insert_Some; [lia|done].
  - rewrite map_size_insert_None; [lia|done].
Qed.

(** The capacity holds across a write whenever there is room or room can be
    made: if the cache has at most [maxSize] entries and it is not full, or
    it already has the key, or at least one of its entries has expired (so
    that the sweep of [set] removes it), then it has at most [maxSize]
    entries after [set]. *)
Theorem set_respects_capacity (k : string) (v : jsval) (d : option Z) (now : Z)
    (cm : t) :
  (size (cache cm) ≤ maxSize cm)%nat →
  (size (cache cm) < maxSize cm)%nat ∨ is_Some (cache cm !! k) ∨
    (0 < expired (getStats now cm))%nat →
  (size (cache (set k v d now cm)) ≤ maxSize cm)%nat.
Proof.
  intros Hle Hroom. unfold set.
  destruct (decide (maxSize cm ≤ size (cache cm))%nat) as [Hfull|Hfree].
  - cbn [with_cache cache maxSize].
    pose proof (size_filter_split now (cache cm)) as Hsplit.
    destruct (Nat.eq_dec
                (size (filter (λ kv : string * entry, isExpired now kv.2 = true)
                         (cache cm))) 0%nat) as [Hnone|Hsome].
    + destruct Hroom as [Hlt|[Hk|Hexp]]; [lia| |simpl in Hexp; lia].
      apply map_size_empty_inv in Hnone.
      assert (Hsame : cache (cleanup now cm) = cache cm).
      { apply cleanup_all_valid. intros k' e Hk'.
        destruct (isExpired now e) eqn:E; [|done].
        assert (Hf : filter (λ kv : string * entry, isExpired now kv.2 = true)
                       (cache cm) !! k' = Some e)
          by (by apply map_lookup_filter_Some).
        rewrite Hnone in Hf. by rewrite lookup_empty in Hf. }
      rewrite Hsame. destruct Hk as [e He].
      rewrite map_size_insert_Some; [lia|done].
    + pose proof (size_insert_le (cache (cleanup now cm)) k
                    {| data := v; timestamp := now;
                       ttl := default (defaultTTL cm) d |}) as Hins.
      unfold cleanup in *. cbn [with_cache cache] in *. lia.
  - pose proof (size_insert_le (cache cm) k
                  {| data := v; timestamp := now;
                     ttl := default (defaultTTL cm) d |}) as Hins.
    cbn [with_cache cache maxSize]. lia.
Qed.

Lemma set_respects_capacity_witness :
  (size (cache (set "b" (JNum 2) None 400000
                  (with_cache {| cache := ∅; defaultTTL := 300000; maxSize := 1 |}
                     {[ "a"%string := {| data := JNum 1; timestamp := 0; ttl := 300000 |} ]})))
   ≤ 1)%nat.
Proof.
  apply (set_respects_capacity "b" (JNum 2) None 400000
           (with_cache {| cache := ∅; defaultTTL := 300000; maxSize := 1 |}
              {[ "a"%string := {| data := JNum 1; timestamp := 0; ttl := 300000 |} ]})).
  - vm_compute. lia.
  - right. right. vm_compute. lia.
Defined.

End CacheCapacityFacts.

(** ** Further properties: throttle and debounce *)

Section RateLimitFacts.
Import RateLimit.
Context {A : Type}.

Lemma throttle_run_spaced (delay : Z) (calls : list (Z * A)) (lastCall : Z) :
  0 ≤ delay →
  let times := map fst (throttle_run delay calls lastCall) in
  Forall (λ t, delay ≤ t - lastCall) times ∧
  ∀ (i j : nat) (t1 t2 : Z),
    (i < j)%nat → times !! i = Some t1 → times !! j = Some t2 →
    delay ≤ t2 - t1.
Proof.
  intros Hd. revert lastCall.
  induction calls as [|[now args] rest IH]; intros lastCall; simpl.
  - split; [constructor|]. intros i j t1 t2 _ H. by rewrite lookup_nil in H.
  - unfold throttle. destruct (now - lastCall >=? delay) eqn:E.
    + apply Z.geb_le in E. destruct (IH now) as [IH1 IH2]. simpl. split.
      * constructor; [lia|].
        eapply Forall_impl; [exact IH1|]. simpl. intros t Ht. lia.
      * intros i j t1 t2 Hij H1 H2.
        destruct j as [|j]; [lia|]. simpl in H2.
        destruct i as [|i]; simpl in H1.
        -- injection H1 as <-.
           exact (Forall_lookup_1 _ _ _ _ IH1 H2).
        -- apply (IH2 i j); [lia|done|done].
    + apply IH.
Qed.

Lemma throttle_run_sublist (delay : Z) (calls : list (Z * A)) (lastCall : Z) :
  sublist (throttle_run delay calls lastCall) calls.
Proof.
  revert lastCall. induction calls as [|[now args] rest IH]; intros lastCall; simpl.
  - constructor.
  - unfold throttle. destruct (now - lastCall >=? delay).
    + by constructor.
    + by constructor.
Qed.

(** [throttle]: the wrapped function is applied only to the arguments of
    calls that were made, in the order of the calls; nothing is applied
    before the clock reads [delay]; and any two applications are at least
    [delay] apart, whatever the calls in between. *)
Theorem throttle_spacing (delay : Z) (calls : list (Z * A)) :
  0 ≤ delay →
  let run := throttle_run delay calls 0 in
  sublist run calls ∧
  Forall (λ t, delay ≤ t) (map fst run) ∧
  ∀ (i j : nat) (t1 t2 : Z),
    (i < j)%nat → map fst run !! i = Some t1 → map fst run !! j = Some t2 →
    delay ≤ t2 - t1.
Proof.
  intros Hd run. split; [apply throttle_run_sublist|].
  destruct (throttle_run_spaced delay calls 0 Hd) as [H1 H2]. split; [|exact H2].
  eapply Forall_impl; [exact H1|]. simpl. intros t Ht. lia.
Qed.

Lemma debounce_run_app (delay : Z) (es1 es2 : list (debounce_event A))
    (s : debounced A) :
  debounce_run delay (es1 ++ es2) s =
  match debounce_run delay es1 s with
  | Some s1 => debounce_run delay es2 s1
  | None => None
  end.
Proof.
  revert s. induction es1 as [|e es1 IH]; intros s; simpl; [done|].
  destruct (debounce delay e s); [apply IH|done].
Qed.

Lemma debounce_burst (delay : Z) (burst : list (debounce_event A))
    (s : debounced A) :
  Forall is_invoke burst →
  ∃ s', debounce_run delay burst s = Some s' ∧ applied s' = applied s.
Proof.
  intros H. revert s. induction H as [|e burst He _ IH]; intros s; simpl.
  - by exists s.
  - destruct e as [now args|now]; [|done]. simpl.
    destruct (IH {| timer := Some (now + Z.max delay 0, args);
                    applied := applied s |}) as (s' & Hr & Ha).
    exists s'. by split.
Qed.

Lemma debounce_run_count (delay : Z) (es : list (debounce_event A))
    (s s' : debounced A) :
  debounce_run delay es s = Some s' →
  (length (applied s') + match timer s' with Some _ => 1 | None => 0 end
   ≤ length (applied s) + match timer s with Some _ => 1 | None => 0 end
     + length (invokes es))%nat.
Proof.
  revert s. induction es as [|e es IH]; intros s; simpl.
  - intros [= <-]. lia.
  - destruct e as [now args|now]; simpl.
    + intros H. apply IH in H. simpl in H. destruct (timer s); lia.
    + destruct (timer s) as [[due args]|] eqn:Et; [|done].
      destruct (due <=? now); [|done].
      intros H. apply IH in H. simpl in H. rewrite length_app in H. simpl in H. lia.
Qed.

Lemma debounce_run_applied (delay : Z) (es : list (debounce_event A))
    (s s' : debounced A) :
  debounce_run delay es s = Some s' →
  ∀ t' a, (t', a) ∈ applied s' →
    (t', a) ∈ applied s ∨
    (∃ t, (t, a) ∈ invokes es ∧ t + Z.max delay 0 ≤ t') ∨
    (∃ due, timer s = Some (due, a) ∧ due ≤ t').
Proof.
  revert s. induction es as [|e es IH]; intros s; simpl.
  - intros [= <-] t' a H. by left.
  - destruct e as [now args|now]; simpl.
    + intros H t' a Hin. destruct (IH _ H t' a Hin) as [Ha|[(t & Ht & Hle)|(due & Hd & Hle)]].
      * by left.
      * right. left. exists t. split; [|done]. by apply elem_of_cons; right.
      * simpl in Hd. injection Hd as <- <-. right. left. exists now.
        split; [apply elem_of_cons; by left|done].
    + destruct (timer s) as [[due args]|] eqn:Et; [|done].
      destruct (due <=? now) eqn:Ed; [|done]. apply Z.leb_le in Ed.
      intros H t' a Hin. destruct (IH _ H t' a Hin) as [Ha|[(t & Ht & Hle)|(due' & Hd & Hle)]].
      * simpl in Ha. apply elem_of_app in Ha as [Ha|Ha]; [by left|].
        apply list_elem_of_singleton in Ha. injection Ha as -> ->.
        right. right. by exists due.
      * right. left. by exists t.
      * done.
Qed.

(** [debounce]: when a burst of calls is followed by the timer, the wrapped
    function is applied once, to the arguments of the last call of the
    burst, and that only when [delay] has passed since that call.  Over any
    schedule it is applied at most once per call made, each time to the
    arguments of a call made at least [delay] earlier. *)
Theorem debounce_applies_last_call (delay : Z) :
  (∀ (burst : list (debounce_event A)) (now : Z) (args : A) (now' : Z)
     (s : debounced A),
     Forall is_invoke burst →
     debounce_run delay (burst ++ [Invoke now args; Expire now']) s
     = if now + Z.max delay 0 <=? now'
       then Some {| timer := None; applied := applied s ++ [(now', args)] |}
       else None) ∧
  (∀ (es : list (debounce_event A)) (s' : debounced A),
     debounce_run delay es debounce_new = Some s' →
     (length (applied s') ≤ length (invokes es))%nat ∧
     ∀ t' a, (t', a) ∈ applied s' →
       ∃ t, (t, a) ∈ invokes es ∧ t + Z.max delay 0 ≤ t').
Proof.
  split.
  - intros burst now args now' s Hb.
    destruct (debounce_burst delay burst s Hb) as (s1 & Hr & Ha).
    rewrite debounce_run_app, Hr. simpl. rewrite Ha.
    by destruct (now + Z.max delay 0 <=? now').
  - intros es s' H. split.
    + apply debounce_run_count in H. simpl in H. lia.
    + intros t' a Hin.
      destruct (debounce_run_applied delay es _ _ H t' a Hin)
        as [Ha|[Ht|(due & Hd & _)]]; [|done|done].
      simpl in Ha. by apply elem_of_nil in Ha.
Qed.

End RateLimitFacts.

Lemma throttle_spacing_witness :
  RateLimit.throttle_run 1000 [(5000, "a"); (5400, "b"); (6000, "c"); (6100, "d")]%string 0
  = [(5000, "a"); (6000, "c")]%string ∧
  Forall (λ t, 1000 ≤ t)
    (map fst (RateLimit.throttle_run 1000
                [(5000, "a"); (5400, "b"); (6000, "c"); (6100, "d")]%string 0)).
Proof.
  split; [reflexivity|].
  apply (throttle_spacing 1000 [(5000, "a"); (5400, "b"); (6000, "c"); (6100, "d")]%string).
  lia.
Defined.

Lemma debounce_applies_last_call_witness :
  RateLimit.debounce_run 300
    [RateLimit.Invoke 0 "b"; RateLimit.Invoke 100 "bu"; RateLimit.Invoke 250 "buf";
     RateLimit.Expire 550]%string RateLimit.debounce_new
  = Some {| RateLimit.timer := None; RateLimit.applied := [(550, "buf")]%string |}.
Proof.
  assert (Hb : Forall RateLimit.is_invoke
                 [RateLimit.Invoke 0 "b"; RateLimit.Invoke 100 "bu"]%string)
    by (repeat constructor).
  exact (proj1 (debounce_applies_last_call 300) _ 250 "buf"%string 550
           RateLimit.debounce_new Hb).
Defined.

(** ** Further properties: the caching strategies *)

Section SmartCacheFacts.
Import PerformanceOptimizer.

Lemma footprint_refl key t d c : footprint key t d c (Some c).
Proof. exists c. repeat split; auto. Qed.

Lemma footprint_trans key t d c c1 cm2 :
  footprint key t d c (Some c1) → footprint key t d c1 cm2 →
  footprint key t d c cm2.
Proof.
  intros (c1' & [= <-] & Hd1 & Hm1 & H1) (c2 & -> & Hd2 & Hm2 & H2).
  exists c2. split; [done|]. split; [congruence|]. split; [congruence|].
  intros k e Hk. destruct (H2 k e Hk) as [H|H]; [|by right]. by apply H1.
Qed.

Lemma footprint_get key t d c now :
  footprint key t d c (Some (CacheManager.get key now c).2).
Proof.
  eexists. split; [done|].
  assert (Hsame : CacheManager.defaultTTL (CacheManager.get key now c).2
                  = CacheManager.defaultTTL c ∧
                  CacheManager.maxSize (CacheManager.get key now c).2
                  = CacheManager.maxSize c).
  { unfold CacheManager.get. destruct (CacheManager.cache c !! key) as [e|]; [|done].
    by destruct (CacheManager.isExpired now e). }
  destruct Hsame as [-> ->]. repeat split.
  intros k e Hk. left. by apply (get_no_new_entry key now).
Qed.

Lemma footprint_set key v d t c :
  truthy v = true →
  footprint key t (default (CacheManager.defaultTTL c) d) c
    (Some (CacheManager.set key v d t c)).
Proof.
  intros Hv. eexists. split; [done|]. unfold CacheManager.set.
  destruct (decide (CacheManager.maxSize c ≤ size (CacheManager.cache c))%nat);
    cbn [CacheManager.with_cache CacheManager.cache CacheManager.defaultTTL
         CacheManager.maxSize CacheManager.cleanup]; (split; [done|]); (split; [done|]);
    intros k e Hk; (destruct (decide (k = key)) as [->|Hne];
      [rewrite lookup_insert_eq in Hk; injection Hk as <-; by right
      |rewrite lookup_insert_ne in Hk by done]).
  - left. by apply map_lookup_filter_Some in Hk as [Hk _].
  - by left.
Qed.

Lemma footprint_put key v d t c :
  footprint key t (default (CacheManager.defaultTTL c) d) c
    (cache_put key v d t (Some c)).
Proof.
  unfold cache_put. destruct (truthy v) eqn:T.
  - by apply footprint_set.
  - apply footprint_refl.
Qed.

Lemma footprint_get_put key v d t now c :
  footprint key t d c
    (cache_put key v (Some d) t (Some (CacheManager.get key now c).2)).
Proof.
  eapply footprint_trans; [apply (footprint_get key t d c now)|].
  apply (footprint_put key v (Some d) t).
Qed.

Lemma footprint_cacheFirst key loader d t1 t2 po c r po' cm' :
  cacheFirst key loader (Some d) t1 t2 (po, Some c) = Some (r, (po', cm')) →
  footprint key t2 d c cm'.
Proof.
  unfold cacheFirst, cache_get. cbn [fst snd].
  destruct (truthy (CacheManager.get key t1 c).1).
  - intros [= _ _ <-]. apply footprint_get.
  - destruct (withRetry loader no_options (count_cacheMiss po)) as [[[v|e] po1]|];
      [| |done]; intros [= _ _ <-].
    + apply footprint_get_put.
    + apply footprint_get.
Qed.

Lemma footprint_networkFirst key loader d t2 po c r po' cm' :
  networkFirst key loader (Some d) t2 (po, Some c) = Some (r, (po', cm')) →
  footprint key t2 d c cm'.
Proof.
  unfold networkFirst, cache_get. cbn [fst snd].
  destruct (withRetry loader _ po) as [[[v|e] po1]|]; [| |done].
  - intros [= _ _ <-]. apply (footprint_put key v (Some d) t2).
  - destruct (truthy (CacheManager.get key t2 c).1); intros [= _ _ <-];
      apply footprint_get.
Qed.

Lemma footprint_staleWhileRevalidate key loader d t1 t2 po c r po' cm' :
  staleWhileRevalidate key loader (Some d) t1 t2 (po, Some c) = Some (r, (po', cm')) →
  footprint key t2 d c cm'.
Proof.
  unfold staleWhileRevalidate, cache_get. cbn [fst snd].
  destruct (truthy (CacheManager.get key t1 c).1).
  - destruct (withRetry loader no_options (count_cacheHit po)) as [[[v|e] po1]|];
      [| |done]; intros [= _ _ <-].
    + apply footprint_get_put.
    + apply footprint_get.
  - destruct (withRetry loader no_options (count_cacheMiss po)) as [[[v|e] po1]|];
      [| |done]; intros [= _ _ <-].
    + apply footprint_get_put.
    + apply footprint_get.
Qed.

(** What [smartCache] leaves in the cache, whatever the strategy: every
    entry was there before the call, or lies under the key of the call, was
    written when the load settled and holds a truthy value with the time to
    live [options.ttl || 300000], which is never 0. *)
Theorem smartCache_footprint (key : string) (loader : loader_t)
    (strategy : option string) (ttl : option Z) (t_read t_write : Z)
    (po po' : t) (c : CacheManager.t) (r : jsval + error)
    (cm' : option CacheManager.t) :
  smartCache key loader strategy ttl t_read t_write (po, Some c)
    = Some (r, (po', cm')) →
  ∃ c', cm' = Some c' ∧
    ∀ k e, CacheManager.cache c' !! k = Some e →
      CacheManager.cache c !! k = Some e ∨
      (k = key ∧ CacheManager.timestamp e = t_write ∧
       CacheManager.ttl e = or_default ttl 300000 ∧
       CacheManager.ttl e ≠ 0 ∧
       truthy (CacheManager.data e) = true).
Proof.
  intros H.
  assert (Hf : footprint key t_write (or_default ttl 300000) c cm').
  { unfold smartCache in H.
    repeat case_match;
      eauto using footprint_cacheFirst, footprint_networkFirst,
                  footprint_staleWhileRevalidate. }
  destruct Hf as (c' & -> & _ & _ & Hf). exists c'. split; [done|].
  intros k e Hk. destruct (Hf k e Hk) as [Hold|(-> & Ht & Hd & Hv)]; [by left|].
  right. repeat split; try done. rewrite Hd. unfold or_default.
  destruct ttl as [n|]; [|done]. destruct (n =? 0) eqn:E; [done|].
  by apply Z.eqb_neq in E.
Qed.

Lemma get_keeps_defaultTTL key now c :
  CacheManager.defaultTTL (CacheManager.get key now c).2 = CacheManager.defaultTTL c.
Proof.
  unfold CacheManager.get. destruct (CacheManager.cache c !! key) as [e|]; [|done].
  by destruct (CacheManager.isExpired now e).
Qed.

Lemma get_fresh_entry key v d t now c :
  now - t ≤ default (CacheManager.defaultTTL c) d →
  CacheManager.get key now (CacheManager.set key v d t c)
  = (v, CacheManager.set key v d t c).
Proof.
  intros H. unfold CacheManager.get. rewrite lookup_set_eq.
  assert (E : CacheManager.isExpired now
                {| CacheManager.data := v; CacheManager.timestamp := t;
                   CacheManager.ttl := default (CacheManager.defaultTTL c) d |} = false)
    by (by apply isExpired_false).
  by rewrite E.
Qed.

(** A value that [cacheFirst] loads after a miss is served from the cache
    afterwards: when the load delivered a truthy value, a second call for
    the key within the time to live of the entry returns that value, counts
    a cache hit and does not invoke its loader. *)
Theorem cacheFirst_second_call_hits (key : string) (loader loader2 : loader_t)
    (ttl ttl2 : option Z) (t1 t2 t3 t4 : Z) (po : t) (c : CacheManager.t)
    (v : jsval) (w1 : world) :
  truthy (CacheManager.get key t1 c).1 = false →
  cacheFirst key loader ttl t1 t2 (po, Some c) = Some (inl v, w1) →
  truthy v = true →
  t3 - t2 ≤ default (CacheManager.defaultTTL c) ttl →
  cacheFirst key loader2 ttl2 t3 t4 w1
  = Some (inl v, (count_cacheHit w1.1, w1.2)).
Proof.
  intros Hmiss H1 Hv Ht. unfold cacheFirst in H1. unfold cache_get in H1.
  cbn [fst snd] in H1. rewrite Hmiss in H1.
  destruct (withRetry loader no_options (count_cacheMiss po)) as [[[v'|e] po1]|];
    [|done|done].
  injection H1 as -> <-. unfold cache_put. rewrite Hv.
  unfold cacheFirst, cache_get. cbn [fst snd].
  rewrite get_fresh_entry by (by rewrite get_keeps_defaultTTL).
  cbn [fst snd]. by rewrite Hv.
Qed.

End SmartCacheFacts.

Lemma cacheFirst_second_call_hits_witness :
  ∃ w1,
    PerformanceOptimizer.cacheFirst "services_" flaky_loader (Some 60000) 10 1500
      (PerformanceOptimizer.new, Some CacheManager.new)
    = Some (inl (JArr [JStr "buffet"]), w1) ∧
    PerformanceOptimizer.cacheFirst "services_" other_loader None 61500 61600 w1
    = Some (inl (JArr [JStr "buffet"]),
            (PerformanceOptimizer.count_cacheHit w1.1, w1.2)).
Proof.
  eexists. split; [vm_compute; reflexivity|].
  apply (cacheFirst_second_call_hits "services_" flaky_loader other_loader
           (Some 60000) None 10 1500 61500 61600 PerformanceOptimizer.new
           CacheManager.new (JArr [JStr "buffet"])).
  - reflexivity.
  - vm_compute. reflexivity.
  - reflexivity.
  - simpl. lia.
Defined.

Lemma smartCache_footprint_witness :
  ∃ c', (PerformanceOptimizer.smartCache "services_" other_loader
           (Some "network-first"%string) (Some 0) 0 50
           (PerformanceOptimizer.new, Some one_old_entry)) 
        = Some (inl (JArr [JStr "other"]), (PerformanceOptimizer.invoke (PerformanceOptimizer.count_request PerformanceOptimizer.new), Some c')) ∧
    ∀ k e, CacheManager.cache c' !! k = Some e →
      CacheManager.cache one_old_entry !! k = Some e ∨
      (k = "services_"%string ∧ CacheManager.timestamp e = 50 ∧
       CacheManager.ttl e = 300000 ∧ CacheManager.ttl e ≠ 0 ∧
       truthy (CacheManager.data e) = true).
Proof.
  eexists. split; [vm_compute; reflexivity|].
  intros k e Hk.
  destruct (smartCache_footprint "services_" other_loader
              (Some "network-first"%string) (Some 0) 0 50
              PerformanceOptimizer.new _ one_old_entry _ _ eq_refl)
    as (c' & [= <-] & H).
  exact (H k e Hk).
Defined.

(** ** Further properties: the query cache of the Supabase client *)

Section SupabaseQueriesFacts.
Import SupabaseQueries.

Lemma supabase_withRetry_returns operation context sb v sb' :
  SupabaseClient.withRetry operation context sb = Some (SupabaseClient.Return v, sb') →
  ∃ e, get_prop v "error" = Some e ∧ truthy e = false.
Proof. unfold SupabaseClient.withRetry. apply supabase_loop_returns. Qed.

Lemma getCache_setCache key d t now c :
  now - t ≤ cacheExpiry c →
  getCache key now (setCache key d t c) = (d, setCache key d t c).
Proof.
  intros H. unfold getCache, setCache. cbn [with_cache cache cacheExpiry].
  rewrite lookup_insert_eq. cbn [timestamp data].
  assert (E : (now - t >? cacheExpiry c) = false)
    by (rewrite Z.gtb_ltb; apply Z.ltb_ge; lia).
  by rewrite E.
Qed.

Lemma getCache_cacheExpiry key now c :
  cacheExpiry (getCache key now c).2 = cacheExpiry c.
Proof.
  unfold getCache. destruct (cache c !! key) as [e|]; [|done].
  by destruct (now - timestamp e >? cacheExpiry c).
Qed.

Lemma substring_prefix (p s : string) :
  substring 0 (String.length p) (p ++ s) = p.
Proof.
  induction p as [|a p IH]; simpl.
  - by destruct s.
  - by rewrite IH.
Qed.

Lemma includes_prefix (p s : string) : CacheManager.includes (p ++ s) p = true.
Proof. apply includes_substring. exists 0%nat. apply substring_prefix. Qed.

(** [getServices], [getPackages], [getSpacePhotos] and [getFeaturedVideos]
    answer from the cache of the client after a load: when a call that went
    to the service returned a result with truthy [data], a later call with
    [useCache] within [cacheExpiry] returns [{ data, error: null }] for that
    data and runs no query. *)
Theorem cached_select_second_call_hits (table : string)
    (params : list (string * jsval)) (context : string) (useCache : bool)
    (operation operation2 : loader_t) (t1 t2 t3 t4 : Z) (c c1 : t)
    (v d : jsval) :
  useCache = false ∨ truthy (getCache (getCacheKey table params) t1 c).1 = false →
  cached_select table params context useCache operation t1 t2 c
    = Some (SupabaseClient.Return v, c1) →
  get_prop v "data" = Some d →
  truthy d = true →
  t3 - t2 ≤ cacheExpiry c →
  cached_select table params context true operation2 t3 t4 c1
  = Some (SupabaseClient.Return (from_cache d), c1).
Proof.
  intros Hmiss H1 Hd Hv Ht. unfold cached_select in H1.
  assert (Hfirst : ∃ c0, cacheExpiry c0 = cacheExpiry c ∧
            (if useCache then getCache (getCacheKey table params) t1 c else (JNull, c))
            = ((if useCache then getCache (getCacheKey table params) t1 c
                else (JNull, c)).1, c0) ∧
            truthy (if useCache then getCache (getCacheKey table params) t1 c
                    else (JNull, c)).1 = false).
  { destruct useCache.
    - destruct Hmiss as [?|Hm]; [done|].
      exists (getCache (getCacheKey table params) t1 c).2.
      split; [apply getCache_cacheExpiry|]. split; [|done].
      by destruct (getCache (getCacheKey table params) t1 c).
    - by exists c. }
  destruct Hfirst as (c0 & Hexp & Heq & Hf). rewrite Heq, Hf in H1.
  destruct (SupabaseClient.withRetry operation context (executor c0))
    as [[[result|e|] sb]|]; [|done|done|done].
  destruct (get_prop result "data") as [d'|] eqn:Hd'; [|done].
  injection H1 as -> <-. rewrite Hd in Hd'. injection Hd' as <-. rewrite Hv.
  unfold cached_select.
  rewrite getCache_setCache by (cbn [with_executor cacheExpiry]; lia).
  by rewrite Hv.
Qed.

Lemma supabase_withRetry_total operation context sb :
  is_Some (SupabaseClient.withRetry operation context sb).
Proof.
  unfold SupabaseClient.withRetry.
  apply (supabase_loop_total operation context
           (Z.to_nat (SupabaseClient.retryCount sb))); simpl; lia.
Qed.

(** A call of one of the four query methods returns, throws, or waits on a
    query that never settles; and a result it returns never carries an
    error: its [error] field is falsy, on a cache hit and after a load
    alike.  An error of the service reaches the caller as an exception. *)
Theorem cached_select_returns_no_error (table : string)
    (params : list (string * jsval)) (context : string) (useCache : bool)
    (operation : loader_t) (t_read t_write : Z) (c : t) :
  is_Some (cached_select table params context useCache operation t_read t_write c) ∧
  ∀ v c',
    cached_select table params context useCache operation t_read t_write c
      = Some (SupabaseClient.Return v, c') →
    ∃ e, get_prop v "error" = Some e ∧ truthy e = false.
Proof.
  unfold cached_select.
  destruct (if useCache then getCache (getCacheKey table params) t_read c
            else (JNull, c)) as [hit c1].
  destruct (truthy hit).
  { split; [eauto|]. intros v c' [= <- _]. by exists JNull. }
  destruct (supabase_withRetry_total operation context (executor c1)) as [[out sb] Hr].
  rewrite Hr. destruct out as [result|e|].
  - destruct (supabase_withRetry_returns _ _ _ _ _ Hr) as (e & He & Hf).
    destruct (get_prop result "data") as [d|]; [|split; [eauto|done]].
    split; [eauto|]. intros v c' [= <- _]. eauto.
  - split; [eauto|done].
  - split; [eauto|done].
Qed.

Lemma getCache_cleared (pattern rest : string) (now : Z) (c : t) :
  getCache (pattern ++ rest) now (clearCacheByPattern pattern c)
  = (JNull, clearCacheByPattern pattern c).
Proof.
  unfold getCache.
  assert (E : cache (clearCacheByPattern pattern c) !! (pattern ++ rest)%string = None).
  { unfold clearCacheByPattern. cbn [with_cache cache].
    apply map_lookup_filter_None. right. intros e _. simpl.
    by rewrite includes_prefix. }
  by rewrite E.
Qed.

Lemma retried_then_clear_spec context table operation c outcome c' :
  retried_then_clear context table operation c = Some (outcome, c') →
  match outcome with
  | SupabaseClient.Return _ =>
      ∀ params context2 operation2 t3 t4,
        cached_select table params context2 true operation2 t3 t4 c'
        = cached_select table params context2 false operation2 t3 t4 c'
  | _ => cache c' = cache c
  end.
Proof.
  unfold retried_then_clear.
  destruct (SupabaseClient.withRetry operation context (executor c))
    as [[[result|e|] sb]|]; [| | |done]; intros [= <- <-]; [|done|done].
  intros params context2 operation2 t3 t4. unfold cached_select, getCacheKey.
  rewrite getCache_cleared. reflexivity.
Qed.

(** The write methods and the cached lists.  Once [updateService] or
    [deleteService] has returned, no cached list of services is left: a
    [getServices] with [useCache] behaves as one without, for every
    category; and likewise [updatePackage] for [getPackages].  When the
    write throws or never settles, the cached lists stay as they are.
    [createService] never touches the cache. *)
Theorem writes_and_the_query_cache (operation : loader_t) (c c' : t)
    (outcome : SupabaseClient.completion) :
  (updateService operation c = Some (outcome, c') ∨
   deleteService operation c = Some (outcome, c') →
   match outcome with
   | SupabaseClient.Return _ =>
       ∀ category operation2 t3 t4,
         getServices category true operation2 t3 t4 c'
         = getServices category false operation2 t3 t4 c'
   | _ => cache c' = cache c
   end) ∧
  (updatePackage operation c = Some (outcome, c') →
   match outcome with
   | SupabaseClient.Return _ =>
       ∀ eventType operation2 t3 t4,
         getPackages eventType true operation2 t3 t4 c'
         = getPackages eventType false operation2 t3 t4 c'
   | _ => cache c' = cache c
   end) ∧
  (createService operation c = Some (outcome, c') → cache c' = cache c).
Proof.
  split; [|split].
  - intros [H|H]; apply retried_then_clear_spec in H;
      (destruct outcome; [|exact H|exact H]);
      intros category operation2 t3 t4;
      exact (H [("category"%string, category)] _ operation2 t3 t4).
  - intros H. apply retried_then_clear_spec in H.
    destruct outcome; [|exact H|exact H].
    intros eventType operation2 t3 t4.
    exact (H [("eventType"%string, eventType)] _ operation2 t3 t4).
  - unfold createService, retried.
    destruct (SupabaseClient.withRetry operation _ (executor c)) as [[out sb]|];
      [|done]. by intros [= _ <-].
Qed.

End SupabaseQueriesFacts.

(** ** Further properties: the services facade and its cache *)

Section ServicesCacheFacts.
Import ServicesManager.

Lemma lookup_set_inv key v d t c k e :
  CacheManager.cache (CacheManager.set key v d t c) !! k = Some e →
  (k = key ∧ e = {| CacheManager.data := v; CacheManager.timestamp := t;
                    CacheManager.ttl := default (CacheManager.defaultTTL c) d |}) ∨
  (k ≠ key ∧ CacheManager.cache c !! k = Some e).
Proof.
  unfold CacheManager.set.
  destruct (decide (CacheManager.maxSize c ≤ size (CacheManager.cache c))%nat);
    cbn [CacheManager.with_cache CacheManager.cache CacheManager.defaultTTL
         CacheManager.cleanup]; intros Hk;
    (destruct (decide (k = key)) as [->|Hne];
      [rewrite lookup_insert_eq in Hk; injection Hk as <-; by left
      |rewrite lookup_insert_ne in Hk by done; right; split; [done|]]).
  - by apply map_lookup_filter_Some in Hk as [Hk _].
  - done.
Qed.

Lemma lookup_invalidate_matching pattern c k :
  CacheManager.includes k pattern = true →
  CacheManager.cache (CacheManager.invalidate pattern c) !! k = None.
Proof.
  intros H. unfold CacheManager.invalidate. cbn [CacheManager.with_cache CacheManager.cache].
  apply map_lookup_filter_None. right. intros e _. simpl. by rewrite H.
Qed.

(** On the page as the repository has it, where [DataModels] is undefined,
    [loadServices] never hands out what the remote service answered: a call
    that reaches the remote load and sees it settle returns the fallback
    list and shows the offline notice, whatever the answer; it writes
    nothing to the cache and leaves [lastLoadTime] alone; and the next call
    for the category, finding no cached list, ends in the same way. *)
Theorem loadServices_never_loads_remote_records (category : jsval) (useCache : bool)
    (r : remote) (t_read t_write : Z) (s : state) :
  let key := generateKey "services" [("category"%string, default_category category)] in
  let cm1 := if useCache then (CacheManager.get key t_read (cacheManager s)).2
             else cacheManager s in
  (useCache = true →
   truthy (CacheManager.get key t_read (cacheManager s)).1 = false) →
  isLoading (manager s) = false →
  r ≠ GetServicesHangs →
  renderServices (servicesGrid s) (fallbackServices (manager s)) = true →
  let out := loadServices DataModels_undefined category useCache r t_read t_write s in
  out.1 = Returns (fallbackServices (manager s)) ∧
  offlineNotices out.2 = showOfflineMessage (errorHandler s) (offlineNotices s) ∧
  cacheManager out.2 = cm1 ∧
  lastLoadTime (manager out.2) = lastLoadTime (manager s) ∧
  (useCache = true →
   ∀ r' t3 t4, r' ≠ GetServicesHangs →
     let out' := loadServices DataModels_undefined category true r' t3 t4 out.2 in
     out'.1 = Returns (fallbackServices (manager s)) ∧
     offlineNotices out'.2
       = showOfflineMessage (errorHandler s) (offlineNotices out.2)).
Proof.
  intros key cm1 Hmiss Hidle Hr Hfb out.
  assert (Hgen : ∀ useCache0 r0 t1 t2 s0,
    (useCache0 = true →
     truthy (CacheManager.get key t1 (cacheManager s0)).1 = false) →
    isLoading (manager s0) = false →
    r0 ≠ GetServicesHangs →
    renderServices (servicesGrid s0) (fallbackServices (manager s0)) = true →
    loadServices DataModels_undefined category useCache0 r0 t1 t2 s0
    = (Returns (fallbackServices (manager s0)),
       {| manager := with_services (manager s0) (fallbackServices (manager s0))
                       (lastLoadTime (manager s0));
          cacheManager := if useCache0 then (CacheManager.get key t1 (cacheManager s0)).2
                          else cacheManager s0;
          errorHandler := errorHandler s0;
          offlineNotices := showOfflineMessage (errorHandler s0) (offlineNotices s0);
          servicesGrid := servicesGrid s0 |})).
  { intros useCache0 r0 t1 t2 s0 Hm Hi Hr0 Hf.
    rewrite (loadServices_reaches_remote DataModels_undefined category useCache0 r0
               t1 t2 s0 Hm Hi). fold key.
    pose proof (loadFromSupabase_settles DataModels_undefined r0 Hr0) as Hs.
    destruct (loadFromSupabase DataModels_undefined r0) as [result|e|] eqn:Hl;
      [|by apply fall_back_returns|done].
    rewrite (loadFromSupabase_undefined r0 result Hl). by apply fall_back_returns. }
  subst out. rewrite (Hgen useCache r t_read t_write s Hmiss Hidle Hr Hfb).
  cbn [fst snd manager offlineNotices cacheManager with_services lastLoadTime].
  split; [done|]. split; [done|]. split; [done|]. split; [done|].
  intros -> r' t3 t4 Hr'. cbn zeta.
  rewrite (Hgen true r' t3 t4).
  - done.
  - intros _. cbn [cacheManager]. apply get_miss_stays. by apply Hmiss.
  - done.
  - done.
  - done.
Qed.

Variable validateService : jsval → (bool * jsval) + error.

(** After [refreshServices()] the cache holds no services list from before:
    an entry under a key that contains [services] can only be the one of the
    unfiltered list, written by this refresh with the records it loaded.  On
    the page as the repository has it, where [DataModels] is undefined, no
    such entry is left at all. *)
Theorem refreshServices_drops_cached_lists (r : remote) (t : Z) (s : state) :
  let out := refreshServices validateService r t s in
  let shipped := refreshServices DataModels_undefined r t s in
  (∀ k e,
     CacheManager.includes k "services" = true →
     CacheManager.cache (cacheManager out.2) !! k = Some e →
     k = generateKey "services" [("category"%string, JNull)] ∧
     CacheManager.timestamp e = t ∧
     ∃ result,
       loadFromSupabase validateService r = Returns result ∧
       success result = true ∧ data result ≠ [] ∧
       CacheManager.data e = JArr (data result)) ∧
  (∀ k, CacheManager.includes k "services" = true →
        CacheManager.cache (cacheManager shipped.2) !! k = None).
Proof.
  cbn zeta.
  assert (Hgen : ∀ v k e,
    CacheManager.includes k "services" = true →
    CacheManager.cache (cacheManager (refreshServices v r t s).2) !! k = Some e →
    k = generateKey "services" [("category"%string, JNull)] ∧
    CacheManager.timestamp e = t ∧
    ∃ result,
      loadFromSupabase v r = Returns result ∧
      success result = true ∧ data result ≠ [] ∧
      CacheManager.data e = JArr (data result)).
  { intros v k e Hinc. unfold refreshServices, loadServices.
    cbn [truthy manager cacheManager default_category servicesGrid errorHandler
         offlineNotices].
    destruct (isLoading (manager s)).
    { cbn [fst snd cacheManager]. by rewrite lookup_invalidate_matching. }
    assert (Hfall : ∀ sm cm s0,
      CacheManager.cache (cacheManager (fall_back sm cm s0).2) !! k
      = CacheManager.cache cm !! k).
    { intros sm cm s0. unfold fall_back. by destruct (renderServices _ _). }
    destruct (loadFromSupabase v r) as [result|e0|] eqn:Hl.
    - destruct (success result && (0 <? length (data result))%nat) eqn:Hb.
      + apply andb_prop in Hb as [Hs Hd].
        assert (Hset : ∀ e',
          CacheManager.cache
            (CacheManager.set (generateKey "services" [("category"%string, JNull)])
               (JArr (data result)) None t
               (CacheManager.invalidate "services" (cacheManager s))) !! k = Some e' →
          k = generateKey "services" [("category"%string, JNull)] ∧
          CacheManager.timestamp e' = t ∧
          ∃ result0,
            Returns result = Returns result0 ∧
            success result0 = true ∧ data result0 ≠ [] ∧
            CacheManager.data e' = JArr (data result0)).
        { intros e' Hk. apply lookup_set_inv in Hk as [[-> ->]|[_ Hk]].
          - split; [done|]. split; [done|]. exists result.
            split; [done|]. split; [done|]. split; [|done].
            intros E. by rewrite E in Hd.
          - by rewrite lookup_invalidate_matching in Hk. }
        destruct (renderServices (servicesGrid s) (JArr (data result))).
        * cbn [fst snd cacheManager]. apply Hset.
        * rewrite Hfall. apply Hset.
      + rewrite Hfall. by rewrite lookup_invalidate_matching.
    - rewrite Hfall. by rewrite lookup_invalidate_matching.
    - cbn [fst snd cacheManager]. by rewrite lookup_invalidate_matching. }
  split; [apply Hgen|].
  intros k Hinc.
  destruct (CacheManager.cache _ !! k) as [e|] eqn:E; [|done].
  destruct (Hgen DataModels_undefined k e Hinc E) as (_ & _ & result & Hl & Hs & Hd & _).
  apply loadFromSupabase_undefined in Hl. rewrite Hs in Hl.
  destruct (data result); [done|]. done.
Qed.

End ServicesCacheFacts.

(** ** Further properties: the monitoring log and the error log *)

Section BoundedLogFacts.
Context {A : Type}.

Lemma newest_all (n : nat) (l : list A) : (length l ≤ n)%nat → newest n l = l.
Proof.
  intros H. unfold newest. replace (length l - n)%nat with 0%nat by lia. done.
Qed.

Lemma length_newest (n : nat) (l : list A) :
  length (newest n l) = Nat.min n (length l).
Proof. unfold newest. rewrite length_skipn. lia. Qed.

Lemma newest_push (n : nat) (l : list A) (x : A) :
  (length l ≤ n)%nat →
  (if (n <? length (l ++ [x]))%nat then tail (l ++ [x]) else l ++ [x])
  = newest n (l ++ [x]).
Proof.
  intros H. unfold newest. rewrite length_app. simpl.
  destruct (n <? length l + 1)%nat eqn:E.
  - apply Nat.ltb_lt in E.
    replace (length l + 1 - n)%nat with 1%nat by lia.
    by destruct (l ++ [x]).
  - apply Nat.ltb_ge in E.
    replace (length l + 1 - n)%nat with 0%nat by lia. done.
Qed.

Lemma newest_newest_app (n : nat) (l l' : list A) :
  newest n (newest n l ++ l') = newest n (l ++ l').
Proof.
  destruct (decide (length l ≤ n)%nat) as [Hle|Hgt].
  - by rewrite (newest_all n l).
  - unfold newest at 1 3. rewrite !length_app, length_newest.
    replace (Nat.min n (length l) + length l' - n)%nat with (length l') by lia.
    replace (length l + length l' - n)%nat
      with ((length l - n) + length l')%nat by lia.
    rewrite <- drop_drop. unfold newest. f_equal.
    rewrite drop_app_le by lia. done.
Qed.

End BoundedLogFacts.

Section MonitoringFacts.
Import MonitoringSystem.

Variable toUpperCase : string → string.

Lemma error_level_passes (name : string) :
  less (logLevels "error") (logLevels name) = false.
Proof.
  unfold logLevels at 2.
  repeat (match goal with |- context [String.eqb ?a ?b] => destruct (String.eqb a b) end;
          [reflexivity|]).
  reflexivity.
Qed.

Lemma log_config lvl cat msg d now ms :
  config (log toUpperCase lvl cat msg d now ms) = config ms.
Proof. unfold log. by destruct (less _ _). Qed.

Lemma log_logs lvl cat msg d now ms :
  (length (logs ms) ≤ maxLogs (config ms))%nat →
  logs (log toUpperCase lvl cat msg d now ms)
  = newest (maxLogs (config ms))
      (logs ms ++ accepted toUpperCase (config ms)
                    [{| call_level := lvl; call_category := cat;
                        call_message := msg; call_data := d; call_now := now |}]).
Proof.
  intros H. unfold log, accepted. simpl.
  destruct (less (logLevels lvl) (logLevels (logLevel (config ms)))); simpl.
  - rewrite app_nil_r. by rewrite newest_all.
  - by apply newest_push.
Qed.

Lemma log_errors lvl cat msg d now ms :
  errors (metrics (log toUpperCase lvl cat msg d now ms))
  = (errors (metrics ms) + if String.eqb lvl "error" then 1 else 0)%nat.
Proof.
  unfold log. destruct (String.eqb lvl "error") eqn:E.
  - apply String.eqb_eq in E. subst lvl. rewrite error_level_passes. simpl. lia.
  - destruct (less _ _); simpl; lia.
Qed.

Lemma accepted_app cfg calls1 calls2 :
  accepted toUpperCase cfg (calls1 ++ calls2)
  = accepted toUpperCase cfg calls1 ++ accepted toUpperCase cfg calls2.
Proof. unfold accepted. by rewrite List.filter_app, map_app. Qed.

Lemma log_run_cons c calls ms :
  log_run toUpperCase (c :: calls) ms
  = log_run toUpperCase calls
      (log toUpperCase (call_level c) (call_category c) (call_message c)
         (call_data c) (call_now c) ms).
Proof. reflexivity. Qed.

Lemma log_run_spec (calls : list log_call) (ms : t) :
  (length (logs ms) ≤ maxLogs (config ms))%nat →
  let ms' := log_run toUpperCase calls ms in
  logs ms' = newest (maxLogs (config ms))
               (logs ms ++ accepted toUpperCase (config ms) calls) ∧
  (length (logs ms') ≤ maxLogs (config ms))%nat ∧
  errors (metrics ms')
  = (errors (metrics ms)
     + length (List.filter (λ c, String.eqb (call_level c) "error") calls))%nat.
Proof.
  revert ms. induction calls as [|c calls IH]; intros ms H; cbn zeta.
  - simpl. rewrite app_nil_r, newest_all by done. split; [done|]. split; [done|lia].
  - rewrite log_run_cons.
    set (ms1 := log toUpperCase (call_level c) (call_category c) (call_message c)
                  (call_data c) (call_now c) ms).
    assert (Hc : config ms1 = config ms) by apply log_config.
    assert (Hl : logs ms1 = newest (maxLogs (config ms))
                              (logs ms ++ accepted toUpperCase (config ms) [c])).
    { unfold ms1. rewrite log_logs by done. by destruct c. }
    assert (H1 : (length (logs ms1) ≤ maxLogs (config ms1))%nat).
    { rewrite Hl, Hc, length_newest. lia. }
    destruct (IH ms1 H1) as (IH1 & IH2 & IH3). rewrite Hc in *.
    split; [|split; [done|]].
    + rewrite IH1, Hl, newest_newest_app, <- app_assoc, <- accepted_app. done.
    + rewrite IH3. unfold ms1. rewrite log_errors. cbn [List.filter].
      destruct (String.eqb (call_level c) "error"); simpl; lia.
Qed.

(** [MonitoringSystem.log] keeps the newest entries: after any run of calls
    on a log within its bound, the log holds the last [maxLogs] of the old
    entries followed by those the level test let through, so it stays within
    the bound; and [metrics.errors] has grown by the number of calls at
    level [error], none of which the level test drops. *)
Theorem log_keeps_newest (calls : list log_call) (ms : t) :
  (length (logs ms) ≤ maxLogs (config ms))%nat →
  let ms' := log_run toUpperCase calls ms in
  logs ms' = newest (maxLogs (config ms))
               (logs ms ++ accepted toUpperCase (config ms) calls) ∧
  (length (logs ms') ≤ maxLogs (config ms))%nat ∧
  errors (metrics ms')
  = (errors (metrics ms)
     + length (List.filter (λ c, String.eqb (call_level c) "error") calls))%nat.
Proof. apply log_run_spec. Qed.

Lemma log_marks lvl cat msg d now ms :
  performanceMarks (metrics (log toUpperCase lvl cat msg d now ms))
  = performanceMarks (metrics ms).
Proof.
  unfold log. destruct (less _ _); [done|]. simpl.
  by destruct (String.eqb lvl "error").
Qed.

Lemma endPerformanceMark_unset name t t_log ms :
  performanceMarks (metrics ms) !! name = None →
  (endPerformanceMark toUpperCase name t t_log ms).1 = 0.
Proof. intros H. unfold endPerformanceMark. by rewrite H. Qed.

Lemma endPerformanceMark_set name t0 t1 t_log ms :
  performanceMarks (metrics ms) !! name = Some t0 →
  (t0 ≠ 0 →
   (endPerformanceMark toUpperCase name t1 t_log ms).1 = t1 - t0 ∧
   performanceMarks (metrics (endPerformanceMark toUpperCase name t1 t_log ms).2)
     !! name = None) ∧
  (t0 = 0 →
   (endPerformanceMark toUpperCase name t1 t_log ms).1 = 0 ∧
   performanceMarks (metrics (endPerformanceMark toUpperCase name t1 t_log ms).2)
     !! name = Some 0).
Proof.
  intros H. unfold endPerformanceMark. rewrite H. split.
  - intros H0. apply Z.eqb_neq in H0. rewrite H0. cbn [fst snd].
    split; [done|]. rewrite log_marks. cbn [metrics with_metrics with_marks performanceMarks].
    apply lookup_delete_eq.
  - intros ->. cbn [Z.eqb fst snd]. split; [done|]. by rewrite log_marks.
Qed.

(** [startPerformanceMark] and [endPerformanceMark]: ending a mark that was
    started at a clock other than 0 returns the time elapsed and removes the
    mark, so that ending it again returns 0; a mark started at clock 0 is
    taken for a missing one: ending it returns 0 and leaves it in place. *)
Theorem performance_mark_round_trip (name : string) (t0 t1 t_log : Z) (ms : t) :
  let ended :=
    endPerformanceMark toUpperCase name t1 t_log (startPerformanceMark name t0 ms) in
  (t0 ≠ 0 →
   ended.1 = t1 - t0 ∧
   performanceMarks (metrics ended.2) !! name = None ∧
   ∀ t2 t_log2, (endPerformanceMark toUpperCase name t2 t_log2 ended.2).1 = 0) ∧
  (t0 = 0 →
   ended.1 = 0 ∧ performanceMarks (metrics ended.2) !! name = Some 0).
Proof.
  cbn zeta.
  assert (Hs : performanceMarks (metrics (startPerformanceMark name t0 ms)) !! name
               = Some t0).
  { unfold startPerformanceMark. cbn [metrics with_metrics with_marks performanceMarks].
    apply lookup_insert_eq. }
  destruct (endPerformanceMark_set name t0 t1 t_log _ Hs) as [Hset H0]. split.
  - intros Hne. destruct (Hset Hne) as [Hd Hm]. split; [done|]. split; [done|].
    intros t2 t_log2. by apply endPerformanceMark_unset.
  - exact H0.
Qed.

(** Under a configured level of [info], [warn] or [error] (the constructor
    sets [info]) cache accesses and user interactions are counted in the
    metrics but never written to the log. *)
Theorem debug_records_are_counted_not_logged (key : string) (hit : bool)
    (type : string) (d : jsval) (now : Z) (ms : t) :
  logLevel (config ms) ∈ ["info"; "warn"; "error"]%string →
  logs (logCacheAccess toUpperCase key hit now ms) = logs ms ∧
  cacheHits (metrics (logCacheAccess toUpperCase key hit now ms))
  = (cacheHits (metrics ms) + if hit then 1 else 0)%nat ∧
  logs (trackInteraction toUpperCase type d now ms) = logs ms ∧
  userInteractions (metrics (trackInteraction toUpperCase type d now ms))
  = S (userInteractions (metrics ms)).
Proof.
  intros H.
  assert (Hl : less (logLevels "debug") (logLevels (logLevel (config ms))) = true).
  { repeat (apply elem_of_cons in H as [->|H]; [reflexivity|]).
    by apply elem_of_nil in H. }
  unfold logCacheAccess, trackInteraction, log.
  destruct hit; cbn [config with_metrics]; rewrite Hl; simpl; repeat split; lia.
Qed.

End MonitoringFacts.

Section ErrorHandlerFacts.
Import ErrorHandler.

Variable toUpperCase : string → string.

Lemma logError_run_cons c calls w :
  logError_run toUpperCase (c :: calls) w
  = logError_run toUpperCase calls (logError toUpperCase c.1.1 c.1.2 c.2 w).
Proof. reflexivity. Qed.

Lemma logError_run_monitoring calls h ms :
  (logError_run toUpperCase calls (h, Some ms)).2
  = Some (MonitoringSystem.log_run toUpperCase (map monitoring_call calls) ms).
Proof.
  revert h ms. induction calls as [|c calls IH]; intros h ms; [done|].
  rewrite logError_run_cons. unfold logError. rewrite IH. done.
Qed.

Lemma logError_run_absent calls h :
  (logError_run toUpperCase calls (h, None)).2 = None.
Proof.
  revert h. induction calls as [|c calls IH]; intros h; [done|].
  rewrite logError_run_cons. unfold logError. apply IH.
Qed.

Lemma logError_run_log calls h mon :
  (length (errorLog h) ≤ maxLogSize h)%nat →
  errorLog (logError_run toUpperCase calls (h, mon)).1
  = newest (maxLogSize h) (errorLog h ++ map (λ c, c.1.1) calls) ∧
  maxLogSize (logError_run toUpperCase calls (h, mon)).1 = maxLogSize h.
Proof.
  revert h mon. induction calls as [|c calls IH]; intros h mon H.
  - simpl. by rewrite app_nil_r, newest_all.
  - rewrite logError_run_cons. unfold logError.
    rewrite newest_push by done.
    match goal with |- context [logError_run toUpperCase calls (?h1, ?m1)] =>
      destruct (IH h1 m1) as [IH1 IH2]
    end.
    { cbn [errorLog maxLogSize]. rewrite length_newest. lia. }
    cbn [errorLog maxLogSize] in IH1, IH2. rewrite IH1, IH2. split; [|done].
    rewrite newest_newest_app, <- app_assoc. done.
Qed.

Lemma accepted_monitoring_calls cfg calls :
  length (MonitoringSystem.accepted toUpperCase cfg (map monitoring_call calls))
  = length calls.
Proof.
  unfold MonitoringSystem.accepted. rewrite length_map.
  induction calls as [|c calls IH]; [done|].
  rewrite map_cons. cbn [List.filter].
  change (MonitoringSystem.call_level (monitoring_call c)) with "error"%string.
  rewrite error_level_passes. cbn [negb length]. by rewrite IH.
Qed.

Lemma count_monitoring_calls calls :
  length (List.filter (λ c, String.eqb (MonitoringSystem.call_level c) "error")
            (map monitoring_call calls))
  = length calls.
Proof. induction calls as [|c calls IH]; [done|]. simpl. by rewrite IH. Qed.

(** [ErrorHandler.logError] keeps the newest errors: after any run of calls
    on a log within its bound, [errorLog] holds the last [maxLogSize] of the
    old entries followed by the errors logged.  With a monitoring system on
    the page every one of them is also recorded there, at level [error]:
    [metrics.errors] grows by the number of calls, and the monitoring log
    holds the newest [maxLogs] entries; without one nothing else happens. *)
Theorem logError_keeps_newest (calls : list (errorInfo * jsval * Z)) (h : t)
    (monitoring : option MonitoringSystem.t) :
  (length (errorLog h) ≤ maxLogSize h)%nat →
  let w' := logError_run toUpperCase calls (h, monitoring) in
  errorLog w'.1 = newest (maxLogSize h) (errorLog h ++ map (λ c, c.1.1) calls) ∧
  (length (errorLog w'.1) ≤ maxLogSize h)%nat ∧
  match monitoring with
  | None => w'.2 = None
  | Some ms =>
      ∃ ms', w'.2 = Some ms' ∧
        MonitoringSystem.errors (MonitoringSystem.metrics ms')
        = (MonitoringSystem.errors (MonitoringSystem.metrics ms) + length calls)%nat ∧
        ((length (MonitoringSystem.logs ms)
          ≤ MonitoringSystem.maxLogs (MonitoringSystem.config ms))%nat →
         MonitoringSystem.logs ms'
         = newest (MonitoringSystem.maxLogs (MonitoringSystem.config ms))
             (MonitoringSystem.logs ms
              ++ MonitoringSystem.accepted toUpperCase (MonitoringSystem.config ms)
                   (map monitoring_call calls)) ∧
         length (MonitoringSystem.accepted toUpperCase (MonitoringSystem.config ms)
                   (map monitoring_call calls)) = length calls)
  end.
Proof.
  intros H. cbn zeta.
  destruct (logError_run_log calls h monitoring H) as [H1 H2].
  split; [exact H1|]. split; [rewrite H1, length_newest; lia|].
  destruct monitoring as [ms|]; [|apply logError_run_absent].
  eexists. split; [apply logError_run_monitoring|]. split.
  - clear. revert ms. induction calls as [|c calls IH]; intros ms.
    + simpl. lia.
    + rewrite map_cons, log_run_cons, IH, log_errors. simpl. lia.
  - intros Hm. split; [|apply accepted_monitoring_calls].
    by apply log_run_spec.
Qed.

Lemma slice_from_end (l : list errorInfo) (limit : Z) :
  0 ≤ limit →
  PerformanceOptimizer.slice l (- limit) (Z.of_nat (length l))
  = if limit =? 0 then l else newest (Z.to_nat limit) l.
Proof.
  intros H. unfold PerformanceOptimizer.slice, newest.
  assert (E2 : (Z.of_nat (length l) <? 0) = false) by (apply Z.ltb_ge; lia).
  rewrite E2, Z.min_id.
  destruct (limit =? 0) eqn:E0.
  - apply Z.eqb_eq in E0. subst limit.
    change (- 0) with 0. rewrite Z.ltb_irrefl.
    replace (Z.min 0 (Z.of_nat (length l))) with 0 by lia.
    rewrite Z.sub_0_r, Nat2Z.id. change (Z.to_nat 0) with 0%nat.
    rewrite skipn_O. apply firstn_all.
  - apply Z.eqb_neq in E0.
    assert (E1 : (- limit <? 0) = true) by (apply Z.ltb_lt; lia).
    rewrite E1.
    replace (Z.to_nat (Z.max (Z.of_nat (length l) + - limit) 0))
      with (length l - Z.to_nat limit)%nat by lia.
    apply take_ge. rewrite length_skipn.
    destruct (Z.max_spec (Z.of_nat (length l) + - limit) 0) as [[? ->]|[? ->]]; lia.
Qed.

(** [getErrorLog(limit)] returns the [limit] newest entries for a positive
    [limit], and the ten newest when called without argument; but
    [getErrorLog(0)] returns the whole log, not the empty list. *)
Theorem getErrorLog_limit (h : t) (limit : Z) :
  (0 < limit → getErrorLog (Some limit) h = newest (Z.to_nat limit) (errorLog h)) ∧
  getErrorLog (Some 0) h = errorLog h ∧
  getErrorLog None h = newest 10 (errorLog h).
Proof.
  unfold getErrorLog. split; [|split].
  - intros H. change (default 10 (Some limit)) with limit.
    rewrite slice_from_end by lia.
    assert (E : (limit =? 0) = false) by (apply Z.eqb_neq; lia). by rewrite E.
  - by rewrite (slice_from_end _ 0).
  - by rewrite (slice_from_end _ 10).
Qed.

End ErrorHandlerFacts.

(** ** Further properties: quotes and the photo viewer *)

Section QuotesFacts.
Import QuotesManager.





Lemma slice_first_ten {A : Type} (l : list A) :
  PerformanceOptimizer.slice l 0 10 = firstn 10 l.
Proof.
  unfold PerformanceOptimizer.slice. cbn [Z.ltb Z.compare].
  replace (Z.min 0 (Z.of_nat (length l))) with 0 by lia.
  rewrite Z.sub_0_r. cbn [Z.to_nat]. rewrite skipn_O.
  destruct (decide (10 ≤ Z.of_nat (length l))) as [H|H].
  - by rewrite Z.min_l by lia.
  - rewrite Z.min_r by lia. rewrite Nat2Z.id.
    rewrite firstn_all. symmetry. apply take_ge. lia.
Qed.

Lemma take_app_take {A : Type} (n : nat) (l1 l2 : list A) :
  take n (l1 ++ take n l2) = take n (l1 ++ l2).
Proof. rewrite !take_app, take_take. do 2 f_equal. lia. Qed.

(** [addToHistory] keeps the ten newest quotes, newest first: after any run
    of calls on a history of at most ten, the history is the first ten of
    the quotes added, latest first, followed by the old ones. *)
Theorem addToHistory_keeps_ten_newest (quotes : list jsval) (qm : t) :
  (length (submissionHistory qm) ≤ 10)%nat →
  submissionHistory (fold_left (λ s q, addToHistory q s) quotes qm)
  = firstn 10 (rev quotes ++ submissionHistory qm).
Proof.
  revert qm. induction quotes as [|q quotes IH]; intros qm H.
  - simpl. symmetry. by apply take_ge.
  - cbn [fold_left rev]. rewrite IH.
    + unfold addToHistory. cbn [submissionHistory].
      rewrite slice_first_ten, <- app_assoc. cbn [app].
      destruct (10 <? length (q :: submissionHistory qm))%nat; [|done].
      apply take_app_take.
    + unfold addToHistory. cbn [submissionHistory]. rewrite slice_first_ten.
      destruct (10 <? length (q :: submissionHistory qm))%nat eqn:E.
      * rewrite length_take. lia.
      * by apply Nat.ltb_ge in E.
Qed.

End QuotesFacts.

Section GalleryFacts.
Import GalleryManager.

Lemma navigate_cons (k : arrow) (keys : list arrow) (g : t) :
  navigate (k :: keys) g
  = navigate keys (match k with ArrowLeft => previousPhoto g | ArrowRight => nextPhoto g end).
Proof. reflexivity. Qed.

Lemma step_in_range (k : arrow) (g : t) :
  0 ≤ currentPhotoIndex g < Z.of_nat (length (photos g)) →
  let g' := match k with ArrowLeft => previousPhoto g | ArrowRight => nextPhoto g end in
  photos g' = photos g ∧
  0 ≤ currentPhotoIndex g' < Z.of_nat (length (photos g)) ∧
  Z.abs (currentPhotoIndex g' - currentPhotoIndex g) ≤ 1.
Proof.
  intros H. destruct k; cbn zeta; unfold previousPhoto, nextPhoto.
  - destruct (currentPhotoIndex g >? 0) eqn:E; simpl; (split; [done|]); [|lia].
    apply Z.gtb_lt in E. lia.
  - destruct (currentPhotoIndex g <? Z.of_nat (length (photos g)) - 1) eqn:E;
      simpl; (split; [done|]); [|lia].
    apply Z.ltb_lt in E. lia.
Qed.

(** The arrows of the photo viewer never leave the gallery: from an index
    inside the list of photos, any sequence of [previousPhoto] and
    [nextPhoto] keeps the list, ends on an index inside it, and moves by at
    most one photo per key.  There is no wrap-around: [nextPhoto] on the
    last photo and [previousPhoto] on the first do nothing. *)
Theorem navigate_stays_in_range (keys : list arrow) (g : t) :
  0 ≤ currentPhotoIndex g < Z.of_nat (length (photos g)) →
  photos (navigate keys g) = photos g ∧
  0 ≤ currentPhotoIndex (navigate keys g) < Z.of_nat (length (photos g)) ∧
  Z.abs (currentPhotoIndex (navigate keys g) - currentPhotoIndex g)
  ≤ Z.of_nat (length keys) ∧
  (currentPhotoIndex g = Z.of_nat (length (photos g)) - 1 → nextPhoto g = g) ∧
  (currentPhotoIndex g = 0 → previousPhoto g = g).
Proof.
  intros H. assert (Hnav : photos (navigate keys g) = photos g ∧
    0 ≤ currentPhotoIndex (navigate keys g) < Z.of_nat (length (photos g)) ∧
    Z.abs (currentPhotoIndex (navigate keys g) - currentPhotoIndex g)
    ≤ Z.of_nat (length keys)).
  { revert g H. induction keys as [|k keys IH]; intros g H.
    - simpl. split; [done|lia].
    - rewrite navigate_cons.
      destruct (step_in_range k g H) as (Hp & Hi & Hd). cbn zeta in *.
      destruct (IH (match k with ArrowLeft => previousPhoto g | ArrowRight => nextPhoto g end))
        as (IH1 & IH2 & IH3).
      { by rewrite Hp. }
      rewrite Hp in *. split; [done|]. split; [done|]. simpl length. lia. }
  destruct Hnav as (H1 & H2 & H3). repeat split; try done; try lia.
  - intros E. unfold nextPhoto.
    assert (E' : (currentPhotoIndex g <? Z.of_nat (length (photos g)) - 1) = false)
      by (apply Z.ltb_ge; lia). by rewrite E'.
  - intros E. unfold previousPhoto. by rewrite E.
Qed.

End GalleryFacts.

(** ** Further properties: cache keys *)

Section CacheKeyFacts.

Lemma string_app_cons (x : ascii) (a b : string) :
  (String x a ++ b)%string = String x (a ++ b).
Proof. reflexivity. Qed.

Lemma string_app_assoc (a b c : string) : ((a ++ b) ++ c = a ++ (b ++ c))%string.
Proof.
  induction a as [|x a IH]; [done|].
  by rewrite !string_app_cons, IH.
Qed.

Lemma unescape_head_escape_char (c : ascii) (x : string) :
  unescape_head (escape_char c ++ x) = Some (c, x).
Proof.
  destruct c as [b0 b1 b2 b3 b4 b5 b6 b7].
  destruct b0, b1, b2, b3, b4, b5, b6, b7; reflexivity.
Qed.

Lemma unescape_head_dquote (x : string) : unescape_head (dquote ++ x) = None.
Proof. reflexivity. Qed.

Lemma escape_cons (c : ascii) (a : string) :
  escape (String c a) = (escape_char c ++ escape a)%string.
Proof. reflexivity. Qed.

Lemma escape_inj (a : string) :
  ∀ (b x y : string),
    (escape a ++ dquote ++ x = escape b ++ dquote ++ y)%string → a = b ∧ x = y.
Proof.
  induction a as [|c a IH]; intros [|d b] x y;
    rewrite ?escape_cons, ?string_app_assoc; intros H.
  - change (escape "") with ""%string in H.
    apply String.app_inj in H. apply String.app_inj in H. done.
  - apply (f_equal unescape_head) in H.
    change (escape "" ++ dquote ++ x)%string with (dquote ++ x)%string in H.
    by rewrite unescape_head_dquote, unescape_head_escape_char in H.
  - apply (f_equal unescape_head) in H.
    change (escape "" ++ dquote ++ y)%string with (dquote ++ y)%string in H.
    by rewrite unescape_head_dquote, unescape_head_escape_char in H.
  - apply (f_equal unescape_head) in H.
    rewrite !unescape_head_escape_char in H. injection H as -> H.
    destruct (IH b x y H) as [-> ->]. done.
Qed.

Lemma quote_inj (a b x y : string) :
  (quote a ++ x = quote b ++ y)%string → a = b ∧ x = y.
Proof.
  unfold quote. rewrite !string_app_assoc. intros H.
  apply String.app_inj in H. by apply escape_inj.
Qed.

Lemma name_text_inj (a b : option string) (x y : string) :
  stringify (name_or_null a) = Some x → stringify (name_or_null b) = Some y →
  ∀ r, (x ++ r = y ++ r)%string → a = b.
Proof.
  destruct a as [a|], b as [b|]; simpl; intros [= <-] [= <-] r H.
  - apply quote_inj in H as [-> _]. done.
  - unfold quote in H. rewrite string_app_assoc in H. discriminate H.
  - unfold quote in H. rewrite string_app_assoc in H. discriminate H.
  - done.
Qed.

(** Cache keys keep categories apart: for one prefix and one parameter
    name, [generateKey] gives the same key for two values that are [null] or
    strings only if the values are the same, whatever characters the strings
    contain; and so does [getCacheKey]. *)
Theorem cache_keys_distinguish_names (prefix field : string) (a b : option string) :
  (generateKey prefix [(field, name_or_null a)]
   = generateKey prefix [(field, name_or_null b)] → a = b) ∧
  (getCacheKey prefix [(field, name_or_null a)]
   = getCacheKey prefix [(field, name_or_null b)] → a = b).
Proof.
  assert (Hs : ∀ n : option string,
    stringify_object [(field, name_or_null n)]
    = ("{" ++ quote field ++ ":"
       ++ match stringify (name_or_null n) with Some t => t | None => "" end
       ++ "}")%string).
  { intros [n|]; unfold stringify_object; simpl;
      by rewrite ?string_app_assoc. }
  assert (Hk : (stringify_object [(field, name_or_null a)]
                = stringify_object [(field, name_or_null b)]) → a = b).
  { rewrite !Hs. intros H.
    apply (String.app_inj "{") in H. apply String.app_inj in H.
    apply (String.app_inj ":") in H.
    destruct (stringify (name_or_null a)) as [x|] eqn:Ea;
      [|by destruct a].
    destruct (stringify (name_or_null b)) as [y|] eqn:Eb;
      [|by destruct b].
    by apply (name_text_inj a b x y Ea Eb "}"). }
  split; intros H; apply Hk.
  - unfold generateKey in H. cbn [length Nat.ltb Nat.leb] in H.
    apply String.app_inj in H. by apply (String.app_inj "_") in H.
  - unfold getCacheKey in H.
    apply String.app_inj in H. by apply (String.app_inj "_") in H.
Qed.

End CacheKeyFacts.

(** ** Cache keys and the order of the fields *)

Section CacheKeyOrder.

Lemma stringify_object_written (fields : list (string * jsval)) :
  stringify_object fields = ("{" ++ join_comma (map member (written fields)) ++ "}")%string.
Proof.
  unfold stringify_object. cbn [stringify]. f_equal. f_equal. f_equal.
  unfold written, member.
  induction fields as [|[k x] fields IH]; [done|].
  rewrite filter_cons. cbn [fst snd].
  destruct (stringify x) as [t|] eqn:E.
  - rewrite decide_True by done. cbn [map fst snd]. rewrite E. f_equal. exact IH.
  - rewrite decide_False by (by intros [? ?]). exact IH.
Qed.

Lemma join_comma_cons (a : string) (parts : list string) (tail : string) :
  (join_comma (a :: parts) ++ tail
   = a ++ match parts with
          | [] => tail
          | _ :: _ => "," ++ join_comma parts ++ tail
          end)%string.
Proof.
  destruct parts as [|b parts]; [done|].
  cbn [join_comma]. by rewrite !string_app_assoc.
Qed.

(** Two orderings of the same written properties give the same text only
    when they are the same ordering. *)
Lemma members_inj (tail : string) (p : list (string * jsval)) :
  ∀ q,
    Permutation p q →
    NoDup (map fst p) →
    (join_comma (map member p) ++ tail = join_comma (map member q) ++ tail)%string →
    p = q.
Proof.
  induction p as [|[k x] p IH]; intros q Hperm Hnd H.
  - by apply Permutation_nil in Hperm.
  - destruct q as [|[k' x'] q].
    { apply Permutation_sym, Permutation_nil in Hperm. done. }
    assert (Hm : ∀ (f : string * jsval) (R : string),
      (member f ++ R
       = quote f.1 ++ ":" ++ match stringify f.2 with Some t => t | None => "" end
         ++ R)%string).
    { intros f R. unfold member. by rewrite !string_app_assoc. }
    cbn [map] in H. rewrite !join_comma_cons, !Hm in H. cbn [fst snd] in H.
    apply quote_inj in H as [<- H].
    assert (Hx : x = x').
    { assert (Hin : (k, x') ∈ (k, x) :: p).
      { rewrite Hperm. left. }
      apply elem_of_cons in Hin as [[= ->]|Hin]; [done|].
      apply NoDup_cons in Hnd as [Hnd _]. exfalso. apply Hnd.
      change (map fst p) with (fst <$> p).
      apply list_elem_of_fmap. by exists (k, x'). }
    subst x'. apply Permutation_cons_inv in Hperm.
    apply NoDup_cons in Hnd as [_ Hnd].
    apply String.app_inj in H. apply String.app_inj in H.
    f_equal. apply IH; [done|done|].
    destruct p as [|f p], q as [|g q].
    + done.
    + by apply Permutation_nil in Hperm.
    + by apply Permutation_sym, Permutation_nil in Hperm.
    + cbn [map] in H. apply (String.app_inj ",") in H. exact H.
Qed.

Lemma written_keys (p q : list (string * jsval)) :
  Permutation p q → NoDup (map fst p) →
  (stringify_object p = stringify_object q ↔ written p = written q).
Proof.
  intros Hperm Hnd. rewrite !stringify_object_written. split.
  - intros H. apply (String.app_inj "{") in H.
    apply (members_inj "}"); [| |done].
    + unfold written. by rewrite Hperm.
    + change (map fst (written p)) with (fst <$> written p).
      apply (sublist_NoDup _ (fst <$> p)); [done|].
      apply fmap_sublist, sublist_filter.
  - by intros ->.
Qed.

Lemma written_all (p : list (string * jsval)) :
  Forall (λ f, f.2 ≠ JUndefined) p → written p = p.
Proof.
  unfold written. induction 1 as [|[k x] p Hx _ IH]; [done|].
  rewrite filter_cons, decide_True, IH; [done|].
  cbn [snd] in *. by destruct x.
Qed.

(** C6 (amended).  The key functions do not canonicalise: they serialise
    the parameter object with [JSON.stringify], which goes through the
    fields in the order in which the object enumerates them and writes those
    whose value is not [undefined].  For two parameter objects with the same
    field/value pairs (the names being distinct, as in every object),
    [generateKey] gives the same key exactly when the two objects enumerate
    their written fields in the same order; and so does [getCacheKey].  When
    no value is [undefined], the key is therefore invariant under a
    reordering only if the reordering changes nothing. *)
Theorem key_follows_written_order (prefix : string) (p q : list (string * jsval)) :
  Permutation p q →
  NoDup (map fst p) →
  (generateKey prefix p = generateKey prefix q ↔ written p = written q) ∧
  (getCacheKey prefix p = getCacheKey prefix q ↔ written p = written q) ∧
  (Forall (λ f, f.2 ≠ JUndefined) p →
   (generateKey prefix p = generateKey prefix q ↔ p = q) ∧
   (getCacheKey prefix p = getCacheKey prefix q ↔ p = q)).
Proof.
  intros Hperm Hnd.
  pose proof (written_keys p q Hperm Hnd) as Hw.
  assert (Hget : getCacheKey prefix p = getCacheKey prefix q ↔ written p = written q).
  { rewrite <- Hw. unfold getCacheKey. split; [|by intros ->].
    intros H. apply String.app_inj in H. by apply (String.app_inj "_") in H. }
  assert (Hgen : generateKey prefix p = generateKey prefix q ↔ written p = written q).
  { unfold generateKey. rewrite <- (Permutation_length Hperm).
    destruct p as [|f p].
    - apply Permutation_nil in Hperm. by subst q.
    - cbn [length Nat.ltb Nat.leb]. rewrite <- Hw. split; [|by intros ->].
      intros H. apply String.app_inj in H. by apply (String.app_inj "_") in H. }
  split; [exact Hgen|]. split; [exact Hget|].
  intros Hdef.
  assert (Hq : Forall (λ f : string * jsval, f.2 ≠ JUndefined) q) by (by rewrite <- Hperm).
  rewrite Hgen, Hget, (written_all p Hdef), (written_all q Hq). done.
Qed.

End CacheKeyOrder.

Lemma key_follows_written_order_witness :
  written open_query = [("active"%string, JBool true)] ∧
  generateKey "services" open_query = generateKey "services" open_query_reordered ∧
  getCacheKey "services" open_query = getCacheKey "services" open_query_reordered.
Proof.
  split; [reflexivity|].
  destruct (key_follows_written_order "services" open_query open_query_reordered)
    as (H1 & H2 & _).
  - apply perm_swap.
  - apply NoDup_cons. split; [|apply NoDup_singleton].
    intros H. apply list_elem_of_singleton in H. discriminate H.
  - split; [apply H1 | apply H2]; reflexivity.
Defined.

(** ** Instances of the further properties *)

Lemma cached_select_second_call_hits_witness :
  ∃ c1,
    SupabaseQueries.getServices JNull true (answering two_services) 0 40
      SupabaseQueries.new
    = Some (SupabaseClient.Return two_services, c1) ∧
    SupabaseQueries.getServices JNull true unreachable 300040 300050 c1
    = Some (SupabaseClient.Return
              (SupabaseQueries.from_cache
                 (JArr [JStr "Buffet Completo"; JStr "Bolo Personalizado"])), c1).
Proof.
  eexists. split; [vm_compute; reflexivity|].
  apply (cached_select_second_call_hits "services" [("category"%string, JNull)]
           "buscar serviços" true (answering two_services) unreachable 0 40 300040 300050
           SupabaseQueries.new _ two_services
           (JArr [JStr "Buffet Completo"; JStr "Bolo Personalizado"])).
  - right. reflexivity.
  - vm_compute. reflexivity.
  - reflexivity.
  - reflexivity.
  - simpl. lia.
Defined.

Lemma cached_select_returns_no_error_witness :
  ∃ e, get_prop two_services "error" = Some e ∧ truthy e = false.
Proof.
  refine (proj2 (cached_select_returns_no_error "services" [("category"%string, JNull)]
                   "buscar serviços" true (answering two_services) 0 40
                   SupabaseQueries.new) two_services _ _).
  vm_compute. reflexivity.
Defined.

Lemma writes_and_the_query_cache_witness :
  (SupabaseQueries.getCache (getCacheKey "services" [("category"%string, JNull)]) 50
     client_with_services).1
  = JArr [JStr "Buffet Completo"; JStr "Bolo Personalizado"] ∧
  ∃ c2,
    SupabaseQueries.updateService (answering two_services) client_with_services
    = Some (SupabaseClient.Return two_services, c2) ∧
    SupabaseQueries.getServices JNull true unreachable 50 60 c2
    = SupabaseQueries.getServices JNull false unreachable 50 60 c2.
Proof.
  split; [vm_compute; reflexivity|].
  eexists. split; [vm_compute; reflexivity|].
  refine (proj1 (writes_and_the_query_cache (answering two_services)
                   client_with_services _ (SupabaseClient.Return two_services))
            _ JNull unreachable 50 60).
  left. vm_compute. reflexivity.
Defined.

Lemma loadServices_never_loads_remote_records_witness :
  (ServicesManager.loadServices ServicesManager.DataModels_undefined JNull true
     one_service_answer 0 1 fresh_page).1
    = ServicesManager.Returns ServicesManager.getFallbackServices ∧
  ServicesManager.cacheManager
    (ServicesManager.loadServices ServicesManager.DataModels_undefined JNull true
       one_service_answer 0 1 fresh_page).2
    = CacheManager.new.
Proof.
  destruct (loadServices_never_loads_remote_records JNull true one_service_answer
              0 1 fresh_page) as (H1 & _ & H3 & _).
  - intros _. reflexivity.
  - reflexivity.
  - discriminate.
  - reflexivity.
  - split; [exact H1 | exact H3].
Defined.

Lemma refreshServices_drops_cached_lists_witness :
  (CacheManager.data <$>
     CacheManager.cache (ServicesManager.cacheManager page_with_cached_list)
       !! generateKey "services" [("category"%string, JStr "doces")])
    = Some (JArr [buffet_record]) ∧
  CacheManager.cache
    (ServicesManager.cacheManager
       (ServicesManager.refreshServices ServicesManager.DataModels_undefined
          one_service_answer 7 page_with_cached_list).2)
    !! generateKey "services" [("category"%string, JStr "doces")] = None.
Proof.
  split; [vm_compute; reflexivity|].
  apply (proj2 (refreshServices_drops_cached_lists ServicesManager.DataModels_undefined
                  one_service_answer 7 page_with_cached_list)).
  vm_compute. reflexivity.
Defined.

Lemma logError_keeps_newest_witness :
  map ErrorHandler.timestamp
    (ErrorHandler.errorLog
       (ErrorHandler.logError_run upper_ascii
          [network_error 1; network_error 2; network_error 3]
          (small_handler, Some MonitoringSystem.new)).1)
  = ["2024-01-01T00:00:02.000Z"; "2024-01-01T00:00:03.000Z"]%string ∧
  ∃ ms',
    (ErrorHandler.logError_run upper_ascii
       [network_error 1; network_error 2; network_error 3]
       (small_handler, Some MonitoringSystem.new)).2 = Some ms' ∧
    MonitoringSystem.errors (MonitoringSystem.metrics ms') = 3%nat.
Proof.
  destruct (logError_keeps_newest upper_ascii
              [network_error 1; network_error 2; network_error 3]
              small_handler (Some MonitoringSystem.new)) as (H1 & _ & ms' & H2 & H3 & _).
  - simpl. lia.
  - split.
    + rewrite H1. reflexivity.
    + exists ms'. split; [exact H2|exact H3].
Defined.

Lemma getErrorLog_limit_witness :
  map ErrorHandler.timestamp
    (ErrorHandler.getErrorLog (Some 1)
       (ErrorHandler.logError_run upper_ascii
          [network_error 1; network_error 2] (small_handler, None)).1)
  = ["2024-01-01T00:00:02.000Z"]%string ∧
  length (ErrorHandler.getErrorLog (Some 0)
            (ErrorHandler.logError_run upper_ascii
               [network_error 1; network_error 2] (small_handler, None)).1)
  = 2%nat.
Proof.
  destruct (getErrorLog_limit
              (ErrorHandler.logError_run upper_ascii
                 [network_error 1; network_error 2] (small_handler, None)).1 1)
    as (H1 & H0 & _).
  split.
  - rewrite H1 by lia. reflexivity.
  - rewrite H0. reflexivity.
Defined.

Lemma log_keeps_newest_witness :
  map MonitoringSystem.message
    (MonitoringSystem.logs
       (MonitoringSystem.log_run upper_ascii three_log_calls small_monitor))
  = ["second"; "third"]%string ∧
  MonitoringSystem.errors
    (MonitoringSystem.metrics
       (MonitoringSystem.log_run upper_ascii three_log_calls small_monitor))
  = 1%nat.
Proof.
  destruct (log_keeps_newest upper_ascii three_log_calls small_monitor)
    as (H1 & _ & H3).
  - simpl. lia.
  - split; [rewrite H1; reflexivity|rewrite H3; reflexivity].
Defined.

Lemma performance_mark_round_trip_witness :
  (MonitoringSystem.endPerformanceMark upper_ascii "loadServices" 1250 1251
     (MonitoringSystem.startPerformanceMark "loadServices" 1000
        MonitoringSystem.new)).1 = 250.
Proof.
  destruct (performance_mark_round_trip upper_ascii "loadServices" 1000 1250 1251
              MonitoringSystem.new) as [H _].
  destruct H as [H _]; [lia|]. exact H.
Defined.

Lemma debug_records_are_counted_not_logged_witness :
  MonitoringSystem.logs
    (MonitoringSystem.logCacheAccess upper_ascii "services_" true 5
       MonitoringSystem.new) = [] ∧
  MonitoringSystem.cacheHits
    (MonitoringSystem.metrics
       (MonitoringSystem.logCacheAccess upper_ascii "services_" true 5
          MonitoringSystem.new)) = 1%nat.
Proof.
  destruct (debug_records_are_counted_not_logged upper_ascii "services_" true
              "click" JNull 5 MonitoringSystem.new) as (H1 & H2 & _).
  - apply elem_of_cons. by left.
  - split; [exact H1|exact H2].
Defined.


Lemma addToHistory_keeps_ten_newest_witness :
  QuotesManager.submissionHistory
    (fold_left (λ s q, QuotesManager.addToHistory q s)
       (map (λ n : nat, JNum (Z.of_nat n)) (seq 1 12)) QuotesManager.new)
  = map (λ n : nat, JNum (Z.of_nat n)) [12; 11; 10; 9; 8; 7; 6; 5; 4; 3]%nat.
Proof.
  rewrite (addToHistory_keeps_ten_newest
             (map (λ n : nat, JNum (Z.of_nat n)) (seq 1 12)) QuotesManager.new).
  - reflexivity.
  - simpl. lia.
Defined.

Lemma navigate_stays_in_range_witness :
  GalleryManager.currentPhotoIndex
    (GalleryManager.navigate
       [GalleryManager.ArrowRight; GalleryManager.ArrowRight; GalleryManager.ArrowRight]
       three_photos) = 2 ∧
  0 ≤ GalleryManager.currentPhotoIndex
        (GalleryManager.navigate
           [GalleryManager.ArrowRight; GalleryManager.ArrowRight;
            GalleryManager.ArrowRight] three_photos) < 3.
Proof.
  split; [reflexivity|].
  apply (navigate_stays_in_range
           [GalleryManager.ArrowRight; GalleryManager.ArrowRight;
            GalleryManager.ArrowRight] three_photos).
  simpl. lia.
Defined.

Lemma cache_keys_distinguish_names_witness :
  generateKey "services" [("category"%string, name_or_null (Some "buffet"%string))]
  ≠ generateKey "services" [("category"%string, name_or_null None)].
Proof.
  intros H.
  apply (proj1 (cache_keys_distinguish_names "services" "category"
                  (Some "buffet"%string) None)) in H.
  discriminate H.
Defined.
